(** * rimeLLM: strategy engine and provider layer

    A shallow embedding of [src/backend/strategy.py] and
    [src/backend/providers.py].

    - Text is a Python [str]: a sequence of Unicode code points, here
      [list Z].
    - The regular expressions of [PatternMatcher] are values of a small
      regex syntax, run by a matcher that follows Python's [re] for the
      constructs the module uses.
    - [StrategyMatch] objects are mutable and shared between the cache and
      the lists handed to callers, so they live in a store and lists hold
      locations.
    - Provider calls, HTTP requests and sleeps are recorded in a trace;
      exceptions are values of [exn] carried by a state-and-error monad. *)

From stdpp Require Import gmap strings list pretty.
From Stdlib Require Import Ascii QArith.

Close Scope Q_scope.

#[global] Set Warnings "-clear-no-such-hyp".

(** ** Python text *)

Definition codepoint := Z.
Definition text := list codepoint.

Definition code_of_ascii (a : ascii) : codepoint := Z.of_N (N_of_ascii a).

(** The code points of an ASCII literal. *)
Fixpoint text_of_string (s : string) : text :=
  match s with
  | EmptyString => []
  | String a s' => code_of_ascii a :: text_of_string s'
  end.

(** [str.encode()]: UTF-8, strict. Lone surrogates make it raise
    [UnicodeEncodeError], here [None]. *)
Definition utf8_encode_char (c : codepoint) : option (list Z) :=
  if (c <? 0)%Z then None
  else if (c <? 128)%Z then Some [c]
  else if (c <? 2048)%Z then
    Some [Z.lor 192 (Z.shiftr c 6); Z.lor 128 (Z.land c 63)]
  else if (55296 <=? c)%Z && (c <=? 57343)%Z then None
  else if (c <? 65536)%Z then
    Some [Z.lor 224 (Z.shiftr c 12);
          Z.lor 128 (Z.land (Z.shiftr c 6) 63);
          Z.lor 128 (Z.land c 63)]
  else if (c <? 1114112)%Z then
    Some [Z.lor 240 (Z.shiftr c 18);
          Z.lor 128 (Z.land (Z.shiftr c 12) 63);
          Z.lor 128 (Z.land (Z.shiftr c 6) 63);
          Z.lor 128 (Z.land c 63)]
  else None.

Fixpoint utf8_encode (t : text) : option (list Z) :=
  match t with
  | [] => Some []
  | c :: t' =>
      match utf8_encode_char c, utf8_encode t' with
      | Some b, Some bs => Some (b ++ bs)
      | _, _ => None
      end
  end.

(** ** Regular expressions, as [re] runs them *)

Module Re.

Local Open Scope Z_scope.

(** One-character matchers. *)
Inductive atom : Type :=
| Lit (c : codepoint)            (* a literal character *)
| Range (lo hi : codepoint)      (* [lo-hi] *)
| AnyChar                        (* .  (no DOTALL) *)
| Space                          (* \s *)
| Word                           (* \w *)
| Or (a b : atom).               (* union inside [...] *)

(** The patterns of the module repeat single characters only, so
    repetition is over atoms. *)
Inductive regex : Type :=
| Empty
| Atom (a : atom)
| Cat (r1 r2 : regex)
| Alt (r1 r2 : regex)
| Repeat (a : atom) (lo : nat) (hi : option nat)   (* a{lo,hi} *)
| Bol                                              (* ^ *)
| Eol                                              (* $ *)
| WordBoundary.                                    (* \b *)

Definition plus (a : atom) : regex := Repeat a 1 None.
Definition star (a : atom) : regex := Repeat a 0 None.
Definition opt (a : atom) : regex := Repeat a 0 (Some 1%nat).

Fixpoint cat_list (rs : list regex) : regex :=
  match rs with
  | [] => Empty
  | [r] => r
  | r :: rs' => Cat r (cat_list rs')
  end.

Fixpoint alt_list (rs : list regex) : regex :=
  match rs with
  | [] => Empty
  | [r] => r
  | r :: rs' => Alt r (alt_list rs')
  end.

(** A run of literal characters. *)
Definition lits (s : string) : regex :=
  cat_list (map (fun c => Atom (Lit c)) (text_of_string s)).

Definition is_ascii_digit (c : codepoint) : bool := (48 <=? c) && (c <=? 57).
Definition is_ascii_upper (c : codepoint) : bool := (65 <=? c) && (c <=? 90).
Definition is_ascii_lower (c : codepoint) : bool := (97 <=? c) && (c <=? 122).
Definition ascii_tolower (c : codepoint) : codepoint :=
  if is_ascii_upper c then c + 32 else c.

(** [\s] on [str] patterns: the 29 code points for which [str.isspace]
    holds. *)
Definition is_space (c : codepoint) : bool :=
  ((9 <=? c) && (c <=? 13)) || ((28 <=? c) && (c <=? 32))
  || (c =? 133) || (c =? 160) || (c =? 5760)
  || ((8192 <=? c) && (c <=? 8202))
  || (c =? 8232) || (c =? 8233) || (c =? 8239) || (c =? 8287)
  || (c =? 12288).

(** A literal under [re.IGNORECASE]. An ASCII letter matches the code
    points whose simple lower-case mapping is that letter (its two ASCII
    cases, U+0130 for i, U+212A for k) and the extra equivalents [re] adds
    (U+0131 for i, U+017F for s); an uncased character matches itself.
    All literals of the module's patterns are ASCII. *)
Definition ignorecase_eq (p c : codepoint) : bool :=
  if is_ascii_upper p || is_ascii_lower p then
    let lo := ascii_tolower p in
    (ascii_tolower c =? lo)
    || ((lo =? 105) && ((c =? 304) || (c =? 305)))
    || ((lo =? 107) && (c =? 8490))
    || ((lo =? 115) && (c =? 383))
  else c =? p.

Section Matcher.

(** [str.isalnum] outside Basic Latin comes from the Unicode character
    database of the interpreter; it is a parameter of the matcher. *)
Variable uni_isalnum : codepoint -> bool.

(** [re.IGNORECASE]; only literals are affected in the module's
    patterns. *)
Variable ignorecase : bool.

Definition is_word (c : codepoint) : bool :=
  if c <? 128 then
    is_ascii_digit c || is_ascii_upper c || is_ascii_lower c || (c =? 95)
  else uni_isalnum c.

Fixpoint atom_matches (a : atom) (c : codepoint) : bool :=
  match a with
  | Lit p => if ignorecase then ignorecase_eq p c else c =? p
  | Range lo hi => (lo <=? c) && (c <=? hi)
  | AnyChar => negb (c =? 10)
  | Space => is_space c
  | Word => is_word c
  | Or a1 a2 => atom_matches a1 c || atom_matches a2 c
  end.

Definition word_before (prev : option codepoint) : bool :=
  match prev with Some c => is_word c | None => false end.

Definition word_after (s : text) : bool :=
  match s with c :: _ => is_word c | [] => false end.

(** [$] without MULTILINE: at the end, or before a final newline. *)
Definition at_eol (s : text) : bool :=
  match s with
  | [] => true
  | [c] => c =? 10
  | _ => false
  end.

(** A position is the character before it ([None] at the start) and the
    text after it. [k] is what must match after the repetition; [n]
    counts the characters taken so far. *)
Fixpoint repeat_from (a : atom) (lo : nat) (hi : option nat)
    (k : option codepoint -> text -> bool)
    (n : nat) (prev : option codepoint) (s : text) {struct s} : bool :=
  (bool_decide (lo ≤ n)%nat && k prev s)
  || match s with
     | c :: s' =>
         atom_matches a c
         && match hi with
            | Some h => bool_decide (n < h)%nat
            | None => true
            end
         && repeat_from a lo hi k (S n) (Some c) s'
     | [] => false
     end.

(** Does [r], followed by [k], match at this position? Only the
    existence of a match matters to the callers, so the order in which
    [re] tries the alternatives does not. *)
Fixpoint matches (r : regex) (k : option codepoint -> text -> bool)
    (prev : option codepoint) (s : text) : bool :=
  match r with
  | Empty => k prev s
  | Atom a =>
      match s with
      | c :: s' => atom_matches a c && k (Some c) s'
      | [] => false
      end
  | Cat r1 r2 => matches r1 (matches r2 k) prev s
  | Alt r1 r2 => matches r1 k prev s || matches r2 k prev s
  | Repeat a lo hi => repeat_from a lo hi k 0 prev s
  | Bol => match prev with None => k prev s | Some _ => false end
  | Eol => at_eol s && k prev s
  | WordBoundary => xorb (word_before prev) (word_after s) && k prev s
  end.

Definition accept : option codepoint -> text -> bool := fun _ _ => true.

(** [re.match]: a match that starts at the beginning of the text. *)
Definition re_match (r : regex) (t : text) : bool :=
  matches r accept None t.

Fixpoint search_from (r : regex) (prev : option codepoint) (s : text)
    : bool :=
  matches r accept prev s
  || match s with
     | c :: s' => search_from r (Some c) s'
     | [] => false
     end.

(** [re.search]: a match that starts anywhere. *)
Definition re_search (r : regex) (t : text) : bool :=
  search_from r None t.

End Matcher.

End Re.

(** ** [PatternMatcher] *)

Module PatternMatcher.

Import Re.
Local Open Scope Z_scope.

(** The regular expressions of the class, in the order of its lists. *)

Definition space_word (kw : string) : regex :=
  cat_list [lits kw; plus Space; plus Word].

Definition code_patterns : list regex :=
  [ space_word "function";                                (* function\s+\w+ *)
    space_word "def";                                     (* def\s+\w+ *)
    space_word "class";                                   (* class\s+\w+ *)
    space_word "const";                                   (* const\s+\w+ *)
    space_word "let";                                     (* let\s+\w+ *)
    space_word "var";                                     (* var\s+\w+ *)
    cat_list [lits "import"; plus Space; star AnyChar; lits "from"];
                                                          (* import\s+.*from *)
    lits "#include";                                      (* #include *)
    lits "console.log";                                   (* console\.log *)
    lits "print(" ].                                      (* print\( *)

Definition whole_word (w : string) : regex :=
  cat_list [WordBoundary; lits w; WordBoundary].

Definition common_typos : list regex :=
  [ whole_word "teh"; whole_word "taht"; whole_word "wrok";
    whole_word "taht"; whole_word "recieved"; whole_word "occured";
    whole_word "seperate"; whole_word "definately";
    whole_word "accomodate" ].

Definition short_patterns : list regex :=
  [ cat_list [Bol; Repeat AnyChar 1 (Some 10%nat); Eol];  (* ^.{1,10}$ *)
    cat_list [WordBoundary;
              alt_list [lits "AI"; lits "API"; lits "SDK"; lits "URL";
                        lits "HTTP"; lits "TCP"; lits "UDP"];
              WordBoundary] ].             (* \b(AI|API|SDK|URL|HTTP|TCP|UDP)\b *)

Definition chinese : atom := Range 19968 40869.           (* [一-龥] *)
Definition english : atom := Or (Range 97 122) (Range 65 90).   (* [a-zA-Z] *)

(** ^[一-龥]+ [a-zA-Z]+$|^[a-zA-Z]+ [一-龥]+$ *)
Definition mixed_pattern : regex :=
  Alt (cat_list [Bol; plus chinese; Atom (Lit 32); plus english; Eol])
      (cat_list [Bol; plus english; Atom (Lit 32); plus chinese; Eol]).

Definition email_patterns : list regex :=
  [ space_word "dear";                                    (* dear\s+\w+ *)
    cat_list [lits "best"; plus Space; lits "regards"];   (* best\s+regards *)
    lits "sincerely";                                     (* sincerely *)
    cat_list [plus Word; Atom (Lit 64); plus Word; Atom (Lit 46); plus Word];
                                                          (* \w+@\w+\.\w+ *)
    cat_list [lits "please"; plus Space; lits "find"] ].  (* please\s+find *)

Definition chat_patterns : list regex :=
  [ lits "LOL";                                           (* LOL *)
    alt_list [lits ":)"; lits ":("; lits ":D"];           (* :\)|:\(|:D *)
    cat_list [lits "he"; plus (Lit 121); plus Space; star Word];
                                                          (* hey+\s+\w* *)
    cat_list [lits "what"; opt (Lit 115); plus Space; lits "up"];
                                                          (* whats?\s+up *)
    lits "brb";                                           (* brb *)
    lits "ttyl" ].                                        (* ttyl *)

Section Detectors.

Variable uni_isalnum : codepoint -> bool.

Definition search (ignorecase : bool) (r : regex) (t : text) : bool :=
  re_search uni_isalnum ignorecase r t.

Definition detect_language (t : text) : string :=
  let has_chinese := search false (Atom chinese) t in
  let has_english := search false (Atom english) t in
  if has_chinese && has_english then "mixed"
  else if has_chinese then "zh"
  else if has_english then "en"
  else "unknown".

(** Each detector returns at the first pattern of its list that
    matches. *)
Definition detect_typos (t : text) : bool :=
  existsb (fun r => search true r t) common_typos.

Definition detect_expansion_candidate (t : text) : bool :=
  existsb (fun r => re_match uni_isalnum false r t) short_patterns.

Definition detect_translation_candidate (t : text) : bool * string :=
  if re_match uni_isalnum false mixed_pattern t then (true, "mixed")
  else
    let has_chinese := search false (Atom chinese) t in
    let has_english := search false (Atom english) t in
    if has_chinese && negb has_english then (true, "zh-en")
    else if has_english && negb has_chinese then (true, "en-zh")
    else (false, "").

Definition detect_email_context (t : text) : bool :=
  existsb (fun r => search true r t) email_patterns.

Definition detect_chat_context (t : text) : bool :=
  existsb (fun r => search true r t) chat_patterns.

Definition detect_code (t : text) : bool :=
  existsb (fun r => search false r t) code_patterns.

End Detectors.

End PatternMatcher.

(** ** Exceptions

    The subclasses of [Exception] the two modules raise or meet. A handler
    [except Exception] catches every one of them. *)

#[local] Unset Elimination Schemes.

Inductive json : Type :=
| JNull
| JBool (b : bool)
| JInt (n : Z)
| JFloat (q : Q)
| JStr (s : text)
| JList (l : list json)
| JObj (fields : list (string * json)).

#[local] Set Elimination Schemes.

Inductive exn : Type :=
| ValueError (msg : string)
| KeyError (key : string)
| IndexError
| TypeError
| AttributeError
| JSONDecodeError
| UnicodeEncodeError
| TimeoutException
| Exception (msg : string) (args : list json)  (* Exception(f"msg{arg}") *)
| OtherError (name : string).                  (* raised by a collaborator *)

(** The outcome of a call: an exception raised, or a value returned. *)
Definition outcome (A : Type) : Type := exn + A.

(** ** Calls with effects

    A call runs on a state [S] and ends by returning or by raising; the
    state it leaves is kept in both cases. *)

Definition M (S A : Type) : Type := S -> outcome A * S.

Definition ret {S A : Type} (a : A) : M S A := fun s => (inr a, s).

Definition raise {S A : Type} (e : exn) : M S A := fun s => (inl e, s).

Definition bind {S A B : Type} (m : M S A) (k : A -> M S B) : M S B :=
  fun s =>
    match m s with
    | (inr a, s') => k a s'
    | (inl e, s') => (inl e, s')
    end.

(** [try: body  except Exception as e: handler(e)] *)
Definition try_except {S A : Type} (body : M S A) (handler : exn -> M S A)
    : M S A :=
  fun s =>
    match body s with
    | (inr a, s') => (inr a, s')
    | (inl e, s') => handler e s'
    end.

(** A result that is already an outcome. *)
Definition lift {S A : Type} (r : outcome A) : M S A := fun s => (r, s).

Declare Scope py_scope.
Delimit Scope py_scope with py.
Notation "'let*' x ':=' m 'in' k" := (bind m (fun x => k))
  (at level 10, x name, m at level 100, k at level 200) : py_scope.

(** ** Strategy engine *)

Module Strategy.

Inductive StrategyType : Type :=
| CORRECTION | EXPANSION | TRANSLATION | SUMMARIZATION | COMPLETION | CUSTOM.

Inductive StrategyPriority : Type := LOW | MEDIUM | HIGH | CRITICAL.

#[global] Instance StrategyType_eq_dec : EqDecision StrategyType.
Proof. solve_decision. Defined.

#[global] Instance StrategyPriority_eq_dec : EqDecision StrategyPriority.
Proof. solve_decision. Defined.

Definition StrategyType_code (k : StrategyType) : nat :=
  match k with
  | CORRECTION => 0 | EXPANSION => 1 | TRANSLATION => 2
  | SUMMARIZATION => 3 | COMPLETION => 4 | CUSTOM => 5
  end.

Definition StrategyType_of_code (n : nat) : option StrategyType :=
  match n with
  | 0 => Some CORRECTION | 1 => Some EXPANSION | 2 => Some TRANSLATION
  | 3 => Some SUMMARIZATION | 4 => Some COMPLETION | 5 => Some CUSTOM
  | _ => None
  end.

#[global] Instance StrategyType_countable : Countable StrategyType.
Proof.
  refine (inj_countable StrategyType_code StrategyType_of_code _).
  by intros [].
Defined.

Local Open Scope Z_scope.

(** [StrategyPriority.X.value] *)
Definition priority_value (p : StrategyPriority) : Z :=
  match p with
  | LOW => 1 | MEDIUM => 5 | HIGH => 10 | CRITICAL => 100
  end.

(** [StrategyPriority(v)]: the member with that value; [ValueError] when
    there is none. *)
Definition StrategyPriority_of_value (v : Z) : outcome StrategyPriority :=
  if decide (v = 1) then inr LOW
  else if decide (v = 5) then inr MEDIUM
  else if decide (v = 10) then inr HIGH
  else if decide (v = 100) then inr CRITICAL
  else inl (ValueError "not a valid StrategyPriority").

(** Float literals are kept as the decimal fractions written in the source;
    the code only compares them. *)
Record StrategyMatch : Type := {
  strategy_type : StrategyType;
  confidence : Q;
  matched_patterns : list string;
  priority : StrategyPriority;
  metadata : gmap string string;
}.

Definition set_priority (p : StrategyPriority) (m : StrategyMatch)
    : StrategyMatch :=
  {| strategy_type := strategy_type m;
     confidence := confidence m;
     matched_patterns := matched_patterns m;
     priority := p;
     metadata := metadata m |}.

Record StrategyConfig : Type := {
  enabled : bool;
  config_priority : StrategyPriority;
  min_confidence : Q;
  parameters : gmap string string;
}.

Record UserPreferences : Type := {
  preferred_language : string;
  correction_enabled : bool;
  expansion_enabled : bool;
  translation_enabled : bool;
  summarization_enabled : bool;
  auto_expand_shortcuts : bool;
  strategy_priorities : gmap StrategyType Z;
  learned_preferences : gmap string Q;
}.

(** [UserPreferences()] *)
Definition default_preferences : UserPreferences :=
  {| preferred_language := "zh";
     correction_enabled := true;
     expansion_enabled := true;
     translation_enabled := true;
     summarization_enabled := true;
     auto_expand_shortcuts := true;
     strategy_priorities := ∅;
     learned_preferences := ∅ |}.

(** The object behind [self.pattern_matcher]: the constructor takes any
    object with these methods and builds a [PatternMatcher()] when given
    none. *)
Record pattern_matcher : Type := {
  pm_detect_code : text -> bool;
  pm_detect_typos : text -> bool;
  pm_detect_translation_candidate : text -> bool * string;
  pm_detect_expansion_candidate : text -> bool;
  pm_detect_email_context : text -> bool;
  pm_detect_chat_context : text -> bool;
}.

Definition PatternMatcher_obj (uni_isalnum : codepoint -> bool)
    : pattern_matcher :=
  {| pm_detect_code := PatternMatcher.detect_code uni_isalnum;
     pm_detect_typos := PatternMatcher.detect_typos uni_isalnum;
     pm_detect_translation_candidate :=
       PatternMatcher.detect_translation_candidate uni_isalnum;
     pm_detect_expansion_candidate :=
       PatternMatcher.detect_expansion_candidate uni_isalnum;
     pm_detect_email_context :=
       PatternMatcher.detect_email_context uni_isalnum;
     pm_detect_chat_context :=
       PatternMatcher.detect_chat_context uni_isalnum |}.

(** *** Insertion-ordered dictionaries

    A Python [dict] iterates in insertion order; assigning to a key that is
    present keeps its place. *)

Section Dict.

Context {V : Type}.

Fixpoint dict_get (d : list (string * V)) (k : string) : option V :=
  match d with
  | [] => None
  | (k', v) :: d' => if decide (k' = k) then Some v else dict_get d' k
  end.

Fixpoint dict_set (d : list (string * V)) (k : string) (v : V)
    : list (string * V) :=
  match d with
  | [] => [(k, v)]
  | (k', v') :: d' =>
      if decide (k' = k) then (k, v) :: d' else (k', v') :: dict_set d' k v
  end.

Fixpoint dict_del (d : list (string * V)) (k : string)
    : list (string * V) :=
  match d with
  | [] => []
  | (k', v') :: d' =>
      if decide (k' = k) then d' else (k', v') :: dict_del d' k
  end.

End Dict.

(** *** [StrategyMatcher] *)

(** A location names a [StrategyMatch] object in the store. *)
Abbreviation loc := nat.

(** The state a [StrategyMatcher] works on: the objects it has created and
    its [_match_cache]. *)
Record matcher_state : Type := {
  store : list StrategyMatch;
  _match_cache : list (string * list loc);
}.

(** [StrategyMatcher(pattern_matcher)]: an empty cache. *)
Definition init_state : matcher_state :=
  {| store := []; _match_cache := [] |}.

Definition _cache_size : nat := 1000%nat.

(** The context dictionary of a call. *)
Abbreviation context_dict := (gmap string string).

Definition set_store (s : list StrategyMatch) (st : matcher_state)
    : matcher_state :=
  {| store := s; _match_cache := _match_cache st |}.

Definition set_cache (c : list (string * list loc)) (st : matcher_state)
    : matcher_state :=
  {| store := store st; _match_cache := c |}.

(** Creating an object: it gets the next free location. *)
Definition alloc (m : StrategyMatch) (st : matcher_state)
    : loc * matcher_state :=
  (length (store st), set_store (store st ++ [m]) st).

(** The sort key [(m.priority.value, m.confidence)] and Python's [<] on
    such tuples. *)
Definition sort_key (m : StrategyMatch) : Z * Q :=
  (priority_value (priority m), confidence m).

Definition key_lt (a b : Z * Q) : bool :=
  if negb (a.1 =? b.1)%Z then (a.1 <? b.1)%Z
  else if negb (Qeq_bool a.2 b.2) then negb (Qle_bool b.2 a.2)
  else false.

(** [list.sort(key=..., reverse=True)]: stable, so elements with equal keys
    keep their order. *)
Section Sort.

Context {A K : Type} (key : A -> K) (lt : K -> K -> bool).

Fixpoint insert_desc (x : A) (l : list A) : list A :=
  match l with
  | [] => [x]
  | y :: l' =>
      if lt (key x) (key y) then y :: insert_desc x l' else x :: y :: l'
  end.

Fixpoint sort_desc (l : list A) : list A :=
  match l with
  | [] => []
  | x :: l' => insert_desc x (sort_desc l')
  end.

End Sort.

Section StrategyMatcher.

(** [self.pattern_matcher] *)
Variable pm : pattern_matcher.

(** [hashlib.md5(bytes).hexdigest()] and [str(sorted(context.items()))]
    come from the interpreter's library. *)
Variable md5_hexdigest : list Z -> string.
Variable str_sorted_items : context_dict -> text.

(** The first 100 characters of the text, then the sorted items of a
    non-empty context; the digest of the UTF-8 encoding. [encode] raises on
    a lone surrogate. *)
Definition _generate_cache_key (t : text) (context : option context_dict)
    : outcome string :=
  let content :=
    take 100 t ++
    match context with
    | Some c => if decide (c = ∅) then [] else str_sorted_items c
    | None => []
    end in
  match utf8_encode content with
  | Some bytes => inr (md5_hexdigest bytes)
  | None => inl UnicodeEncodeError
  end.

(** [continue] when the kind of the match is switched off. *)
Definition disabled_by (preferences : UserPreferences) (m : StrategyMatch)
    : bool :=
  match strategy_type m with
  | CORRECTION => negb (correction_enabled preferences)
  | EXPANSION => negb (expansion_enabled preferences)
  | TRANSLATION => negb (translation_enabled preferences)
  | SUMMARIZATION => negb (summarization_enabled preferences)
  | COMPLETION | CUSTOM => false
  end.

(** [_apply_preferences]: the loop over [matches], with [result] the list
    built so far. A priority override is written into the object itself.
    An override that is no member value makes [StrategyPriority(...)]
    raise; what was written before stays written. A location that names no
    object cannot occur: every listed location was allocated. *)
Fixpoint apply_loop (preferences : UserPreferences) (matches : list loc)
    (result : list loc) (s : list StrategyMatch)
    : outcome (list loc) * list StrategyMatch :=
  match matches with
  | [] => (inr result, s)
  | l :: rest =>
      match s !! l with
      | None => (inl (OtherError "dangling location"), s)
      | Some m =>
          if disabled_by preferences m then
            apply_loop preferences rest result s
          else
            match strategy_priorities preferences !! strategy_type m with
            | Some priority_override =>
                if decide (priority_override = 0) then
                  apply_loop preferences rest (result ++ [l]) s
                else
                  match StrategyPriority_of_value priority_override with
                  | inl e => (inl e, s)
                  | inr p =>
                      apply_loop preferences rest (result ++ [l])
                        (<[l := set_priority p m]> s)
                  end
            | None => apply_loop preferences rest (result ++ [l]) s
            end
      end
  end.

Definition _apply_preferences (matches : list loc)
    (preferences : UserPreferences) (st : matcher_state)
    : outcome (list loc) * matcher_state :=
  let '(r, s) := apply_loop preferences matches [] (store st) in
  (r, set_store s st).

(** The sort key of the object at a location. *)
Definition key_at (s : list StrategyMatch) (l : loc) : Z * Q :=
  match s !! l with
  | Some m => sort_key m
  | None => (0, 0%Q)
  end.

(** [_finalize_matches]: sort, evict the first key when the cache holds
    more than [_cache_size] entries, store a copy of the list, return the
    list. [preferences] is not used. *)
Definition _finalize_matches (matches : list loc) (cache_key : string)
    (preferences : option UserPreferences) (st : matcher_state)
    : outcome (list loc) * matcher_state :=
  let matches := sort_desc (key_at (store st)) key_lt matches in
  let cache := _match_cache st in
  let cache :=
    if decide (_cache_size < length cache)%nat then
      match cache with
      | (oldest_key, _) :: _ => dict_del cache oldest_key
      | [] => cache
      end
    else cache in
  (inr matches, set_cache (dict_set cache cache_key matches) st).

(** [matches.append(StrategyMatch(...))] when [cond] holds. *)
Definition append_if (cond : bool) (m : StrategyMatch)
    (acc : list loc * matcher_state) : list loc * matcher_state :=
  if cond then
    let '(l, st) := alloc m acc.2 in (acc.1 ++ [l], st)
  else acc.

(** [preferences and preferences.flag] *)
Definition pref_flag (preferences : option UserPreferences)
    (flag : UserPreferences -> bool) : bool :=
  match preferences with
  | Some p => flag p
  | None => false
  end.

Definition code_match : StrategyMatch :=
  {| strategy_type := CUSTOM; confidence := (99 # 100)%Q;
     matched_patterns := ["code_detected"]; priority := CRITICAL;
     metadata := {["action" := "protect_code"]} |}.

Definition typo_match : StrategyMatch :=
  {| strategy_type := CORRECTION; confidence := (95 # 100)%Q;
     matched_patterns := ["typo_detected"]; priority := HIGH;
     metadata := ∅ |}.

Definition translation_match (direction : string) : StrategyMatch :=
  {| strategy_type := TRANSLATION; confidence := (85 # 100)%Q;
     matched_patterns := ["translation_candidate"]; priority := MEDIUM;
     metadata := {["direction" := direction]} |}.

Definition expansion_match : StrategyMatch :=
  {| strategy_type := EXPANSION; confidence := (75 # 100)%Q;
     matched_patterns := ["short_text"; "expansion_candidate"];
     priority := MEDIUM; metadata := ∅ |}.

Definition email_match : StrategyMatch :=
  {| strategy_type := CUSTOM; confidence := (8 # 10)%Q;
     matched_patterns := ["email_context"]; priority := LOW;
     metadata := {["action" := "formal_tone"]} |}.

Definition chat_match : StrategyMatch :=
  {| strategy_type := CUSTOM; confidence := (8 # 10)%Q;
     matched_patterns := ["chat_context"]; priority := LOW;
     metadata := {["action" := "casual_tone"]} |}.

(** The detectors of a cache miss on text that is not code, in the order
    of the source. *)
Definition classify (t : text) (preferences : option UserPreferences)
    (st : matcher_state) : list loc * matcher_state :=
  let acc := ([], st) in
  let acc := append_if (pm_detect_typos pm t) typo_match acc in
  let '(is_translation, direction) :=
    pm_detect_translation_candidate pm t in
  let acc :=
    append_if (is_translation && pref_flag preferences translation_enabled)
      (translation_match direction) acc in
  let acc :=
    append_if (pm_detect_expansion_candidate pm t
               && pref_flag preferences expansion_enabled)
      expansion_match acc in
  let acc := append_if (pm_detect_email_context pm t) email_match acc in
  let acc := append_if (pm_detect_chat_context pm t) chat_match acc in
  acc.

Definition match_strategies (t : text) (context : option context_dict)
    (preferences : option UserPreferences) (st : matcher_state)
    : outcome (list loc) * matcher_state :=
  match _generate_cache_key t context with
  | inl e => (inl e, st)
  | inr cache_key =>
      match dict_get (_match_cache st) cache_key with
      | Some matches =>
          match preferences with
          | Some p => _apply_preferences matches p st
          | None => (inr matches, st)
          end
      | None =>
          if pm_detect_code pm t then
            let '(l, st) := alloc code_match st in
            _finalize_matches [l] cache_key preferences st
          else
            let '(matches, st) := classify t preferences st in
            _finalize_matches matches cache_key preferences st
      end
  end.

(** What a caller reads through the returned list: the objects at its
    locations, as the store has them at that moment. *)
Definition deref (s : list StrategyMatch) (ls : list loc)
    : list StrategyMatch :=
  omap (fun l => s !! l) ls.

End StrategyMatcher.

(** *** [StrategyChain] *)

Record StrategyChain : Type := {
  _strategies : list (StrategyType * StrategyConfig);
  _dependencies : gmap StrategyType (list StrategyType);
}.

(** [StrategyChain()] *)
Definition new_chain : StrategyChain :=
  {| _strategies := []; _dependencies := ∅ |}.

Definition add_strategy (strategy_type : StrategyType)
    (config : StrategyConfig) (self : StrategyChain) : StrategyChain :=
  {| _strategies := _strategies self ++ [(strategy_type, config)];
     _dependencies := _dependencies self |}.

(** [self._dependencies[strategy].append(depends_on)] on a
    [defaultdict(list)]. *)
Definition add_dependency (strategy depends_on : StrategyType)
    (self : StrategyChain) : StrategyChain :=
  {| _strategies := _strategies self;
     _dependencies :=
       <[strategy := default [] (_dependencies self !! strategy)
                     ++ [depends_on]]> (_dependencies self) |}.

(** [self._dependencies.get(kind, [])] *)
Definition deps_of (self : StrategyChain) (kind : StrategyType)
    : list StrategyType :=
  default [] (_dependencies self !! kind).

(** The state of the loop of [build_chain]: [chain] and [processed]. *)
Definition chain_state : Type := list StrategyType * gset StrategyType.

(** The inner loop: a dependency not yet processed is appended and
    marked. *)
Definition emit_dep (acc : chain_state) (dep : StrategyType) : chain_state :=
  if decide (dep ∈ acc.2) then acc
  else (acc.1 ++ [dep], acc.2 ∪ {[dep]}).

(** The body of the outer loop: a processed kind is skipped; otherwise its
    dependencies go first, then the kind itself. *)
Definition chain_step (self : StrategyChain) (acc : chain_state)
    (m : StrategyMatch) : chain_state :=
  if decide (strategy_type m ∈ acc.2) then acc
  else
    let acc := foldl emit_dep acc (deps_of self (strategy_type m)) in
    (acc.1 ++ [strategy_type m], acc.2 ∪ {[strategy_type m]}).

(** [sorted(matches, key=lambda m: m.priority.value, reverse=True)] *)
Definition by_priority (matches : list StrategyMatch) : list StrategyMatch :=
  sort_desc (fun m => priority_value (priority m)) Z.ltb matches.

Definition build_chain (self : StrategyChain) (matches : list StrategyMatch)
    : list StrategyType :=
  match matches with
  | [] => []
  | _ => (foldl (chain_step self) ([], ∅) (by_priority matches)).1
  end.

(** What a callable of the caller raises: any exception object. The
    handler of [execute_chain] is [except Exception as e] and formats [e]
    into the log message, so it tells three kinds of objects apart: an
    instance of [Exception] that [str] renders; an instance of [Exception]
    whose [__str__] raises in turn; and an exception that is no instance of
    [Exception] ([SystemExit], [KeyboardInterrupt], [GeneratorExit],
    [asyncio.CancelledError]). *)
Inductive raised : Type :=
| Printable (e : exn)
| Unprintable (e : exn) (from_str : raised)
| NotException (name : string).

Section ExecuteChain.

(** The state the transform works on (the providers it calls, its own
    counters); the transform returns a text or raises. *)
Context {S : Type}.
Variable processor : text -> StrategyType -> S -> (raised + text) * S.

(** The loop of [execute_chain], [result] being the running text. The
    handler catches an instance of [Exception], formats it into the log
    message and leaves [result] as it was; when formatting raises, that
    exception leaves the loop. An exception that is no instance of
    [Exception] is not caught. *)
Fixpoint execute_chain_from (result : text) (chain : list StrategyType)
    (s : S) : (raised + text) * S :=
  match chain with
  | [] => (inr result, s)
  | strategy_type :: chain' =>
      match processor result strategy_type s with
      | (inr result', s') => execute_chain_from result' chain' s'
      | (inl (Printable e), s') => execute_chain_from result chain' s'
      | (inl (Unprintable e from_str), s') => (inl from_str, s')
      | (inl (NotException name), s') => (inl (NotException name), s')
      end
  end.

Definition execute_chain (t : text) (chain : list StrategyType)
    : S -> (raised + text) * S :=
  execute_chain_from t chain.

(** One step as the specification words it: the result of the transform
    replaces the running text; when the transform raises, the running text
    stays as it is. *)
Definition feed (acc : text * S) (k : StrategyType) : text * S :=
  match processor acc.1 k acc.2 with
  | (inr t', s') => (t', s')
  | (inl _, s') => (acc.1, s')
  end.

(** The transform, with every call written to a log. *)
Definition recording (t : text) (k : StrategyType)
    : S * list (text * StrategyType)
      -> (raised + text) * (S * list (text * StrategyType)) :=
  fun sl =>
    let '(r, s') := processor t k sl.1 in
    (r, (s', sl.2 ++ [(t, k)])).

End ExecuteChain.

(** *** Vocabulary of the statements below *)

(** A transform whose failures the handler of [execute_chain] takes in:
    all it raises are instances of [Exception] that [str] renders. *)
Definition ordinary {S : Type}
    (processor : text -> StrategyType -> S -> (raised + text) * S) : Prop :=
  forall t k s r s', processor t k s = (inl r, s') -> exists e, r = Printable e.

(** The override the preferences hold for the kind of a match; an override
    of 0 counts as none. *)
Definition override_of (preferences : UserPreferences) (m : StrategyMatch)
    : option Z :=
  match strategy_priorities preferences !! strategy_type m with
  | Some v => if decide (v = 0) then None else Some v
  | None => None
  end.

(** What [_apply_preferences] makes of an object when it returns. *)
Definition applied (preferences : UserPreferences) (m : StrategyMatch)
    : StrategyMatch :=
  if disabled_by preferences m then m
  else
    match override_of preferences m with
    | Some v =>
        match StrategyPriority_of_value v with
        | inr p => set_priority p m
        | inl _ => m
        end
    | None => m
    end.

(** The locations [_apply_preferences] keeps. *)
Definition kept (preferences : UserPreferences) (s : list StrategyMatch)
    (l : loc) : bool :=
  match s !! l with
  | Some m => negb (disabled_by preferences m)
  | None => false
  end.

(** The override for the kind of [m], if it applies, is a member value. *)
Definition override_ok (preferences : UserPreferences) (m : StrategyMatch)
    : Prop :=
  disabled_by preferences m = false ->
  forall v, override_of preferences m = Some v ->
  exists p, StrategyPriority_of_value v = inr p.

(** What the loop of [build_chain] keeps true of [chain] and [processed]:
    they hold the same kinds, each once, and a kind that is no dependency
    of a later kind has its own dependencies before it. *)
Record chain_inv (self : StrategyChain) (acc : chain_state) : Prop := {
  inv_processed : forall k, k ∈ acc.2 <-> k ∈ acc.1;
  inv_nodup : NoDup acc.1;
  inv_deps : forall i k,
    acc.1 !! i = Some k ->
    (forall j x, (i < j)%nat -> acc.1 !! j = Some x -> k ∉ deps_of self x) ->
    forall d, d ∈ deps_of self k ->
    exists i', (i' < i)%nat /\ acc.1 !! i' = Some d;
}.

End Strategy.

(** ** Providers *)

Module Providers.

Local Open Scope Z_scope.
Local Open Scope py_scope.

Inductive ProviderType : Type := OPENAI | ANTHROPIC | LOCAL | CUSTOM.

#[global] Instance ProviderType_eq_dec : EqDecision ProviderType.
Proof. solve_decision. Defined.

Definition ProviderType_code (k : ProviderType) : nat :=
  match k with
  | OPENAI => 0%nat | ANTHROPIC => 1%nat | LOCAL => 2%nat | CUSTOM => 3%nat
  end.

Definition ProviderType_of_code (n : nat) : option ProviderType :=
  match n with
  | 0%nat => Some OPENAI | 1%nat => Some ANTHROPIC | 2%nat => Some LOCAL
  | 3%nat => Some CUSTOM | _ => None
  end.

#[global] Instance ProviderType_countable : Countable ProviderType.
Proof.
  refine (inj_countable ProviderType_code ProviderType_of_code _).
  by intros [].
Defined.

Inductive MessageRole : Type := SYSTEM | USER | ASSISTANT.

(** [role.value] *)
Definition role_value (r : MessageRole) : string :=
  match r with
  | SYSTEM => "system" | USER => "user" | ASSISTANT => "assistant"
  end.

Record Message : Type := { role : MessageRole; content : text }.

(** [content] is whatever the response holds at the variant's path; the
    dataclass does not check it. *)
Record ChatCompletion : Type := {
  completion_content : json;
  completion_model : string;
  usage : option json;
  raw_response : option json;
}.

Record ProviderConfig : Type := {
  type : ProviderType;
  api_key : string;
  endpoint : option string;
  model : option string;
  max_tokens : Z;
  temperature : Q;
  timeout : Z;
  retry_count : Z;
}.

(** *** Reading a decoded JSON value *)

Fixpoint fields_get (fields : list (string * json)) (k : string)
    : option json :=
  match fields with
  | [] => None
  | (k', v) :: fields' => if decide (k' = k) then Some v else fields_get fields' k
  end.

(** [v[k]] for a string key. *)
Definition getitem (v : json) (k : string) : outcome json :=
  match v with
  | JObj fields =>
      match fields_get fields k with
      | Some x => inr x
      | None => inl (KeyError k)
      end
  | _ => inl TypeError
  end.

(** [v[0]] *)
Definition getitem0 (v : json) : outcome json :=
  match v with
  | JList (x :: _) => inr x
  | JList [] => inl IndexError
  | JStr (c :: _) => inr (JStr [c])
  | JStr [] => inl IndexError
  | JObj _ => inl (KeyError "0")
  | _ => inl TypeError
  end.

(** [v.get(k, default)]: only a [dict] has the method. *)
Definition get_method (v : json) (k : string) (default : json)
    : outcome json :=
  match v with
  | JObj fields =>
      inr (match fields_get fields k with Some x => x | None => default end)
  | _ => inl AttributeError
  end.

(** *** The network

    An HTTP request either comes back with a status and a body, or raises
    ([httpx.TimeoutException], a connection error, ...). [response.json()]
    decodes the body; [None] is a body that is no JSON. *)

Record Request : Type := {
  url : string;
  headers : list (string * string);
  payload : json;
  request_timeout : Z;
}.

Inductive http_result : Type :=
| Response (status_code : Z) (body : option json)
| Raises (e : exn).

Inductive event : Type :=
| EvPost (r : Request)
| EvSleep (seconds : Z).

(** What a run has done so far: the number of HTTP requests and the trace
    of requests and sleeps. *)
Record world : Type := {
  http_calls : nat;
  trace : list event;
}.

Definition new_world : world := {| http_calls := 0; trace := [] |}.

(** The sleeps of a trace, in order. *)
Definition delays (tr : list event) : list Z :=
  omap (fun e => match e with EvSleep d => Some d | EvPost _ => None end) tr.

(** The requests of a trace, in order. *)
Definition posts (tr : list event) : list Request :=
  omap (fun e => match e with EvPost r => Some r | EvSleep _ => None end) tr.

Section Provider.

(** The answer to the [n]-th HTTP request of the run. *)
Variable network : nat -> Request -> http_result.

(** [await client.post(...)] *)
Definition post (r : Request) : M world http_result :=
  fun w =>
    (inr (network (http_calls w) r),
     {| http_calls := S (http_calls w); trace := trace w ++ [EvPost r] |}).

(** [await asyncio.sleep(seconds)] *)
Definition sleep (seconds : Z) : M world unit :=
  fun w =>
    (inr tt,
     {| http_calls := http_calls w; trace := trace w ++ [EvSleep seconds] |}).

(** [response.json()] *)
Definition response_json (body : option json) : outcome json :=
  match body with
  | Some v => inr v
  | None => inl JSONDecodeError
  end.

(** [x or default] on an optional string: [None] and the empty string are
    both false. *)
Definition or_default (x : option string) (default : string) : string :=
  match x with
  | Some s => if decide (s = "") then default else s
  | None => default
  end.

Definition formatted_messages (messages : list Message) : json :=
  JList (map (fun m =>
                JObj [("role", JStr (text_of_string (role_value (role m))));
                      ("content", JStr (content m))])
             messages).

(** What differs between the three provider classes. *)
Record variant : Type := {
  provider_type_of : ProviderType;
  default_base_url : string;
  default_model : string;
  path : string;
  make_headers : ProviderConfig -> list (string * string);
  make_payload : ProviderConfig -> string -> json -> bool -> json;
  (** the completion built from the body of a 200 response *)
  parse_success : string -> json -> outcome ChatCompletion;
  (** what is done with any other response *)
  on_error_status : Z -> option json -> Z -> M world unit;
}.

(** [outcome]-valued steps in sequence. *)
Definition obind {A B : Type} (r : outcome A) (k : A -> outcome B)
    : outcome B :=
  match r with
  | inr a => k a
  | inl e => inl e
  end.

(** [data["choices"][0]["message"]["content"]] *)
Definition choices_content (data : json) : outcome json :=
  obind (getitem data "choices") (fun v =>
  obind (getitem0 v) (fun v =>
  obind (getitem v "message") (fun v =>
  getitem v "content"))).

(** [data["content"][0]["text"]] *)
Definition content_text (data : json) : outcome json :=
  obind (getitem data "content") (fun v =>
  obind (getitem0 v) (fun v =>
  getitem v "text")).

(** The non-200 branch of [OpenAIProvider] and [AnthropicProvider]: read
    the error message; on 429 sleep [2 ** attempt] and [continue];
    otherwise raise. *)
Definition backoff_on_429 (name : string) (status_code : Z)
    (body : option json) (attempt : Z) : M world unit :=
  let* error_data := lift (response_json body) in
  let* error := lift (get_method error_data "error" (JObj [])) in
  let* error_msg :=
    lift (get_method error "message"
            (JStr (text_of_string "Unknown error"))) in
  if decide (status_code = 429) then
    sleep (2 ^ attempt)
  else raise (Exception (name +:+ " API error: ") [error_msg]).

(** The non-200 branch of [LocalProvider]: raise, whatever the status. *)
Definition raise_on_status (status_code : Z) (body : option json)
    (attempt : Z) : M world unit :=
  raise (Exception "Local API error: " [JInt status_code]).

Definition openai_payload (config : ProviderConfig) (model : string)
    (messages : json) (stream : bool) : json :=
  JObj [("model", JStr (text_of_string model));
        ("messages", messages);
        ("temperature", JFloat (temperature config));
        ("max_tokens", JInt (max_tokens config));
        ("stream", JBool stream)].

Definition anthropic_payload (config : ProviderConfig) (model : string)
    (messages : json) (stream : bool) : json :=
  JObj [("model", JStr (text_of_string model));
        ("messages", messages);
        ("max_tokens", JInt (max_tokens config));
        ("temperature", JFloat (temperature config));
        ("stream", JBool stream)].

Definition OpenAIProvider : variant :=
  {| provider_type_of := OPENAI;
     default_base_url := "https://api.openai.com/v1";
     default_model := "gpt-3.5-turbo";
     path := "/chat/completions";
     make_headers := fun config =>
       [("Authorization", "Bearer " +:+ api_key config)];
     make_payload := openai_payload;
     parse_success := fun model data =>
       obind (choices_content data) (fun content =>
       obind (get_method data "usage" (JObj [])) (fun usage =>
       inr {| completion_content := content; completion_model := model;
              usage := Some usage; raw_response := Some data |}));
     on_error_status := backoff_on_429 "OpenAI" |}.

Definition AnthropicProvider : variant :=
  {| provider_type_of := ANTHROPIC;
     default_base_url := "https://api.anthropic.com";
     default_model := "claude-sonnet-4-20250514";
     path := "/v1/messages";
     make_headers := fun config =>
       [("Authorization", "Bearer " +:+ api_key config);
        ("anthropic-version", "2023-06-01")];
     make_payload := anthropic_payload;
     parse_success := fun model data =>
       obind (content_text data) (fun content =>
       obind (get_method data "usage" (JObj [])) (fun usage =>
       inr {| completion_content := content; completion_model := model;
              usage := Some usage; raw_response := Some data |}));
     on_error_status := backoff_on_429 "Anthropic" |}.

Definition LocalProvider : variant :=
  {| provider_type_of := LOCAL;
     default_base_url := "http://localhost:11434";
     default_model := "llama3";
     path := "/v1/chat/completions";
     make_headers := fun _ => [];
     make_payload := openai_payload;
     parse_success := fun model data =>
       obind (choices_content data) (fun content =>
       inr {| completion_content := content; completion_model := model;
              usage := Some (JObj []); raw_response := Some data |});
     on_error_status := raise_on_status |}.

Section Complete.

Variable v : variant.
Variable config : ProviderConfig.

Definition base_url : string := or_default (endpoint config) (default_base_url v).
Definition model_name : string := or_default (model config) (default_model v).

Definition request (messages : list Message) (stream : bool) : Request :=
  {| url := base_url +:+ path v;
     headers := make_headers v config;
     payload := make_payload v config model_name
                  (formatted_messages messages) stream;
     request_timeout := timeout config |}.

(** The loop [for attempt in range(retry_count)], with [remaining] attempts
    to go from [attempt] on. A timeout is retried after one second unless
    the attempt is the last one; any other exception of the request goes to
    the caller. Falling out of the loop raises. *)
Fixpoint attempts (req : Request) (remaining : nat) (attempt : Z)
    : M world ChatCompletion :=
  match remaining with
  | O => raise (Exception "Max retries exceeded" [])
  | S remaining' =>
      let* r := post req in
      match r with
      | Response status_code body =>
          if decide (status_code = 200) then
            let* data := lift (response_json body) in
            lift (parse_success v model_name data)
          else
            let* _ := on_error_status v status_code body attempt in
            attempts req remaining' (attempt + 1)
      | Raises TimeoutException =>
          if decide (attempt < retry_count config - 1) then
            let* _ := sleep 1 in
            attempts req remaining' (attempt + 1)
          else raise TimeoutException
      | Raises e => raise e
      end
  end.

Definition complete (messages : list Message) (stream : bool)
    : M world ChatCompletion :=
  attempts (request messages stream) (Z.to_nat (retry_count config)) 0.

End Complete.

End Provider.

(** *** Vocabulary of the statements below *)

(** The error message the non-200 branch reads from a response body. *)
Definition read_error_message (body : option json) : outcome json :=
  obind (response_json body) (fun error_data =>
  obind (get_method error_data "error" (JObj [])) (fun error =>
  get_method error "message" (JStr (text_of_string "Unknown error")))).

(** A 429 response whose error message can be read: the body is a JSON
    object and its ["error"] member, when there is one, is an object. *)
Definition rate_limited (r : http_result) : Prop :=
  exists body msg, r = Response 429 body /\ read_error_message body = inr msg.

(** The events of [k] rate-limited attempts from [attempt] on: a request,
    then a sleep of [2 ** attempt] seconds. *)
Fixpoint backoff_trace (req : Request) (attempt : Z) (k : nat) : list event :=
  match k with
  | O => []
  | S k' =>
      EvPost req :: EvSleep (2 ^ attempt) :: backoff_trace req (attempt + 1) k'
  end.

(** The world after [k] more requests and the events [evs]. *)
Definition after (w : world) (k : nat) (evs : list event) : world :=
  {| http_calls := (http_calls w + k)%nat; trace := trace w ++ evs |}.

(** The variants whose non-200 branch backs off on 429. *)
Definition backs_off (v : variant) : Prop :=
  exists name, on_error_status v = backoff_on_429 name.

(** *** [ProviderManager] *)

(** An asynchronous generator run to its end: the chunks it yields, in
    order, how it ends ([None]: it is exhausted; [Some e]: it raises [e]),
    and the state it leaves. *)
Definition Gen (S : Type) : Type := S -> (list text * option exn) * S.

Section Manager.

(** The state the registered providers act on. *)
Context {W : Type}.

(** An object of a class that implements [AIProvider]. *)
Record AIProvider : Type := {
  provider_type : ProviderType;
  provider_complete : list Message -> bool -> M W ChatCompletion;
  provider_stream_complete : list Message -> Gen W;
}.

Record ProviderManager : Type := {
  _providers : gmap ProviderType AIProvider;
  _active_provider : option ProviderType;
  _fallback_provider : option ProviderType;
}.

(** [ProviderManager()] *)
Definition new_manager : ProviderManager :=
  {| _providers := ∅; _active_provider := None; _fallback_provider := None |}.

Definition register_provider (provider : AIProvider) (self : ProviderManager)
    : ProviderManager :=
  {| _providers := <[provider_type provider := provider]> (_providers self);
     _active_provider := _active_provider self;
     _fallback_provider := _fallback_provider self |}.

Definition set_active_provider (k : ProviderType) (self : ProviderManager)
    : outcome ProviderManager :=
  match _providers self !! k with
  | Some _ =>
      inr {| _providers := _providers self;
             _active_provider := Some k;
             _fallback_provider := _fallback_provider self |}
  | None => inl (ValueError "Provider not registered")
  end.

Definition set_fallback_provider (k : ProviderType) (self : ProviderManager)
    : outcome ProviderManager :=
  match _providers self !! k with
  | Some _ =>
      inr {| _providers := _providers self;
             _active_provider := _active_provider self;
             _fallback_provider := Some k |}
  | None => inl (ValueError "Provider not registered")
  end.

Definition get_active_provider (self : ProviderManager) : option AIProvider :=
  match _active_provider self with
  | Some k => _providers self !! k
  | None => None
  end.

(** The fallback of the [except] blocks: configured and registered. *)
Definition get_fallback_provider (self : ProviderManager)
    : option AIProvider :=
  match _fallback_provider self with
  | Some k => _providers self !! k
  | None => None
  end.

(** The calls the manager makes on its providers are recorded next to the
    providers' state. *)
Inductive call : Type :=
| CallComplete (k : ProviderType)
| CallStream (k : ProviderType).

Record manager_world : Type := {
  ext : W;
  calls : list call;
}.

(** [await provider.complete(messages, stream)] *)
Definition invoke_complete (provider : AIProvider) (messages : list Message)
    (stream : bool) : M manager_world ChatCompletion :=
  fun mw =>
    let '(r, w) := provider_complete provider messages stream (ext mw) in
    (r, {| ext := w;
           calls := calls mw ++ [CallComplete (provider_type provider)] |}).

(** [async for chunk in provider.stream_complete(messages): yield chunk] *)
Definition invoke_stream (provider : AIProvider) (messages : list Message)
    : Gen manager_world :=
  fun mw =>
    let '(r, w) := provider_stream_complete provider messages (ext mw) in
    (r, {| ext := w;
           calls := calls mw ++ [CallStream (provider_type provider)] |}).

Definition complete_with_fallback (self : ProviderManager)
    (messages : list Message) (stream : bool)
    : M manager_world ChatCompletion :=
  match get_active_provider self with
  | None => raise (ValueError "No active provider configured")
  | Some active =>
      try_except (invoke_complete active messages stream)
        (fun e =>
           match get_fallback_provider self with
           | Some fallback => invoke_complete fallback messages stream
           | None => raise e
           end)
  end.

(** The chunks of the active stream are passed on as they come. When it
    raises, the handler streams the fallback after them, if there is one,
    and otherwise ends: the generator is then exhausted. *)
Definition stream_with_fallback (self : ProviderManager)
    (messages : list Message) : Gen manager_world :=
  fun mw =>
    match get_active_provider self with
    | None => (([], Some (ValueError "No active provider configured")), mw)
    | Some active =>
        match invoke_stream active messages mw with
        | ((chunks, None), mw') => ((chunks, None), mw')
        | ((chunks, Some e), mw') =>
            match get_fallback_provider self with
            | Some fallback =>
                let '((chunks', ending), mw'') :=
                  invoke_stream fallback messages mw' in
                ((chunks ++ chunks', ending), mw'')
            | None => ((chunks, None), mw')
            end
        end
    end.

End Manager.

Arguments AIProvider : clear implicits.
Arguments ProviderManager : clear implicits.
Arguments manager_world : clear implicits.

End Providers.

(** ** Concrete runs

    Inputs on which the definitions above are evaluated. *)

Module Scenarios.

Import Strategy.
Local Open Scope Z_scope.

(** A character table for runs on Basic Latin and CJK text: the CJK
    unified ideographs U+4E00..U+9FFF are alphanumeric. *)
Definition cjk_isalnum (c : codepoint) : bool := (19968 <=? c) && (c <=? 40959).

(** Stand-ins for the digest and for the rendering of the context. The
    digest is the byte string itself, so distinct contents get distinct
    keys, as they do with MD5 on any inputs one meets. *)
Definition plain_digest (bytes : list Z) : string :=
  String.string_of_list_ascii (map (fun b => ascii_of_N (Z.to_N b)) bytes).

Definition no_items (c : context_dict) : text := [].

(** The default matcher of the engine. *)
Definition matcher_call :=
  match_strategies (PatternMatcher_obj cjk_isalnum) plain_digest no_items.

(** "项目使用了 React 和 Node.js" *)
Definition react_text : text :=
  [39033; 30446; 20351; 29992; 20102; 32] ++ text_of_string "React" ++
  [32; 21644; 32] ++ text_of_string "Node.js".

(** Its UTF-8 encoding. *)
Definition react_bytes : list Z :=
  [233; 161; 185; 231; 155; 174; 228; 189; 191; 231; 148; 168; 228; 186; 134;
   32; 82; 101; 97; 99; 116; 32; 229; 146; 140; 32; 78; 111; 100; 101; 46;
   106; 115].

(** [UserPreferences(correction_enabled=False)] *)
Definition no_correction : UserPreferences :=
  {| preferred_language := "zh";
     correction_enabled := false;
     expansion_enabled := true;
     translation_enabled := true;
     summarization_enabled := true;
     auto_expand_shortcuts := true;
     strategy_priorities := ∅;
     learned_preferences := ∅ |}.

(** [UserPreferences(strategy_priorities={StrategyType.CORRECTION: 100})] *)
Definition correction_critical : UserPreferences :=
  {| preferred_language := "zh";
     correction_enabled := true;
     expansion_enabled := true;
     translation_enabled := true;
     summarization_enabled := true;
     auto_expand_shortcuts := true;
     strategy_priorities := {[ CORRECTION := 100 ]};
     learned_preferences := ∅ |}.



(** Transforms that append "!" and do something else for CORRECTION:
    [flaky] raises a [ValueError], [exiting] raises [SystemExit], and
    [unprintable] raises an exception whose [__str__] raises a
    [TypeError]. *)
Definition transform_with (r : raised) (t : text) (k : StrategyType)
    : unit -> (raised + text) * unit :=
  fun s =>
    match k with
    | CORRECTION => (inl r, s)
    | _ => (inr (t ++ [33]), s)
    end.

Definition flaky := transform_with (Printable (ValueError "no correction")).
Definition exiting := transform_with (NotException "SystemExit").
Definition unprintable :=
  transform_with (Unprintable (Exception "odd" []) (Printable TypeError)).

(** Calls of [match_strategies] one after the other, on the same matcher,
    without context; the results are dropped. *)
Fixpoint match_each (texts : list text) (preferences : option UserPreferences)
    (st : matcher_state) : matcher_state :=
  match texts with
  | [] => st
  | t :: texts' =>
      match_each texts' preferences (matcher_call t None preferences st).2
  end.

(** The decimal digits of a number, as text: "0", "1", ..., "10", ... *)
Definition digits_text (n : nat) : text :=
  text_of_string (pretty n).

(** [n] different texts. *)
Definition numbered_texts (n : nat) : list text := map digits_text (seq 0 n).

(** A chain in which CORRECTION depends on EXPANSION and EXPANSION on
    TRANSLATION. *)
Definition nested_chain : StrategyChain :=
  add_dependency EXPANSION TRANSLATION
    (add_dependency CORRECTION EXPANSION new_chain).

(** A chain in which CORRECTION is declared as its own dependency. *)
Definition self_chain : StrategyChain :=
  add_dependency CORRECTION CORRECTION new_chain.

Import Providers.

(** A provider whose calls read and change nothing and always raise. *)
Definition failing (k : ProviderType) (msg : string) : AIProvider unit :=
  {| provider_type := k;
     provider_complete := fun _ _ => raise (Exception msg []);
     provider_stream_complete := fun _ w => (([], Some (Exception msg [])), w) |}.

Definition hello : json := JStr (text_of_string "hello").

(** A provider that answers "hello". *)
Definition answering (k : ProviderType) : AIProvider unit :=
  {| provider_type := k;
     provider_complete := fun _ _ =>
       ret {| completion_content := hello; completion_model := "m";
              usage := None; raw_response := None |};
     provider_stream_complete := fun _ w =>
       (([text_of_string "hel"; text_of_string "lo"], None), w) |}.

(** A provider whose stream yields one chunk and then raises. *)
Definition breaking (k : ProviderType) : AIProvider unit :=
  {| provider_type := k;
     provider_complete := fun _ _ => raise (Exception "down" []);
     provider_stream_complete := fun _ w =>
       (([text_of_string "hel"], Some (Exception "connection lost" [])), w) |}.

(** The value a call returned, or [x] when it raised. *)
Definition returned {A : Type} (x : A) (r : outcome A) : A :=
  match r with
  | inr a => a
  | inl _ => x
  end.

(** A manager set up through its methods: [active] is registered and made
    the active provider; [fallback], when given, is registered and made the
    fallback. *)
Definition manager_of (active : AIProvider unit)
    (fallback : option (AIProvider unit)) : ProviderManager unit :=
  let m := register_provider active new_manager in
  let m := returned m (set_active_provider (provider_type active) m) in
  match fallback with
  | Some f =>
      let m := register_provider f m in
      returned m (set_fallback_provider (provider_type f) m)
  | None => m
  end.

(** Active and fallback both fail, each with its own error. *)
Definition both_failing : ProviderManager unit :=
  manager_of (failing OPENAI "active down")
             (Some (failing LOCAL "fallback down")).

Definition start : manager_world unit := {| ext := tt; calls := [] |}.

Definition test_config (k : ProviderType) (retries : Z) : ProviderConfig :=
  {| type := k; api_key := "test-key"; endpoint := None; model := None;
     max_tokens := 1000; temperature := (7 # 10)%Q; timeout := 30;
     retry_count := retries |}.

(** The body of a successful chat completion. *)
Definition ok_body : json :=
  JObj [("choices",
         JList [JObj [("message", JObj [("content", hello)])]])].

(** A server that answers 429 to the first [k] requests, with an empty
    JSON object as body, and 200 after that. *)
Definition busy_then_ok (k : nat) (n : nat) (r : Request) : http_result :=
  if decide (n < k)%nat then Response 429 (Some (JObj []))
  else Response 200 (Some ok_body).

(** A server that answers 429 with a body that is no JSON. *)
Definition busy_html (n : nat) (r : Request) : http_result :=
  Response 429 None.

Definition user_hello : list Message :=
  [{| role := USER; content := text_of_string "Hello" |}].

End Scenarios.

(** ** Character classes of the patterns, as predicates *)

Module Chars.

Local Open Scope Z_scope.

(** [[一-龥]] *)
Definition is_chinese (c : codepoint) : bool := (19968 <=? c) && (c <=? 40869).

(** [[a-zA-Z]] *)
Definition is_english (c : codepoint) : bool :=
  ((97 <=? c) && (c <=? 122)) || ((65 <=? c) && (c <=? 90)).

(** The answer of [detect_language] from what the text holds. *)
Definition language_of (has_chinese has_english : bool) : string :=
  if has_chinese && has_english then "mixed"
  else if has_chinese then "zh"
  else if has_english then "en"
  else "unknown".

End Chars.

(** ** The rest of the strategy engine *)

Module Engine.

Import Strategy.
Local Open Scope py_scope.

Section Engine.

Variable pm : pattern_matcher.
Variable md5_hexdigest : list Z -> string.
Variable str_sorted_items : context_dict -> text.

(** [get_best_strategy]: the call passes no preferences; the result is
    [matches[0] if matches else None]. *)
Definition get_best_strategy (t : text) (context : option context_dict)
    : M matcher_state (option loc) :=
  let* matches :=
    match_strategies pm md5_hexdigest str_sorted_items t context None in
  ret (head matches).

(** [StrategyEngine]: its matcher (the pattern matcher is the parameter
    [pm]), its chain builder and the two preference slots. *)
Record StrategyEngine : Type := {
  matcher : matcher_state;
  chain_builder : StrategyChain;
  _default_preferences : UserPreferences;
  _preferences : option UserPreferences;
}.

(** [StrategyEngine()] *)
Definition new_engine : StrategyEngine :=
  {| matcher := init_state;
     chain_builder := new_chain;
     _default_preferences := default_preferences;
     _preferences := None |}.

Definition set_preferences (preferences : UserPreferences)
    (self : StrategyEngine) : StrategyEngine :=
  {| matcher := matcher self;
     chain_builder := chain_builder self;
     _default_preferences := _default_preferences self;
     _preferences := Some preferences |}.

(** [self._preferences or self._default_preferences] *)
Definition get_preferences (self : StrategyEngine) : UserPreferences :=
  match _preferences self with
  | Some p => p
  | None => _default_preferences self
  end.

(** A call on [self.matcher]. *)
Definition on_matcher {A : Type} (m : M matcher_state A)
    : M StrategyEngine A :=
  fun self =>
    let '(r, st) := m (matcher self) in
    (r, {| matcher := st;
           chain_builder := chain_builder self;
           _default_preferences := _default_preferences self;
           _preferences := _preferences self |}).

(** [StrategyEngine.match] *)
Definition engine_match (t : text) (context : option context_dict)
    : M StrategyEngine (list loc) :=
  fun self =>
    on_matcher
      (match_strategies pm md5_hexdigest str_sorted_items t context
         (Some (get_preferences self))) self.

Definition select_strategy (t : text) (context : option context_dict)
    : M StrategyEngine (option loc) :=
  on_matcher (get_best_strategy t context).

(** The chain built from the objects a list of locations names. *)
Definition chain_of (self : StrategyEngine) (matches : list loc)
    : list StrategyType :=
  build_chain (chain_builder self) (deref (store (matcher self)) matches).

Definition build_execution_chain (t : text) (context : option context_dict)
    : M StrategyEngine (list StrategyType) :=
  fun self =>
    match engine_match t context self with
    | (inr matches, self') => (inr (chain_of self' matches), self')
    | (inl e, self') => (inl e, self')
    end.

(** [process]: match, build the chain, run it; the state is the engine and
    the state of the transform. The exceptions of [match] are instances of
    [Exception] that [str] renders. *)
Definition process {S : Type}
    (processor : text -> StrategyType -> S -> (raised + text) * S)
    (t : text) (context : option context_dict)
    : StrategyEngine * S
      -> (raised + (text * list loc)) * (StrategyEngine * S) :=
  fun es =>
    match engine_match t context es.1 with
    | (inl e, self') => (inl (Printable e), (self', es.2))
    | (inr matches, self') =>
        match execute_chain processor t (chain_of self' matches) es.2 with
        | (inr result, s') => (inr (result, matches), (self', s'))
        | (inl r, s') => (inl r, (self', s'))
        end
    end.

End Engine.

(** *** Vocabulary of the statements below *)

(** The kinds [match_strategies] creates objects of. *)
Definition matchable (k : StrategyType) : Prop :=
  k = CORRECTION \/ k = TRANSLATION \/ k = EXPANSION \/ k = CUSTOM.

(** A matcher state as the calls leave it: the cache lists allocated
    objects only, and every object is of a kind the matcher creates. *)
Record matcher_wf (st : matcher_state) : Prop := {
  wf_cache : forall key ls l,
    (key, ls) ∈ _match_cache st -> l ∈ ls -> (l < length (store st))%nat;
  wf_kinds : forall l m, store st !! l = Some m -> matchable (strategy_type m);
}.

(** Every priority override of the preferences is 0, which counts as none,
    or the value of a member of [StrategyPriority]. *)
Definition overrides_valid (preferences : UserPreferences) : Prop :=
  forall k v, strategy_priorities preferences !! k = Some v ->
    (v = 0 \/ v = 1 \/ v = 5 \/ v = 10 \/ v = 100)%Z.

(** The match [get_best_strategy] settles on when it misses the cache:
    without preferences no translation or expansion match is made, so the
    choice is among code, typo, e-mail tone and chat tone, in that
    order. *)
Definition best_without_preferences (pm : pattern_matcher) (t : text)
    : option StrategyMatch :=
  if pm_detect_code pm t then Some code_match
  else if pm_detect_typos pm t then Some typo_match
  else if pm_detect_email_context pm t then Some email_match
  else if pm_detect_chat_context pm t then Some chat_match
  else None.

(** The matches of [l] by descending priority, those of one priority in
    the order they have in [l]. *)
Definition by_rank (l : list StrategyMatch) : list StrategyMatch :=
  filter (fun m => priority m = CRITICAL) l
  ++ filter (fun m => priority m = HIGH) l
  ++ filter (fun m => priority m = MEDIUM) l
  ++ filter (fun m => priority m = LOW) l.

(** The first occurrence of every element, in order. *)
Fixpoint first_occurrences (l : list StrategyType) : list StrategyType :=
  match l with
  | [] => []
  | x :: l' => x :: filter (fun y => y <> x) (first_occurrences l')
  end.

(** Every element of [l] is related to all the elements after it. *)
Fixpoint ranked {A : Type} (R : A -> A -> Prop) (l : list A) : Prop :=
  match l with
  | [] => True
  | x :: l' => Forall (R x) l' /\ ranked R l'
  end.

(** [a] does not rank below [b]: a higher priority value, or the same
    priority value and a confidence that is not smaller. *)
Definition ranks_no_lower (a b : StrategyMatch) : Prop :=
  (priority_value (priority b) < priority_value (priority a))%Z
  \/ (priority_value (priority a) = priority_value (priority b)
      /\ (confidence b <= confidence a)%Q).

End Engine.

(** ** The rest of the providers *)

Module Streaming.

Import Providers.
Local Open Scope Z_scope.
Local Open Scope py_scope.

(** [create_provider]: the class for the type of the configuration. *)
Definition create_provider (config : ProviderConfig) : outcome variant :=
  match type config with
  | OPENAI => inr OpenAIProvider
  | ANTHROPIC => inr AnthropicProvider
  | LOCAL => inr LocalProvider
  | CUSTOM => inl (ValueError "Unknown provider type")
  end.

(** [bool(v)] for a decoded JSON value. *)
Definition truthy (v : json) : bool :=
  match v with
  | JNull => false
  | JBool b => b
  | JInt n => negb (n =? 0)
  | JFloat q => negb (Qeq_bool q 0)
  | JStr s => negb (bool_decide (s = []))
  | JList l => negb (bool_decide (length l = 0%nat))
  | JObj fields => negb (bool_decide (length fields = 0%nat))
  end.

(** [line.startswith(prefix)] *)
Fixpoint startswith (prefix line : text) : bool :=
  match prefix, line with
  | [], _ => true
  | p :: prefix', c :: line' => (c =? p) && startswith prefix' line'
  | _ :: _, [] => false
  end.

(** [chunk["choices"][0]["delta"].get("content", "")] *)
Definition delta_content (chunk : json) : outcome json :=
  obind (getitem chunk "choices") (fun v =>
  obind (getitem0 v) (fun v =>
  obind (getitem v "delta") (fun delta =>
  get_method delta "content" (JStr [])))).

Section Streams.

Variable network : nat -> Request -> http_result.

(** [json.loads]; [None] when it raises [JSONDecodeError]. *)
Variable json_loads : text -> option json.

(** The lines of the response to the [n]-th request, read as a stream, and
    how reading ends: [None] at the end of the response, [Some e] when
    opening the stream or reading a line raises [e]. *)
Variable stream_network : nat -> Request -> list text * option exn.

(** The loop over [response.aiter_lines()]: what the generator yields and
    how it ends. Only [JSONDecodeError] is caught; an exception while
    reading the content of a decoded chunk ends the generator. *)
Fixpoint sse_loop (lines : list text) (ending : option exn)
    : list json * option exn :=
  match lines with
  | [] => ([], ending)
  | line :: rest =>
      if startswith (text_of_string "data: ") line then
        let data := drop 6 line in
        if decide (data = text_of_string "[DONE]") then ([], None)
        else
          match json_loads data with
          | None => sse_loop rest ending
          | Some chunk =>
              match delta_content chunk with
              | inl e => ([], Some e)
              | inr content =>
                  if truthy content then
                    let '(chunks, ending') := sse_loop rest ending in
                    (content :: chunks, ending')
                  else sse_loop rest ending
              end
          end
      else sse_loop rest ending
  end.

Section Variant.

Variable v : variant.
Variable config : ProviderConfig.

(** [stream_complete]: one streamed POST, no retry. The status code of the
    response is not looked at. *)
Definition stream_complete (messages : list Message)
    : world -> (list json * option exn) * world :=
  fun w =>
    let req := request v config messages true in
    let '(lines, ending) := stream_network (http_calls w) req in
    (sse_loop lines ending,
     {| http_calls := S (http_calls w); trace := trace w ++ [EvPost req] |}).

Definition test_request : Request :=
  {| url := base_url v config +:+ path v;
     headers := make_headers v config;
     payload :=
       JObj [("model", JStr (text_of_string (model_name v config)));
             ("messages",
              JList [JObj [("role", JStr (text_of_string "user"));
                           ("content", JStr (text_of_string "Hello"))]]);
             ("max_tokens", JInt 5)];
     request_timeout := 10 |}.

(** [test_connection]: [True] when the status is 200; [False] on any other
    status and on any exception. *)
Definition test_connection : M world bool :=
  try_except
    (let* r := post network test_request in
     match r with
     | Response status_code _ => ret (bool_decide (status_code = 200))
     | Raises e => raise e
     end)
    (fun _ => ret false).

End Variant.

End Streams.

(** *** Vocabulary of the statements below *)

(** The events of [k] attempts that timed out and were retried: a request,
    then a sleep of one second. *)
Fixpoint timeout_trace (req : Request) (k : nat) : list event :=
  match k with
  | O => []
  | S k' => EvPost req :: EvSleep 1 :: timeout_trace req k'
  end.

(** A server-sent line that carries [data]. *)
Definition data_line (data : text) : text := text_of_string "data: " ++ data.

(** A line that carries a chunk whose delta holds [content]. *)
Definition carries (json_loads : text -> option json) (data : text)
    (content : json) : Prop :=
  data <> text_of_string "[DONE]"
  /\ exists chunk, json_loads data = Some chunk
                   /\ delta_content chunk = inr content.

(** The three provider classes. *)
Definition known_variant (v : variant) : Prop :=
  v = OpenAIProvider \/ v = AnthropicProvider \/ v = LocalProvider.

(** A line the loop passes over: it is no data line, or its data is no
    JSON, or the content of its chunk is empty (or absent). *)
Definition ignored (json_loads : text -> option json) (line : text) : Prop :=
  startswith (text_of_string "data: ") line = false
  \/ (drop 6 line <> text_of_string "[DONE]"
      /\ (json_loads (drop 6 line) = None
          \/ exists chunk content,
               json_loads (drop 6 line) = Some chunk
               /\ delta_content chunk = inr content
               /\ truthy content = false)).

(** The managers the methods of [ProviderManager] build. *)
Inductive configured {W : Type} : ProviderManager W -> Prop :=
| configured_new : configured new_manager
| configured_register p self :
    configured self -> configured (register_provider p self)
| configured_active k self self' :
    configured self -> set_active_provider k self = inr self' ->
    configured self'
| configured_fallback k self self' :
    configured self -> set_fallback_provider k self = inr self' ->
    configured self'.

End Streaming.

(** ** Text processing *)

Module TextProcessor.

Import Re Providers.
Local Open Scope Z_scope.
Local Open Scope py_scope.

Record ProcessingResult : Type := {
  original_text : text;
  processed_text : text;
  processing_type : string;
  confidence : Q;
  metadata : option (list (string * json));
}.

(** The default prompts, up to the place of the text. *)

(** "请纠正以下文本中的语法、拼写或标点错误。只返回纠正后的文本，不需要解释：" and two
    line feeds *)
Definition correction_zh : text :=
  [35831; 32416; 27491; 20197; 19979; 25991; 26412; 20013; 30340; 35821;
   27861; 12289; 25340; 20889; 25110; 26631; 28857; 38169; 35823; 12290;
   21482; 36820; 22238; 32416; 27491; 21518; 30340; 25991; 26412; 65292;
   19981; 38656; 35201; 35299; 37322; 65306; 10; 10].

Definition correction_en : text :=
  text_of_string
    "Correct any grammar, spelling, or punctuation errors in the following text. Only return the corrected text, no explanations:"
  ++ [10; 10].

Definition translation_zh_en : text :=
  text_of_string
    "Translate the following text from Chinese to English. Only return the translated text:"
  ++ [10; 10].

Definition translation_en_zh : text :=
  text_of_string
    "Translate the following text from English to Chinese. Only return the translated text:"
  ++ [10; 10].

Definition translation_default (target_lang : string) : text :=
  text_of_string "Translate the following text to "
  ++ text_of_string target_lang
  ++ text_of_string ". Only return the translated text:" ++ [10; 10].

(** "[请先配置 AI 提供商]" *)
Definition not_configured : text :=
  [91; 35831; 20808; 37197; 32622; 32; 65; 73; 32; 25552; 20379; 21830; 93].

(** "[纠错失败: ", "[扩写失败: ", "[翻译失败: ", "[摘要生成失败: " *)
Definition correction_failed : text := [91; 32416; 38169; 22833; 36133; 58; 32].
Definition expansion_failed : text := [91; 25193; 20889; 22833; 36133; 58; 32].
Definition translation_failed : text := [91; 32763; 35793; 22833; 36133; 58; 32].
Definition summarization_failed : text :=
  [91; 25688; 35201; 29983; 25104; 22833; 36133; 58; 32].

Section TextProcessor.

(** The state the providers act on. *)
Context {W : Type}.

Variable uni_isalnum : codepoint -> bool.

(** [str.strip()], [str(e)] for an exception and the formatting of a float
    come from the interpreter's library. *)
Variable str_strip : text -> text.
Variable exn_str : exn -> text.
Variable float_format : Q -> text.

Record TextProcessor : Type := {
  provider_manager : ProviderManager W;
}.

Definition _detect_language (t : text) : string :=
  let has_chinese :=
    re_search uni_isalnum false (Atom (Range 19968 40869)) t in
  let has_english :=
    re_search uni_isalnum false (Atom (Or (Range 97 122) (Range 65 90))) t in
  if has_chinese && has_english then "mixed"
  else if has_chinese then "zh"
  else if has_english then "en"
  else "unknown".

(** [result.content.strip()]: only a [str] has the method. *)
Definition content_strip (v : json) : outcome text :=
  match v with
  | JStr s => inr (str_strip s)
  | _ => inl AttributeError
  end.

Definition json_of_option (v : option json) : json :=
  match v with
  | Some x => x
  | None => JNull
  end.

(** What the four methods do once the prompt is built: without an active
    provider the placeholder is returned; otherwise the provider is asked,
    and any exception of the call or of reading the answer gives the
    failure text with confidence 0.0. *)
Definition ask (self : TextProcessor) (t prompt : text) (kind : string)
    (failed : text) (confident : Q)
    (meta : ChatCompletion -> list (string * json))
    : M W ProcessingResult :=
  match get_active_provider (provider_manager self) with
  | None =>
      ret {| original_text := t; processed_text := not_configured;
             processing_type := kind; confidence := 0; metadata := None |}
  | Some provider =>
      try_except
        (let* result :=
           provider_complete provider
             [{| role := USER; content := prompt |}] false in
         let* stripped := lift (content_strip (completion_content result)) in
         ret {| original_text := t; processed_text := stripped;
                processing_type := kind; confidence := confident;
                metadata := Some (meta result) |})
        (fun e =>
           ret {| original_text := t;
                  processed_text := failed ++ exn_str e ++ [93];
                  processing_type := kind; confidence := 0;
                  metadata := None |})
  end.

Definition correct (self : TextProcessor) (t : text) (language : string)
    : M W ProcessingResult :=
  let lang :=
    if decide (language = "auto") then _detect_language t else language in
  let prompt_template :=
    if decide (lang = "zh") then correction_zh else correction_en in
  ask self t (prompt_template ++ t) "correction" correction_failed (9 # 10)
    (fun result =>
       [("model", JStr (text_of_string (completion_model result)));
        ("usage", json_of_option (usage result))]).

Definition expand (self : TextProcessor) (t : text) (ratio : Q)
    (preserve_style : bool) : M W ProcessingResult :=
  let prompt :=
    text_of_string "Expand the following text by approximately "
    ++ float_format ratio
    ++ text_of_string
         "x, maintaining the original meaning and style. Only return the expanded text:"
    ++ [10; 10] ++ t in
  let prompt :=
    if preserve_style then
      prompt ++ [10]
      ++ text_of_string "Maintain the original writing style and tone."
    else prompt in
  ask self t prompt "expansion" expansion_failed (85 # 100)
    (fun result =>
       [("model", JStr (text_of_string (completion_model result)));
        ("ratio", JFloat ratio)]).

Definition translate (self : TextProcessor) (t : text) (direction : string)
    : M W ProcessingResult :=
  let target_lang :=
    if decide (direction = "zh-en") then "English" else "Chinese" in
  let prompt :=
    (if decide (direction = "zh-en") then translation_zh_en
     else if decide (direction = "en-zh") then translation_en_zh
     else translation_default target_lang) ++ t in
  ask self t prompt "translation" translation_failed (9 # 10)
    (fun result =>
       [("direction", JStr (text_of_string direction));
        ("model", JStr (text_of_string (completion_model result)))]).

Definition summarize (self : TextProcessor) (t : text) (target_length : Z)
    (method : string) : M W ProcessingResult :=
  let prompt :=
    text_of_string "Summarize the following text to approximately "
    ++ text_of_string (pretty target_length)
    ++ text_of_string " words, preserving key information:"
    ++ [10; 10] ++ t in
  let prompt :=
    if decide (method = "extractive") then
      prompt ++ [10]
      ++ text_of_string
           "Use extractive summarization, preserving original sentences where possible."
    else prompt in
  ask self t prompt "summarization" summarization_failed (85 # 100)
    (fun result =>
       [("target_length", JInt target_length);
        ("method", JStr (text_of_string method))]).

(** *** [TextProcessingPipeline] *)

Record TextProcessingPipeline : Type := {
  processor : TextProcessor;
  _steps : list string;
}.

Definition new_pipeline (processor : TextProcessor)
    : TextProcessingPipeline :=
  {| processor := processor; _steps := [] |}.

Definition add_step (step : string) (self : TextProcessingPipeline)
    : TextProcessingPipeline :=
  {| processor := processor self; _steps := _steps self ++ [step] |}.

(** The call a step name stands for, with the defaults of the method;
    [None] for a name that is skipped. *)
Definition step_call (self : TextProcessingPipeline) (step : string)
    (current_text : text) : option (M W ProcessingResult) :=
  if decide (step = "correct") then
    Some (correct (processor self) current_text "auto")
  else if decide (step = "expand") then
    Some (expand (processor self) current_text 2 true)
  else if decide (step = "translate") then
    Some (translate (processor self) current_text "zh-en")
  else if decide (step = "summarize") then
    Some (summarize (processor self) current_text 100 "abstractive")
  else None.

(** [result.confidence > 0.5] *)
Definition confident (r : ProcessingResult) : bool :=
  negb (Qle_bool (confidence r) (1 # 2)).

(** The loop of [execute] over the steps that are left. *)
Fixpoint execute_from (self : TextProcessingPipeline) (steps : list string)
    (results : list ProcessingResult) (current_text : text)
    : M W (list ProcessingResult) :=
  match steps with
  | [] => ret results
  | step :: steps' =>
      match step_call self step current_text with
      | None => execute_from self steps' results current_text
      | Some call =>
          let* result := call in
          execute_from self steps' (results ++ [result])
            (if confident result then processed_text result
             else current_text)
      end
  end.

(** [context] is not used. *)
Definition execute (self : TextProcessingPipeline) (t : text)
    (context : option (gmap string string))
    : M W (list ProcessingResult) :=
  execute_from self (_steps self) [] t.

End TextProcessor.

Arguments TextProcessor : clear implicits.
Arguments TextProcessingPipeline : clear implicits.

(** *** Vocabulary of the statements below *)

(** The [processing_type] of the result of a step; [None] for a name that
    is skipped. *)
Definition step_kind (step : string) : option string :=
  if decide (step = "correct") then Some "correction"
  else if decide (step = "expand") then Some "expansion"
  else if decide (step = "translate") then Some "translation"
  else if decide (step = "summarize") then Some "summarization"
  else None.

(** The text that goes into the next step after the results [results],
    from the text [t]: the processed text of the last result with a
    confidence above 0.5. *)
Definition current_after (t : text) (results : list ProcessingResult)
    : text :=
  foldl (fun current r => if confident r then processed_text r else current)
        t results.

(** The result of a step when no provider is active. *)
Definition placeholder (t : text) (kind : string) : ProcessingResult :=
  {| original_text := t; processed_text := not_configured;
     processing_type := kind; confidence := 0; metadata := None |}.

(** What a call of one of the four methods on the text [t] comes to. It
    returns a result for [t] of the kind of the method. Without an active
    provider the result is the placeholder and nothing is called.
    Otherwise the active provider is asked once, with one user message and
    no streaming. When it returns a completion whose content is a string,
    the result has the confidence [confident_value] of the method and the
    processed text is that string, stripped. When it raises, or returns a
    content that is no string (reading it raises [AttributeError]), the
    result has the confidence 0, no metadata, and the text [failed],
    the exception as [str] renders it, and "]". *)
Definition answers {W : Type} (str_strip : text -> text)
    (exn_str : exn -> text) (self : TextProcessor W) (t : text)
    (kind : string) (confident_value : Q) (failed : text)
    (m : M W ProcessingResult) : Prop :=
  forall w, exists r w',
    m w = (inr r, w')
    /\ original_text r = t
    /\ processing_type r = kind
    /\ match get_active_provider (provider_manager self) with
       | None => w' = w /\ r = placeholder t kind
       | Some provider =>
           exists prompt,
             let run :=
               provider_complete provider
                 [{| role := USER; content := prompt |}] false w in
             let failure e :=
               confidence r = 0%Q /\ metadata r = None
               /\ processed_text r = failed ++ exn_str e ++ [93] in
             w' = run.2
             /\ match run.1 with
                | inr c =>
                    match completion_content c with
                    | JStr s =>
                        confidence r = confident_value
                        /\ processed_text r = str_strip s
                    | _ => failure AttributeError
                    end
                | inl e => failure e
                end
       end.

End TextProcessor.

(** ** More concrete runs *)

Module Runs.

Import Strategy Scenarios Engine.
Local Open Scope Z_scope.

Definition teh : text := text_of_string "teh".

(** The matcher after a first call on "teh" with the default
    preferences. *)
Definition warmed : matcher_state :=
  (matcher_call teh None (Some default_preferences) init_state).2.

(** [UserPreferences(strategy_priorities={StrategyType.CORRECTION: 7})] *)
Definition correction_seven : UserPreferences :=
  {| preferred_language := "zh";
     correction_enabled := true;
     expansion_enabled := true;
     translation_enabled := true;
     summarization_enabled := true;
     auto_expand_shortcuts := true;
     strategy_priorities := {[ CORRECTION := 7 ]};
     learned_preferences := ∅ |}.

(** Preferences with another language, no shortcuts and one learned
    value. *)
Definition learned : UserPreferences :=
  {| preferred_language := "en";
     correction_enabled := true;
     expansion_enabled := true;
     translation_enabled := true;
     summarization_enabled := true;
     auto_expand_shortcuts := false;
     strategy_priorities := ∅;
     learned_preferences := {[ "teh_correction" := (6 # 10)%Q ]} |}.

(** A hundred times "a", then one more character. *)
Definition long_text (c : codepoint) : text := replicate 100 97 ++ [c].

(** The engine on the default matcher. *)
Definition engine_select :=
  select_strategy (PatternMatcher_obj cjk_isalnum) plain_digest no_items.
Definition engine_call :=
  engine_match (PatternMatcher_obj cjk_isalnum) plain_digest no_items.

(** A transform that appends "!". *)
Definition shouting (t : text) (k : StrategyType)
    : unit -> (raised + text) * unit :=
  fun s => (inr (t ++ [33]), s).

Import Providers Streaming.

(** A server that times out on the first [k] requests and answers 200
    after that. *)
Definition slow_then_ok (k : nat) (n : nat) (r : Request) : http_result :=
  if decide (n < k)%nat then Raises TimeoutException
  else Response 200 (Some ok_body).

(** A server that always answers 503 with an error message. *)
Definition unavailable (n : nat) (r : Request) : http_result :=
  Response 503
    (Some (JObj [("error",
                  JObj [("message", JStr (text_of_string "overloaded"))])])).

(** The chunk of a stream that carries [content]. *)
Definition chunk_of (content : json) : json :=
  JObj [("choices", JList [JObj [("delta", JObj [("content", content)])]])].

(** A decoder for the lines of the runs below: "{}" is the empty object,
    "-" is no JSON, and any other data is a chunk that carries the data
    itself as content. *)
Definition word_loads (data : text) : option json :=
  if decide (data = text_of_string "{}") then Some (JObj [])
  else if decide (data = text_of_string "-") then None
  else Some (chunk_of (JStr data)).

(** A stream of two chunks, the end mark and one more line; reading the
    response then fails. *)
Definition two_chunks (n : nat) (r : Request) : list text * option exn :=
  ([data_line (text_of_string "hel"); data_line (text_of_string "lo");
    data_line (text_of_string "[DONE]"); data_line (text_of_string "x")],
   Some TimeoutException).

Definition both_answering : ProviderManager unit :=
  manager_of (breaking OPENAI) (Some (answering LOCAL)).

Import TextProcessor.

(** Stand-ins for [str.strip], [str(e)] and the formatting of a float. *)
Definition plain_strip (t : text) : text := t.
Definition no_message (e : exn) : text := [].
Definition two_point_zero (q : Q) : text := text_of_string "2.0".

(** A pipeline on a manager without providers, with one step name that is
    not known. *)
Definition idle_pipeline : TextProcessingPipeline unit :=
  add_step "translate"
    (add_step "shout"
       (add_step "correct"
          (new_pipeline {| provider_manager := new_manager |}))).

End Runs.

(** * Facts about the strategy engine *)

Module StrategyFacts.

Import Strategy Scenarios.

(** ** [_apply_preferences] *)


Lemma disabled_by_set_priority prefs p m :
  disabled_by prefs (set_priority p m) = disabled_by prefs m.
Proof. reflexivity. Qed.

Lemma override_of_set_priority prefs p m :
  override_of prefs (set_priority p m) = override_of prefs m.
Proof. reflexivity. Qed.

Lemma applied_type prefs m : strategy_type (applied prefs m) = strategy_type m.
Proof.
  unfold applied. destruct (disabled_by prefs m); [done|].
  destruct (override_of prefs m) as [v|]; [|done].
  by destruct (StrategyPriority_of_value v).
Qed.

Lemma applied_disabled prefs m :
  disabled_by prefs (applied prefs m) = disabled_by prefs m.
Proof. unfold disabled_by. by rewrite applied_type. Qed.

Lemma applied_idemp prefs m : applied prefs (applied prefs m) = applied prefs m.
Proof.
  unfold applied at 2. destruct (disabled_by prefs m) eqn:Hd.
  - unfold applied. by rewrite Hd.
  - destruct (override_of prefs m) as [v|] eqn:Ho.
    + destruct (StrategyPriority_of_value v) as [e|p] eqn:Hp.
      * unfold applied. by rewrite Hd, Ho, Hp.
      * unfold applied.
        by rewrite disabled_by_set_priority, override_of_set_priority,
          Hd, Ho, Hp.
    + unfold applied. by rewrite Hd, Ho.
Qed.

Lemma kept_insert_applied prefs s l0 m0 l :
  s !! l0 = Some m0 ->
  kept prefs (<[l0 := applied prefs m0]> s) l = kept prefs s l.
Proof.
  intros H0. unfold kept.
  destruct (decide (l = l0)) as [->|Hne].
  - rewrite list_lookup_insert_eq by (by eapply lookup_lt_Some).
    by rewrite H0, applied_disabled.
  - by rewrite list_lookup_insert_ne.
Qed.

(** One turn of the loop that ends well: the object is rewritten to what
    the preferences make of it, and is kept unless its kind is off. *)
Lemma apply_loop_step prefs l0 rest result s res s' :
  apply_loop prefs (l0 :: rest) result s = (inr res, s') ->
  exists m0,
    s !! l0 = Some m0
    /\ override_ok prefs m0
    /\ apply_loop prefs rest
         (result ++ if kept prefs s l0 then [l0] else [])
         (<[l0 := applied prefs m0]> s) = (inr res, s').
Proof.
  cbn [apply_loop]. unfold kept, applied, override_ok, override_of.
  destruct (s !! l0) as [m0|] eqn:H0; [|discriminate].
  intros Hrun. exists m0. split; [done|].
  destruct (disabled_by prefs m0) eqn:Hd; simpl.
  { split; [discriminate|]. by rewrite app_nil_r, list_insert_id. }
  destruct (strategy_priorities prefs !! strategy_type m0) as [v|]; simpl.
  - destruct (decide (v = 0%Z)).
    + split; [discriminate|]. by rewrite list_insert_id.
    + destruct (StrategyPriority_of_value v) as [e|p] eqn:Hp; [discriminate|].
      split; [|done]. intros _ v' [= <-]. by exists p.
  - split; [discriminate|]. by rewrite list_insert_id.
Qed.

(** A run of the loop that returns: the result is the kept locations in
    order; every listed object has become what the preferences make of it;
    the other objects are as they were. *)
Lemma apply_loop_ok prefs matches : forall result s res s',
  apply_loop prefs matches result s = (inr res, s') ->
  res = result ++ filter (fun l => kept prefs s l = true) matches
  /\ (forall l m, l ∈ matches -> s !! l = Some m -> override_ok prefs m)
  /\ (forall l, l ∈ matches -> is_Some (s !! l)
                               /\ s' !! l = applied prefs <$> s !! l)
  /\ (forall l, l ∉ matches -> s' !! l = s !! l).
Proof.
  induction matches as [|l0 rest IH]; intros result s res s' Hrun.
  - cbn in Hrun. injection Hrun as <- <-. rewrite app_nil_r.
    repeat split; intros; set_solver.
  - apply apply_loop_step in Hrun as (m0 & H0 & Hok & Hrun).
    apply IH in Hrun as (Hres & Hval & Hin & Hout).
    assert (Hlk : forall l, <[l0 := applied prefs m0]> s !! l
                  = if decide (l = l0) then Some (applied prefs m0) else s !! l).
    { intros l. case_decide as Hl.
      - subst. by rewrite list_lookup_insert_eq by (by eapply lookup_lt_Some).
      - by rewrite list_lookup_insert_ne. }
    split.
    { rewrite Hres, filter_cons, <- app_assoc. f_equal.
      destruct (kept prefs s l0) eqn:Hk.
      - rewrite decide_True by done. simpl. f_equal.
        apply list_filter_iff. intros l. by rewrite kept_insert_applied.
      - rewrite decide_False by done. simpl.
        apply list_filter_iff. intros l. by rewrite kept_insert_applied. }
    split.
    { intros l m Hl Hm. destruct (decide (l = l0)) as [->|Hne].
      - by replace m with m0 by congruence.
      - apply elem_of_cons in Hl as [?|Hl]; [done|].
        apply (Hval l m Hl). by rewrite Hlk, decide_False. }
    split.
    { intros l Hl. destruct (decide (l = l0)) as [->|Hne].
      - rewrite H0. split; [by eexists|].
        destruct (decide (l0 ∈ rest)) as [Hr|Hr].
        + destruct (Hin _ Hr) as [_ ->]. rewrite Hlk, decide_True by done.
          simpl. by rewrite applied_idemp.
        + rewrite (Hout _ Hr), Hlk. by rewrite decide_True.
      - apply elem_of_cons in Hl as [?|Hl]; [done|].
        destruct (Hin _ Hl) as [Hs ->].
        rewrite Hlk, decide_False in Hs |- * by done. done. }
    intros l Hl. apply not_elem_of_cons in Hl as [Hne Hl].
    rewrite (Hout _ Hl), Hlk. by rewrite decide_False.
Qed.

(** ** The cache *)

Lemma dict_set_absent {V} (d : list (string * V)) k v :
  dict_get d k = None -> dict_set d k v = d ++ [(k, v)].
Proof.
  induction d as [|[k' v'] d IH]; simpl; [done|].
  case_decide; [done|]. intros H'. by rewrite IH.
Qed.

Lemma dict_get_set {V} (d : list (string * V)) k v :
  dict_get (dict_set d k v) k = Some v.
Proof.
  induction d as [|[k' v'] d IH]; simpl.
  - by rewrite decide_True.
  - case_decide as Hk; simpl.
    + by rewrite decide_True.
    + by rewrite decide_False.
Qed.

Section MatcherFacts.

Variable pm : pattern_matcher.
Variable md5_hexdigest : list Z -> string.
Variable str_sorted_items : context_dict -> text.

Abbreviation match_call :=
  (match_strategies pm md5_hexdigest str_sorted_items).
Abbreviation cache_key_of :=
  (_generate_cache_key md5_hexdigest str_sorted_items).

(** A call that hits the cache without preferences reads the entry and
    changes nothing. *)
Lemma hit_without_preferences t context st key cached :
  cache_key_of t context = inr key ->
  dict_get (_match_cache st) key = Some cached ->
  match_call t context None st = (inr cached, st).
Proof. intros Hk Hc. unfold match_strategies. by rewrite Hk, Hc. Qed.

Lemma hit_with_preferences t context prefs st key cached :
  cache_key_of t context = inr key ->
  dict_get (_match_cache st) key = Some cached ->
  match_call t context (Some prefs) st
  = ((apply_loop prefs cached [] (store st)).1,
     set_store (apply_loop prefs cached [] (store st)).2 st).
Proof.
  intros Hk Hc. unfold match_strategies, _apply_preferences. rewrite Hk, Hc.
  by destruct (apply_loop prefs cached [] (store st)).
Qed.

(** The cache after [_finalize_matches] on a key that is not in it: the new
    entry goes last, after the first entry has been dropped when the cache
    held more than [_cache_size] entries. The entry dropped is the one
    inserted first. *)
Lemma finalize_cache matches key preferences st :
  dict_get (_match_cache st) key = None ->
  _match_cache (_finalize_matches matches key preferences st).2
  = (if decide (_cache_size < length (_match_cache st))
     then tail (_match_cache st) else _match_cache st)
    ++ [(key, sort_desc (key_at (store st)) key_lt matches)].
Proof.
  intros Hmiss. unfold _finalize_matches. simpl.
  destruct (_match_cache st) as [|[k0 v0] cache] eqn:Hc.
  - by case_decide.
  - case_decide.
    + simpl. rewrite decide_True by done.
      apply dict_set_absent. simpl in Hmiss. by case_decide.
    + by apply dict_set_absent.
Qed.

Lemma classify_cache t preferences st :
  _match_cache (classify pm t preferences st).2 = _match_cache st.
Proof.
  unfold classify.
  destruct (pm_detect_translation_candidate pm t) as [is_translation direction].
  unfold append_if.
  repeat match goal with
         | |- context [if ?b then _ else _] => destruct b; simpl
         end; done.
Qed.

(** What a call does to the cache: nothing, or one insertion at the end,
    after at most one eviction at the front. *)
Lemma match_strategies_cache t context preferences st :
  let cache := _match_cache st in
  let cache' := _match_cache (match_call t context preferences st).2 in
  cache' = cache
  \/ exists key matches,
       cache_key_of t context = inr key
       /\ dict_get cache key = None
       /\ cache' = (if decide (_cache_size < length cache)
                    then tail cache else cache) ++ [(key, matches)].
Proof.
  simpl. unfold match_strategies.
  destruct (cache_key_of t context) as [e|key] eqn:Hk; [by left|].
  destruct (dict_get (_match_cache st) key) as [cached|] eqn:Hc.
  - left. destruct preferences as [p|]; [|done].
    unfold _apply_preferences. by destruct (apply_loop p cached [] (store st)).
  - right. exists key.
    destruct (pm_detect_code pm t).
    + destruct (alloc code_match st) as [l st1] eqn:Ha.
      assert (Hc1 : _match_cache st1 = _match_cache st)
        by (by injection Ha as <- <-).
      eexists. split; [done|]. split; [done|].
      rewrite finalize_cache by (by rewrite Hc1). by rewrite Hc1.
    + destruct (classify pm t preferences st) as [matches st1] eqn:Hcl.
      assert (Hc1 : _match_cache st1 = _match_cache st).
      { replace st1 with (classify pm t preferences st).2 by (by rewrite Hcl).
        apply classify_cache. }
      eexists. split; [done|]. split; [done|].
      rewrite finalize_cache by (by rewrite Hc1). by rewrite Hc1.
Qed.

(** Without preferences the second of two calls returns what the first
    returned, and changes nothing. *)
Lemma match_twice_without_preferences t context st r st1 :
  match_call t context None st = (inr r, st1) ->
  match_call t context None st1 = (inr r, st1).
Proof.
  unfold match_strategies.
  destruct (cache_key_of t context) as [e|key] eqn:Hk; [done|].
  destruct (dict_get (_match_cache st) key) as [cached|] eqn:Hc.
  - intros [= <- <-]. by rewrite Hc.
  - assert (Hfin : forall ms st0 r0 st2,
              _finalize_matches ms key None st0 = (inr r0, st2) ->
              dict_get (_match_cache st2) key = Some r0).
    { intros ms st0 r0 st2 [= <- <-]. simpl. apply dict_get_set. }
    destruct (pm_detect_code pm t).
    + destruct (alloc code_match st) as [l st0].
      intros Hf. by rewrite (Hfin _ _ _ _ Hf).
    + destruct (classify pm t None st) as [ms st0].
      intros Hf. by rewrite (Hfin _ _ _ _ Hf).
Qed.

(** The bound the code keeps is [_cache_size + 1]. *)
Lemma cache_bound t context preferences st :
  length (_match_cache st) <= S _cache_size ->
  length (_match_cache (match_call t context preferences st).2)
  <= S _cache_size.
Proof.
  intros Hb.
  destruct (match_strategies_cache t context preferences st)
    as [->|(key & ms & _ & _ & ->)]; [done|].
  rewrite length_app. simpl. case_decide.
  - destruct (_match_cache st); simpl in *; lia.
  - lia.
Qed.

(** C6. On a cache miss for a text on which [detect_code] fires,
    [match_strategies] returns exactly one match: the protect-code match,
    of kind CUSTOM, priority CRITICAL and confidence 0.99. The other
    detectors of the pattern matcher are not consulted: the statement holds
    for every pattern matcher, whatever its other detectors answer. *)
Theorem code_short_circuit t context preferences st cache_key :
  cache_key_of t context = inr cache_key ->
  dict_get (_match_cache st) cache_key = None ->
  pm_detect_code pm t = true ->
  exists l st',
    match_call t context preferences st = (inr [l], st')
    /\ deref (store st') [l] = [code_match]
    /\ strategy_type code_match = CUSTOM
    /\ priority code_match = CRITICAL
    /\ confidence code_match = (99 # 100)%Q
    /\ metadata code_match !! "action" = Some "protect_code".
Proof.
  intros Hkey Hmiss Hcode.
  exists (length (store st)). eexists.
  unfold match_strategies.
  rewrite Hkey, Hmiss, Hcode. simpl.
  split; [reflexivity|].
  split; [|done].
  unfold deref. simpl.
  rewrite lookup_app_r by lia. by rewrite Nat.sub_diag.
Qed.


End MatcherFacts.

Lemma code_short_circuit_witness :
  exists l st',
    matcher_call (text_of_string "def teh(): print(1)") None
      (Some default_preferences) init_state = (inr [l], st')
    /\ deref (store st') [l] = [code_match].
Proof.
  destruct (code_short_circuit (PatternMatcher_obj cjk_isalnum)
              plain_digest no_items
              (text_of_string "def teh(): print(1)") None
              (Some default_preferences) init_state
              "def teh(): print(1)") as (l & st' & H1 & H2 & _).
  - vm_compute. reflexivity.
  - reflexivity.
  - vm_compute. reflexivity.
  - exists l, st'. split; assumption.
Defined.



(** C2, at the input on which the code departs from it. A fresh matcher is
    called twice with the text "teh", no context and preferences that
    switch correction off. The first call misses the cache and returns the
    correction match with the two others; the second call hits the entry
    the first one inserted and returns the two others only. *)
Theorem miss_returns_what_hit_filters :
  let teh := text_of_string "teh" in
  let first := matcher_call teh None (Some no_correction) init_state in
  let second := matcher_call teh None (Some no_correction) first.2 in
  first.1 = inr [0; 1; 2]
  /\ deref (store first.2) [0; 1; 2]
     = [typo_match; translation_match "en-zh"; expansion_match]
  /\ second.1 = inr [1; 2]
  /\ deref (store second.2) [1; 2]
     = [translation_match "en-zh"; expansion_match].
Proof. vm_compute. repeat split. Qed.

(** C4, at the input on which the code departs from it. After calls on 1001
    different texts, a matcher that started empty holds 1001 cache
    entries. *)
Theorem cache_holds_1001_entries :
  length (_match_cache (match_each (numbered_texts 1001) None init_state))
  = 1001.
Proof. vm_compute. reflexivity. Qed.

(** One call more: the cache still holds 1001 entries, the entry of the
    first text is gone and the entry of the second text is now the
    oldest. *)
Lemma oldest_entry_is_evicted :
  let cache :=
    _match_cache (match_each (numbered_texts 1002) None init_state) in
  length cache = 1001 /\ (take 2 cache).*1 = ["1"; "2"]
  /\ dict_get cache "0" = None.
Proof. vm_compute. repeat split. Qed.

(** However many calls are made, the cache never holds more than 1001
    entries. *)
Lemma match_each_bound texts preferences : forall st,
  length (_match_cache st) <= S _cache_size ->
  length (_match_cache (match_each texts preferences st)) <= S _cache_size.
Proof.
  induction texts as [|t texts IH]; intros st Hb; [done|].
  simpl. apply IH. by apply cache_bound.
Qed.

Lemma react_bytes_encode : utf8_encode react_text = Some react_bytes.
Proof. reflexivity. Qed.

(** No detector of the default pattern matcher fires on the text "项目使用了
    React 和 Node.js", whatever the character table says of its
    characters. *)
Lemma react_text_detectors uni_isalnum :
  let pm := PatternMatcher_obj uni_isalnum in
  pm_detect_code pm react_text = false
  /\ pm_detect_typos pm react_text = false
  /\ pm_detect_translation_candidate pm react_text = (false, "")
  /\ pm_detect_expansion_candidate pm react_text = false
  /\ pm_detect_email_context pm react_text = false
  /\ pm_detect_chat_context pm react_text = false.
Proof.
  repeat split; vm_compute;
    repeat match goal with
           | |- context [uni_isalnum ?c] => destruct (uni_isalnum c)
           end; reflexivity.
Qed.

(** C8, as the code has it. For the text "项目使用了 React 和 Node.js" and no
    context, a default matcher that misses its cache returns no match at
    all, whatever the preferences, the character table and the digest: the
    text is no code, holds Chinese and English but not in the shape "word
    space word", is longer than ten characters and does not start with one
    of the acronyms. *)
Theorem react_text_no_match
    uni_isalnum md5_hexdigest str_sorted_items preferences st :
  dict_get (_match_cache st) (md5_hexdigest react_bytes) = None ->
  exists st',
    match_strategies (PatternMatcher_obj uni_isalnum) md5_hexdigest
      str_sorted_items react_text None preferences st
    = (inr [], st')
    /\ store st' = store st.
Proof.
  intros Hmiss.
  destruct (react_text_detectors uni_isalnum)
    as (Hc & H1 & H2 & H3 & H4 & H5).
  unfold match_strategies.
  replace (_generate_cache_key md5_hexdigest str_sorted_items react_text None)
    with (inr (A := exn) (md5_hexdigest react_bytes)) by reflexivity.
  rewrite Hmiss, Hc.
  unfold classify. rewrite H1, H2, H3, H4, H5. simpl.
  eexists. split; reflexivity.
Qed.

Lemma react_text_no_match_witness :
  exists st',
    matcher_call react_text None (Some default_preferences) init_state
    = (inr [], st').
Proof.
  destruct (react_text_no_match cjk_isalnum plain_digest no_items
              (Some default_preferences) init_state) as (st' & Hrun & _).
  - reflexivity.
  - exists st'. exact Hrun.
Defined.

(** The claim C8 fails on the code: the call does not return exactly one
    match that is a translation or an expansion candidate. *)
Lemma react_text_counterexample :
  ~ exists l st' m,
      matcher_call react_text None (Some default_preferences) init_state
      = (inr [l], st')
      /\ store st' !! l = Some m
      /\ (strategy_type m = TRANSLATION \/ strategy_type m = EXPANSION).
Proof.
  intros (l & st' & m & Hrun & _).
  vm_compute in Hrun. discriminate Hrun.
Qed.

(** ** [build_chain] *)

Section ChainFacts.

Variable self : StrategyChain.

(** The inner loop appends the dependencies that are new, each once. *)
Lemma emit_deps_spec ds : forall chain processed,
  (forall k, k ∈ processed <-> k ∈ chain) ->
  NoDup chain ->
  exists new,
    foldl emit_dep (chain, processed) ds
    = (chain ++ new, processed ∪ list_to_set new)
    /\ NoDup (chain ++ new)
    /\ (forall d, d ∈ new -> d ∈ ds)
    /\ (forall d, d ∈ ds -> d ∈ chain ++ new).
Proof.
  induction ds as [|d ds IH]; intros chain processed Hp Hnd.
  - exists []. simpl. rewrite app_nil_r.
    repeat split; [f_equal; set_solver|done|set_solver|set_solver].
  - simpl. unfold emit_dep at 2. simpl. case_decide as Hd.
    + destruct (IH chain processed Hp Hnd) as (new & Hf & Hnd' & Hsub & Hall).
      exists new. repeat split; [done|done|set_solver|].
      intros d' [->|Hd']%elem_of_cons; [|auto].
      apply elem_of_app. left. by apply Hp.
    + destruct (IH (chain ++ [d]) (processed ∪ {[d]}))
        as (new & Hf & Hnd' & Hsub & Hall).
      { intros k. rewrite elem_of_union, elem_of_app, Hp. set_solver. }
      { apply NoDup_app. repeat split; [done| |apply NoDup_singleton].
        intros x Hx ->%list_elem_of_singleton. apply Hd. by apply Hp. }
      exists (d :: new). rewrite Hf. rewrite <- app_assoc in *. simpl in *.
      repeat split; [f_equal; set_solver|done|set_solver|].
      intros d' [->|Hd']%elem_of_cons; [set_solver|].
      specialize (Hall _ Hd'). set_solver.
Qed.

Lemma chain_inv_init : chain_inv self ([], ∅).
Proof.
  split; simpl; [set_solver|constructor|].
  intros i k Hi. by rewrite lookup_nil in Hi.
Qed.

Hypothesis no_self_dependency : forall k, k ∉ deps_of self k.

Lemma chain_step_inv acc m :
  chain_inv self acc -> chain_inv self (chain_step self acc m).
Proof.
  intros [Hp Hnd Hdeps]. unfold chain_step. case_decide as Hk; [by split|].
  destruct acc as [chain processed]. simpl in *.
  destruct (emit_deps_spec (deps_of self (strategy_type m)) chain processed
              Hp Hnd) as (new & -> & Hnd' & Hsub & Hall).
  simpl. set (K := strategy_type m) in *.
  assert (HK : K ∉ chain ++ new).
  { intros [HK|HK]%elem_of_app; [by apply Hk, Hp|].
    by apply (no_self_dependency K), Hsub. }
  split; simpl.
  - intros k.
    rewrite !elem_of_union, !elem_of_app, elem_of_list_to_set, Hp. set_solver.
  - apply NoDup_app. repeat split; [done| |apply NoDup_singleton].
    by intros x Hx ->%list_elem_of_singleton.
  - intros i k Hi Hlater d Hd.
    destruct (decide (i < length chain)) as [Hlt|Hge].
    + rewrite <- app_assoc, lookup_app_l in Hi by done.
      destruct (Hdeps i k Hi) with (d := d) as (i' & Hi' & Hlk); [|done|].
      * intros j x Hj Hx. apply (Hlater j x Hj).
        rewrite <- app_assoc. by apply lookup_app_l_Some.
      * exists i'. split; [done|].
        rewrite <- app_assoc. by apply lookup_app_l_Some.
    + destruct (decide (i < length (chain ++ new))) as [Hlt'|Hge'].
      * exfalso. rewrite lookup_app_l in Hi by done.
        apply (Hlater (length (chain ++ new)) K); [done| |].
        -- rewrite lookup_app_r by done. by rewrite Nat.sub_diag.
        -- apply Hsub. rewrite lookup_app_r in Hi by lia.
           by eapply list_elem_of_lookup_2.
      * rewrite lookup_app_r in Hi by lia.
        apply list_lookup_singleton_Some in Hi as [Hi <-].
        destruct (proj1 (list_elem_of_lookup _ _) (Hall d Hd)) as [i' Hi'].
        exists i'. split; [apply lookup_lt_Some in Hi'; lia|].
        by apply lookup_app_l_Some.
Qed.

Lemma chain_fold_inv ms acc :
  chain_inv self acc -> chain_inv self (foldl (chain_step self) acc ms).
Proof.
  revert acc. induction ms as [|m ms IH]; intros acc Hacc; [done|].
  simpl. by apply IH, chain_step_inv.
Qed.

(** C3, as the code has it. When no kind is declared as its own
    dependency, the chain holds each kind at most once, and every kind in
    it that is not a declared dependency of a kind placed after it has all
    its declared dependencies strictly before it. A kind that entered the
    chain as the dependency of a later kind comes without its own
    dependencies. *)
Theorem build_chain_ordered matches :
  NoDup (build_chain self matches)
  /\ forall i k,
       build_chain self matches !! i = Some k ->
       (forall j x, i < j -> build_chain self matches !! j = Some x ->
                    k ∉ deps_of self x) ->
       forall d, d ∈ deps_of self k ->
       exists i', i' < i /\ build_chain self matches !! i' = Some d.
Proof.
  unfold build_chain. destruct matches as [|m ms].
  - split; [constructor|]. intros i k Hi. by rewrite lookup_nil in Hi.
  - destruct (chain_fold_inv (by_priority (m :: ms)) _ chain_inv_init)
      as [_ Hnd Hdeps].
    split; [done|]. exact Hdeps.
Qed.

End ChainFacts.

Lemma build_chain_ordered_witness :
  build_chain nested_chain [expansion_match; typo_match]
  = [EXPANSION; CORRECTION]
  /\ NoDup (build_chain nested_chain [expansion_match; typo_match])
  /\ exists i', i' < 1
       /\ build_chain nested_chain [expansion_match; typo_match] !! i'
          = Some EXPANSION.
Proof.
  destruct (build_chain_ordered nested_chain) with
    (matches := [expansion_match; typo_match]) as [Hnd Hdeps].
  - intros k. apply (bool_decide_unpack _). by destruct k; vm_compute.
  - split; [reflexivity|]. split; [exact Hnd|].
    apply (Hdeps 1 CORRECTION).
    + reflexivity.
    + intros j x Hj Hx. apply lookup_lt_Some in Hx.
      vm_compute in Hx. lia.
    + apply (bool_decide_unpack _). by vm_compute.
Defined.

(** The claim C3 fails on the code. With CORRECTION depending on EXPANSION
    and EXPANSION on TRANSLATION, a single correction match gives the chain
    EXPANSION, CORRECTION: EXPANSION is in the chain, and its declared
    dependency TRANSLATION is nowhere in it. *)
Lemma build_chain_counterexample :
  build_chain nested_chain [typo_match] = [EXPANSION; CORRECTION]
  /\ TRANSLATION ∈ deps_of nested_chain EXPANSION
  /\ TRANSLATION ∉ build_chain nested_chain [typo_match].
Proof.
  split; [reflexivity|].
  split; apply (bool_decide_unpack _); by vm_compute.
Qed.

(** A kind declared as its own dependency is placed twice. *)
Lemma build_chain_self_dependency :
  build_chain self_chain [typo_match] = [CORRECTION; CORRECTION].
Proof. reflexivity. Qed.

(** ** [execute_chain] *)

Section ExecFacts.

Context {S : Type}.
Variable processor : text -> StrategyType -> S -> (raised + text) * S.

Lemma execute_chain_from_fold chain : forall t s,
  ordinary processor ->
  execute_chain_from processor t chain s
  = (inr (foldl (feed processor) (t, s) chain).1,
     (foldl (feed processor) (t, s) chain).2).
Proof.
  induction chain as [|k chain IH]; intros t s Hord; [done|].
  cbn [execute_chain_from foldl]. unfold feed at 2 4. simpl.
  destruct (processor t k s) as [[r|t'] s'] eqn:Hp; simpl; [|by apply IH].
  destruct (Hord _ _ _ _ _ Hp) as [e ->]. by apply IH.
Qed.

Lemma recording_log chain : forall t s log0,
  ordinary processor ->
  exists log,
    execute_chain_from (recording processor) t chain (s, log0)
    = (inr (foldl (feed processor) (t, s) chain).1,
       ((foldl (feed processor) (t, s) chain).2, log0 ++ log))
    /\ length log = length chain
    /\ forall i k, chain !! i = Some k ->
         log !! i
         = Some ((foldl (feed processor) (t, s) (take i chain)).1, k).
Proof.
  induction chain as [|k chain IH]; intros t s log0 Hord.
  - exists []. simpl. rewrite app_nil_r. repeat split.
    intros i k Hi. by rewrite lookup_nil in Hi.
  - cbn [execute_chain_from foldl]. unfold recording at 1. simpl.
    destruct (processor t k s) as [r s'] eqn:Hp.
    assert (Hf : feed processor (t, s) k
                 = (match r with inr t' => t' | inl _ => t end, s')).
    { unfold feed. simpl. rewrite Hp. by destruct r. }
    rewrite Hf.
    destruct (IH (match r with inr t' => t' | inl _ => t end) s'
                 (log0 ++ [(t, k)]) Hord) as (log & Hrun & Hlen & Hlog).
    exists ((t, k) :: log). rewrite <- app_assoc in Hrun. simpl in Hrun.
    split.
    { destruct r as [r|t']; [|done].
      by destruct (Hord _ _ _ _ _ Hp) as [e ->]. }
    split; [simpl; by rewrite Hlen|].
    intros [|i] k' Hi; simpl in *; [congruence|].
    rewrite Hf. by apply Hlog.
Qed.

(** A step whose exception the handler does not take in ends the chain
    there: the exception that leaves the handler reaches the caller, and
    the kinds after that step are not run. *)
Lemma escaping_step_ends_the_chain t k chain s r s' :
  processor t k s = (inl r, s') ->
  (forall e, r <> Printable e) ->
  exists r', execute_chain processor t (k :: chain) s = (inl r', s').
Proof.
  intros Hp Hr. unfold execute_chain. cbn [execute_chain_from]. rewrite Hp.
  destruct r as [e| |]; [by destruct (Hr e)|by eexists..].
Qed.

(** C7, as the code has it. For a transform that raises nothing but
    instances of [Exception] that can be formatted into the log message,
    [execute_chain] returns: its result is the running text after feeding
    it through the transform for each kind of the chain in turn, a step
    whose transform raises leaving the running text as it was and the
    steps after it still being run. The transform is called once per kind,
    in the order of the chain, each time on the running text of that
    moment. *)
Theorem execute_chain_completes t chain s :
  ordinary processor ->
  let final := foldl (feed processor) (t, s) chain in
  execute_chain processor t chain s = (inr final.1, final.2)
  /\ exists log,
       execute_chain (recording processor) t chain (s, [])
       = (inr final.1, (final.2, log))
       /\ log.*2 = chain
       /\ forall i k, chain !! i = Some k ->
            log !! i
            = Some ((foldl (feed processor) (t, s) (take i chain)).1, k).
Proof.
  intros Hord. simpl. split; [by apply execute_chain_from_fold|].
  destruct (recording_log chain t s [] Hord) as (log & Hrun & Hlen & Hlog).
  exists log. split; [exact Hrun|]. split; [|exact Hlog].
  apply list_eq. intros i. rewrite list_lookup_fmap.
  destruct (chain !! i) as [k|] eqn:Hi.
  - by rewrite (Hlog _ _ Hi).
  - apply lookup_ge_None in Hi. rewrite lookup_ge_None_2; [done|lia].
Qed.

End ExecFacts.

Lemma flaky_ordinary : ordinary flaky.
Proof.
  intros t k s r s' Hp. unfold flaky, transform_with in Hp.
  destruct k; try discriminate. injection Hp as <- _. by eexists.
Qed.

Lemma execute_chain_completes_witness :
  execute_chain flaky (text_of_string "teh")
    [EXPANSION; CORRECTION; TRANSLATION] tt
  = (inr (text_of_string "teh!!"), tt)
  /\ exists log,
       execute_chain (recording flaky) (text_of_string "teh")
         [EXPANSION; CORRECTION; TRANSLATION] (tt, [])
       = (inr (text_of_string "teh!!"), (tt, log))
       /\ log.*2 = [EXPANSION; CORRECTION; TRANSLATION].
Proof.
  destruct (execute_chain_completes flaky (text_of_string "teh")
              [EXPANSION; CORRECTION; TRANSLATION] tt flaky_ordinary)
    as (Hrun & log & Hlog & Hkinds & _).
  split; [exact Hrun|]. exists log. split; [exact Hlog|exact Hkinds].
Defined.

(** The claim C7 fails on the code for a transform that raises an
    exception that is no instance of [Exception], and for one that raises
    an exception whose [__str__] raises: on the chain EXPANSION,
    CORRECTION, TRANSLATION, with a transform that does either for
    CORRECTION, [execute_chain] does not return a text. It raises at the
    second step, the [SystemExit] in the first case and the [TypeError] of
    [__str__] in the second, and the transform is not called for
    TRANSLATION. *)
Lemma escaping_transform_counterexample :
  let t := text_of_string "teh" in
  let chain := [EXPANSION; CORRECTION; TRANSLATION] in
  execute_chain exiting t chain tt = (inl (NotException "SystemExit"), tt)
  /\ (execute_chain (recording exiting) t chain (tt, [])).2.2
     = [(t, EXPANSION); (t ++ [33%Z], CORRECTION)]
  /\ execute_chain unprintable t chain tt = (inl (Printable TypeError), tt)
  /\ (execute_chain (recording unprintable) t chain (tt, [])).2.2
     = [(t, EXPANSION); (t ++ [33%Z], CORRECTION)].
Proof. repeat split. Qed.

End StrategyFacts.

(** * Facts about the providers *)

Module ProviderFacts.

Import Providers Scenarios.
Local Open Scope Z_scope.

(** ** [complete]: retries *)

Section CompleteFacts.

Variable network : nat -> Request -> http_result.

Lemma backoff_sleeps name body msg attempt w :
  read_error_message body = inr msg ->
  backoff_on_429 name 429 body attempt w
  = (inr tt, {| http_calls := http_calls w;
                trace := trace w ++ [EvSleep (2 ^ attempt)] |}).
Proof.
  unfold read_error_message, backoff_on_429, obind, bind, lift.
  destruct (response_json body) as [e|error_data]; [done|].
  destruct (get_method error_data "error" (JObj [])) as [e|error]; [done|].
  intros ->. by rewrite decide_True.
Qed.

Lemma after_0 w : after w 0 [] = w.
Proof.
  destruct w. unfold after. simpl. by rewrite Nat.add_0_r, app_nil_r.
Qed.

(** [k] rate-limited attempts use up [k] turns of the loop. *)
Lemma attempts_skip v config req n k : forall attempt w,
  backs_off v ->
  (forall i, (i < k)%nat -> rate_limited (network (http_calls w + i) req)) ->
  attempts network v config req (k + n) attempt w
  = attempts network v config req n (attempt + Z.of_nat k)
      (after w k (backoff_trace req attempt k)).
Proof.
  induction k as [|k IH]; intros attempt w Hv Hnet.
  - simpl. by rewrite Z.add_0_r, after_0.
  - destruct (Hnet 0%nat) as (body & msg & Hr & Hmsg); [lia|].
    rewrite Nat.add_0_r in Hr.
    destruct Hv as [name Hname].
    cbn [Nat.add attempts]. unfold bind at 1, post at 1. rewrite Hr.
    rewrite decide_False by done.
    unfold bind at 1. rewrite Hname, (backoff_sleeps _ _ msg) by done.
    rewrite IH.
    + simpl. unfold after. simpl. f_equal; [lia|].
      f_equal; [lia|]. by rewrite <- !app_assoc.
    + by exists name.
    + intros i Hi. cbn [http_calls]. specialize (Hnet (S i)).
      rewrite Nat.add_succ_r in Hnet. apply Hnet. lia.
Qed.

Lemma posts_backoff_trace req attempt k :
  posts (backoff_trace req attempt k) = replicate k req.
Proof.
  revert attempt. induction k as [|k IH]; intros attempt; simpl; [done|].
  unfold posts in *. simpl. by rewrite IH.
Qed.

Lemma delays_backoff_trace req k : forall attempt,
  delays (backoff_trace req attempt k)
  = map (fun i => 2 ^ (attempt + Z.of_nat i)) (seq 0 k).
Proof.
  induction k as [|k IH]; intros attempt; [done|].
  simpl. unfold delays in *. simpl. rewrite IH, Z.add_0_r. f_equal.
  rewrite <- seq_shift, map_map. apply map_ext. intros i. f_equal. lia.
Qed.

(** C5, as the code has it. For the OpenAI and the Anthropic provider and
    every [retry_count] of at least 1: when the first [retry_count - 1]
    requests are answered 429 with a readable error body and the last one
    200 with a body that holds a completion, [complete] returns that
    completion after exactly [retry_count] requests, having slept
    [2 ** attempt] seconds after each 429, delays that grow strictly; when
    all [retry_count] requests are answered 429, [complete] raises after
    exactly [retry_count] requests. *)
Theorem backoff_on_rate_limit v config messages stream w n :
  v = OpenAIProvider \/ v = AnthropicProvider ->
  retry_count config = Z.of_nat n ->
  (1 <= n)%nat ->
  let req := request v config messages stream in
  let run := complete network v config messages stream w in
  (forall data completion,
     (forall i, (i < n - 1)%nat ->
                rate_limited (network (http_calls w + i) req)) ->
     network (http_calls w + (n - 1)) req = Response 200 (Some data) ->
     parse_success v (model_name v config) data = inr completion ->
     run.1 = inr completion
     /\ http_calls run.2 = (http_calls w + n)%nat
     /\ trace run.2 = trace w ++ backoff_trace req 0 (n - 1) ++ [EvPost req]
     /\ posts (backoff_trace req 0 (n - 1) ++ [EvPost req]) = replicate n req
     /\ delays (backoff_trace req 0 (n - 1) ++ [EvPost req])
        = map (fun i => 2 ^ Z.of_nat i) (seq 0 (n - 1))
     /\ forall i j a b, (i < j)%nat ->
          delays (backoff_trace req 0 (n - 1) ++ [EvPost req]) !! i = Some a ->
          delays (backoff_trace req 0 (n - 1) ++ [EvPost req]) !! j = Some b ->
          a < b)
  /\ ((forall i, (i < n)%nat ->
                 rate_limited (network (http_calls w + i) req)) ->
      run.1 = inl (Exception "Max retries exceeded" [])
      /\ http_calls run.2 = (http_calls w + n)%nat
      /\ trace run.2 = trace w ++ backoff_trace req 0 n
      /\ posts (backoff_trace req 0 n) = replicate n req).
Proof.
  intros Hv Hn Hn1 req run.
  assert (Hb : backs_off v).
  { destruct Hv as [->| ->]; by eexists. }
  subst run. unfold complete. fold req. rewrite Hn, Nat2Z.id.
  assert (Hd : delays (backoff_trace req 0 (n - 1) ++ [EvPost req])
        = map (fun i => 2 ^ Z.of_nat i) (seq 0 (n - 1))).
  { unfold delays. rewrite omap_app. fold (delays (backoff_trace req 0 (n - 1))).
    rewrite delays_backoff_trace. simpl. by rewrite app_nil_r. }
  split.
  - intros data completion Hnet Hlast Hparse.
    assert (Hrun : attempts network v config req n 0 w
              = (inr completion,
                 after w n (backoff_trace req 0 (n - 1) ++ [EvPost req]))).
    { replace n with ((n - 1) + 1)%nat at 1 by lia.
      rewrite attempts_skip by done.
      cbn [attempts]. unfold bind at 1, post at 1, after at 1 2. simpl.
      rewrite Hlast. rewrite decide_True by done.
      unfold bind, lift, after. simpl. rewrite Hparse.
      f_equal. f_equal; [lia|by rewrite <- app_assoc]. }
    rewrite Hrun. simpl.
    split; [done|]. split; [done|]. split; [done|].
    split.
    { unfold posts. rewrite omap_app.
      fold (posts (backoff_trace req 0 (n - 1))).
      rewrite posts_backoff_trace. simpl.
      replace n with (n - 1 + 1)%nat at 2 by lia. by rewrite replicate_add. }
    split; [done|].
    rewrite Hd. intros i j a b Hij Hi Hj.
    rewrite list_lookup_fmap in Hi, Hj.
    destruct (seq 0 (n - 1) !! i) as [i'|] eqn:Hi'; [|done].
    destruct (seq 0 (n - 1) !! j) as [j'|] eqn:Hj'; [|done].
    apply lookup_seq in Hi' as [-> _]. apply lookup_seq in Hj' as [-> _].
    simpl in *. injection Hi as <-. injection Hj as <-.
    apply Z.pow_lt_mono_r; lia.
  - intros Hnet.
    assert (Hrun : attempts network v config req n 0 w
              = (inl (Exception "Max retries exceeded" []),
                 after w n (backoff_trace req 0 n))).
    { replace n with (n + 0)%nat at 1 by lia.
      by rewrite attempts_skip. }
    rewrite Hrun. simpl.
    split; [done|]. split; [done|]. split; [done|].
    apply posts_backoff_trace.
Qed.

End CompleteFacts.

Lemma busy_then_ok_rate_limited k i r :
  (i < k)%nat -> rate_limited (busy_then_ok k i r).
Proof.
  intros Hi. unfold busy_then_ok. rewrite decide_True by done.
  eexists _, _. split; reflexivity.
Qed.

Lemma backoff_on_rate_limit_witness :
  let config := test_config OPENAI 3 in
  (complete (busy_then_ok 2) OpenAIProvider config user_hello false
     new_world).1
  = inr {| completion_content := hello; completion_model := "gpt-3.5-turbo";
           usage := Some (JObj []); raw_response := Some ok_body |}
  /\ delays (trace (complete (busy_then_ok 2) OpenAIProvider config
                      user_hello false new_world).2) = [1; 2]
  /\ (complete (busy_then_ok 3) OpenAIProvider config user_hello false
        new_world).1
     = inl (Exception "Max retries exceeded" []).
Proof.
  intros config.
  destruct (backoff_on_rate_limit (busy_then_ok 2) OpenAIProvider config
              user_hello false new_world 3) as [Hok _];
    [by left|reflexivity|lia|].
  destruct (backoff_on_rate_limit (busy_then_ok 3) OpenAIProvider config
              user_hello false new_world 3) as [_ Hbusy];
    [by left|reflexivity|lia|].
  destruct (Hok ok_body
              {| completion_content := hello;
                 completion_model := "gpt-3.5-turbo";
                 usage := Some (JObj []); raw_response := Some ok_body |})
    as (Hres & _ & Htrace & _ & Hdelays & _).
  - intros i Hi. apply busy_then_ok_rate_limited. simpl. lia.
  - reflexivity.
  - reflexivity.
  - destruct Hbusy as (Hraise & _).
    + intros i Hi. by apply busy_then_ok_rate_limited.
    + split; [exact Hres|]. split; [|exact Hraise].
      rewrite Htrace. exact Hdelays.
Defined.

(** The claim C5 fails on the code for the local provider: with two
    attempts allowed and a server that answers 429 and then 200, [complete]
    raises at the 429, after a single request and without sleeping. *)
Lemma local_provider_counterexample :
  let run := complete (busy_then_ok 1) LocalProvider (test_config LOCAL 2)
               user_hello false new_world in
  run.1 = inl (Exception "Local API error: " [JInt 429])
  /\ http_calls run.2 = 1%nat
  /\ delays (trace run.2) = [].
Proof. vm_compute. repeat split. Qed.

(** A 429 whose body is no JSON is not retried by the OpenAI provider
    either: reading the error message raises first. *)
Lemma unreadable_429_is_not_retried :
  let run := complete busy_html OpenAIProvider (test_config OPENAI 3)
               user_hello false new_world in
  run.1 = inl JSONDecodeError /\ http_calls run.2 = 1%nat.
Proof. vm_compute. repeat split. Qed.

(** ** [ProviderManager] *)

Section ManagerFacts.

Context {W : Type}.
Variable self : ProviderManager W.
Variable messages : list Message.

(** C1, as the code has it. Without an active provider,
    [complete_with_fallback] raises a [ValueError] and calls no provider.
    When the active provider raises and a fallback is configured and
    registered, the fallback is called next and its outcome is the outcome
    of the call: its completion when it returns one, and its own error,
    not the error of the active provider, when it raises as well. *)
Theorem complete_with_fallback_spec stream mw :
  (_active_provider self = None ->
   complete_with_fallback self messages stream mw
   = (inl (ValueError "No active provider configured"), mw))
  /\ (forall a active k fallback e w1 r w2,
        _active_provider self = Some a ->
        _providers self !! a = Some active ->
        _fallback_provider self = Some k ->
        _providers self !! k = Some fallback ->
        provider_complete active messages stream (ext mw) = (inl e, w1) ->
        provider_complete fallback messages stream w1 = (r, w2) ->
        complete_with_fallback self messages stream mw
        = (r, {| ext := w2;
                 calls := calls mw
                          ++ [CallComplete (provider_type active);
                              CallComplete (provider_type fallback)] |})).
Proof.
  unfold complete_with_fallback, get_active_provider, get_fallback_provider.
  split.
  - by intros ->.
  - intros a active k fallback e w1 r w2 -> -> -> -> Ha Hf.
    unfold try_except, invoke_complete. rewrite Ha. simpl.
    rewrite Hf. by rewrite <- app_assoc.
Qed.

(** C9. When the stream of the active provider ends, by raising or by
    being exhausted, and no fallback is configured, or the kind configured
    as fallback is not registered, [stream_with_fallback] yields the chunks
    the active stream yielded and is then exhausted: no error reaches the
    caller, and what the caller sees does not depend on how the active
    stream ended. *)
Theorem stream_failure_is_swallowed mw a active chunks ending w1 :
  _active_provider self = Some a ->
  _providers self !! a = Some active ->
  (_fallback_provider self = None
   \/ exists k, _fallback_provider self = Some k
                /\ _providers self !! k = None) ->
  provider_stream_complete active messages (ext mw)
  = ((chunks, ending), w1) ->
  stream_with_fallback self messages mw
  = ((chunks, None),
     {| ext := w1;
        calls := calls mw ++ [CallStream (provider_type active)] |}).
Proof.
  intros Ha Hreg Hfb Hs.
  unfold stream_with_fallback, get_active_provider, get_fallback_provider,
    invoke_stream.
  rewrite Ha, Hreg, Hs.
  destruct ending as [e|]; [|done].
  destruct Hfb as [->|(k & -> & ->)]; done.
Qed.

End ManagerFacts.

Lemma complete_with_fallback_spec_witness :
  complete_with_fallback (W := unit) new_manager user_hello false start
  = (inl (ValueError "No active provider configured"), start)
  /\ (complete_with_fallback
        (manager_of (failing OPENAI "active down") (Some (answering LOCAL)))
        user_hello false start).1
     = inr {| completion_content := hello; completion_model := "m";
              usage := None; raw_response := None |}.
Proof.
  split.
  - apply (complete_with_fallback_spec new_manager user_hello false start).
    reflexivity.
  - destruct (complete_with_fallback_spec
                (manager_of (failing OPENAI "active down")
                            (Some (answering LOCAL)))
                user_hello false start) as [_ H].
    rewrite (H OPENAI (failing OPENAI "active down") LOCAL (answering LOCAL)
               (Exception "active down" []) tt
               (inr {| completion_content := hello; completion_model := "m";
                       usage := None; raw_response := None |}) tt);
      reflexivity.
Defined.

(** The claim C1 fails on the code when both providers fail: the error
    raised is the one of the fallback provider, which is not the one of the
    active provider. *)
Lemma both_failing_counterexample :
  (provider_complete (failing OPENAI "active down") user_hello false tt).1
  = inl (Exception "active down" [])
  /\ (provider_complete (failing LOCAL "fallback down") user_hello false tt).1
     = inl (Exception "fallback down" [])
  /\ (complete_with_fallback both_failing user_hello false start).1
     = inl (Exception "fallback down" [])
  /\ (complete_with_fallback both_failing user_hello false start).1
     <> inl (Exception "active down" []).
Proof. repeat split. vm_compute. discriminate. Qed.

Lemma stream_failure_is_swallowed_witness :
  stream_with_fallback (manager_of (breaking OPENAI) None) user_hello start
  = (([text_of_string "hel"], None),
     {| ext := tt; calls := [CallStream OPENAI] |}).
Proof.
  apply (stream_failure_is_swallowed (manager_of (breaking OPENAI) None)
           user_hello start OPENAI (breaking OPENAI)
           [text_of_string "hel"] (Some (Exception "connection lost" [])) tt).
  - reflexivity.
  - reflexivity.
  - left. reflexivity.
  - reflexivity.
Defined.

End ProviderFacts.

(** * More facts about the strategy engine *)

Module EngineFacts.

Import Strategy Scenarios Engine Runs StrategyFacts.

(** ** Sorting *)

Section SortFacts.
Context {A K : Type} (key : A -> K) (lt : K -> K -> bool).

Lemma insert_desc_perm x l : insert_desc key lt x l ≡ₚ x :: l.
Proof.
  induction l as [|y l IH]; simpl; [done|].
  destruct (lt (key x) (key y)); [|done].
  rewrite IH. apply Permutation_swap.
Qed.

Lemma sort_desc_perm l : sort_desc key lt l ≡ₚ l.
Proof.
  induction l as [|x l IH]; simpl; [done|].
  by rewrite insert_desc_perm, IH.
Qed.

Hypothesis geq_trans : forall a b c,
  lt (key a) (key b) = false -> lt (key b) (key c) = false ->
  lt (key a) (key c) = false.
Hypothesis lt_asym : forall a b,
  lt (key a) (key b) = true -> lt (key b) (key a) = false.

Lemma insert_desc_ranked x l :
  ranked (fun a b => lt (key a) (key b) = false) l ->
  ranked (fun a b => lt (key a) (key b) = false) (insert_desc key lt x l).
Proof.
  induction l as [|y l IH]; simpl.
  - by repeat constructor.
  - intros [Hy Hl]. destruct (lt (key x) (key y)) eqn:Hxy; simpl.
    + split; [|by apply IH].
      rewrite insert_desc_perm. constructor; [by apply lt_asym|done].
    + split; [|done].
      constructor; [done|].
      eapply Forall_impl; [exact Hy|]. intros z Hz. by eapply geq_trans.
Qed.

Lemma sort_desc_ranked l :
  ranked (fun a b => lt (key a) (key b) = false) (sort_desc key lt l).
Proof.
  induction l as [|x l IH]; simpl; [done|by apply insert_desc_ranked].
Qed.

End SortFacts.

Lemma key_lt_false a b :
  key_lt a b = false <->
  (b.1 < a.1)%Z \/ (a.1 = b.1 /\ (b.2 <= a.2)%Q).
Proof.
  unfold key_lt. destruct (Z.eqb_spec a.1 b.1) as [He|Hne]; simpl.
  - destruct (Qeq_bool a.2 b.2) eqn:Hq; simpl.
    + apply Qeq_bool_iff in Hq. split; [|done]. intros _. right. split; [done|].
      rewrite Hq. apply Qle_refl.
    + rewrite negb_false_iff, Qle_bool_iff. split; [auto|].
      intros [?|[_ ?]]; [lia|done].
  - rewrite Z.ltb_ge. split; [intros; left; lia|]. intros [?|[? _]]; [lia|done].
Qed.

Lemma key_lt_true a b :
  key_lt a b = true -> key_lt b a = false.
Proof.
  intros H. apply key_lt_false.
  destruct (key_lt a b) eqn:E; [|done].
  assert (N : ~ ((b.1 < a.1)%Z \/ (a.1 = b.1 /\ (b.2 <= a.2)%Q))).
  { rewrite <- key_lt_false. by rewrite E. }
  destruct (Z.lt_trichotomy a.1 b.1) as [?|[?|?]]; [by left| |exfalso; apply N; by left].
  right. split; [done|].
  destruct (Qlt_le_dec a.2 b.2) as [Hlt|Hle]; [by apply Qlt_le_weak|].
  exfalso. apply N. by right.
Qed.

Lemma key_lt_false_trans a b c :
  key_lt a b = false -> key_lt b c = false -> key_lt a c = false.
Proof.
  rewrite !key_lt_false.
  intros [?|[? ?]] [?|[? ?]]; [left; lia|left; lia|left; lia|].
  right. split; [lia|]. by eapply Qle_trans.
Qed.

Lemma ranked_impl {A} (R R' : A -> A -> Prop) l :
  (forall a b, R a b -> R' a b) -> ranked R l -> ranked R' l.
Proof.
  intros HR. induction l as [|x l IH]; simpl; [done|].
  intros [Hx Hl]. split; [|auto]. eapply Forall_impl; eauto.
Qed.

Lemma ranked_lookup {A} (R : A -> A -> Prop) l :
  ranked R l ->
  forall i j a b, i < j -> l !! i = Some a -> l !! j = Some b -> R a b.
Proof.
  induction l as [|x l IH]; simpl; [intros _ i j a b _ Hi; by rewrite lookup_nil in Hi|].
  intros [Hx Hl] [|i] [|j] a b Hij Hi Hj; simpl in *; try lia.
  - injection Hi as <-. rewrite Forall_forall in Hx. apply Hx.
    by eapply list_elem_of_lookup_2.
  - apply (IH Hl i j a b); [lia|done|done].
Qed.

(** ** Allocation *)

(** [acc] is what allocating [news] one after the other from [st] gives. *)
Lemma append_if_allocs c m st acc news :
  acc = (seq (length (store st)) (length news),
         set_store (store st ++ news) st) ->
  append_if c m acc
  = (seq (length (store st)) (length (news ++ if c then [m] else [])),
     set_store (store st ++ news ++ if c then [m] else []) st).
Proof.
  intros ->. unfold append_if. destruct c; simpl.
  - rewrite (length_app news [m]), seq_app, (length_app (store st) news).
    by rewrite <- app_assoc.
  - by rewrite !app_nil_r.
Qed.

Section Allocation.
Variable pm : pattern_matcher.
Variable md5_hexdigest : list Z -> string.
Variable str_sorted_items : context_dict -> text.

Abbreviation match_call := (match_strategies pm md5_hexdigest str_sorted_items).
Abbreviation cache_key_of := (_generate_cache_key md5_hexdigest str_sorted_items).

(** The objects a miss on text that is no code creates. *)
Lemma classify_allocs t preferences st :
  let tr := pm_detect_translation_candidate pm t in
  let news :=
    (if pm_detect_typos pm t then [typo_match] else [])
    ++ (if tr.1 && pref_flag preferences translation_enabled
        then [translation_match tr.2] else [])
    ++ (if pm_detect_expansion_candidate pm t
           && pref_flag preferences expansion_enabled
        then [expansion_match] else [])
    ++ (if pm_detect_email_context pm t then [email_match] else [])
    ++ (if pm_detect_chat_context pm t then [chat_match] else []) in
  classify pm t preferences st
  = (seq (length (store st)) (length news),
     set_store (store st ++ news) st).
Proof.
  simpl. unfold classify.
  destruct (pm_detect_translation_candidate pm t) as [is_translation direction].
  simpl.
  assert (H0 : (([] : list loc), st)
               = (seq (length (store st)) (length ([] : list StrategyMatch)),
                  set_store (store st ++ []) st)).
  { destruct st. unfold set_store. simpl. by rewrite app_nil_r. }
  rewrite (append_if_allocs _ _ st _ [] H0).
  simpl.
  rewrite (append_if_allocs _ _ st _ _ eq_refl).
  rewrite (append_if_allocs _ _ st _ _ eq_refl).
  rewrite (append_if_allocs _ _ st _ _ eq_refl).
  rewrite (append_if_allocs _ _ st _ _ eq_refl).
  rewrite <- !app_assoc. done.
Qed.


Lemma classify_news_matchable t preferences st l m :
  store (classify pm t preferences st).2 !! l = Some m ->
  (forall l' m', store st !! l' = Some m' -> matchable (strategy_type m')) ->
  matchable (strategy_type m).
Proof.
  rewrite classify_allocs. simpl. intros Hl Hst.
  apply lookup_app_Some in Hl as [Hl|[_ Hl]]; [eauto|].
  apply list_elem_of_lookup_2 in Hl. unfold matchable.
  repeat match goal with
         | H : _ ∈ _ ++ _ |- _ => apply elem_of_app in H as [H|H]
         | H : _ ∈ (if ?b then _ else _) |- _ => destruct b
         | H : _ ∈ [_] |- _ => apply list_elem_of_singleton in H as ->
         | H : _ ∈ [] |- _ => by apply elem_of_nil in H
         end; simpl; auto.
Qed.

End Allocation.

Lemma dict_set_elem {V} (d : list (string * V)) key x k v :
  (k, v) ∈ dict_set d key x -> (k, v) = (key, x) \/ (k, v) ∈ d.
Proof.
  induction d as [|[k' v'] d IH]; simpl.
  - intros ->%list_elem_of_singleton. by left.
  - case_decide.
    + intros [->|H']%elem_of_cons; [by left|]. right. by right.
    + intros [->|H']%elem_of_cons; [right; by left|].
      destruct (IH H'); [by left|right; by right].
Qed.

Lemma dict_del_elem {V} (d : list (string * V)) key k v :
  (k, v) ∈ dict_del d key -> (k, v) ∈ d.
Proof.
  induction d as [|[k' v'] d IH]; simpl; [done|].
  case_decide.
  - intros H'. by right.
  - intros [->|H']%elem_of_cons; [by left|]. right. auto.
Qed.

(** Whatever the loop of [_apply_preferences] does, the store keeps its
    objects in place, each with its kind. *)
Lemma apply_loop_store prefs matches : forall result s,
  let s' := (apply_loop prefs matches result s).2 in
  length s' = length s
  /\ forall l m', s' !! l = Some m' ->
       exists m, s !! l = Some m /\ strategy_type m' = strategy_type m.
Proof.
  induction matches as [|l0 rest IH]; intros result s; simpl; [eauto|].
  destruct (s !! l0) as [m0|] eqn:H0; simpl; [|eauto].
  destruct (disabled_by prefs m0); [apply IH|].
  destruct (strategy_priorities prefs !! strategy_type m0) as [v|]; [|apply IH].
  case_decide; [apply IH|].
  destruct (StrategyPriority_of_value v) as [e|p]; simpl; [eauto|].
  destruct (IH (result ++ [l0]) (<[l0:=set_priority p m0]> s)) as [Hlen Hk].
  split; [by rewrite Hlen, length_insert|].
  intros l m' Hl. destruct (Hk l m' Hl) as (m & Hm & Ht).
  destruct (decide (l = l0)) as [->|Hne].
  - rewrite list_lookup_insert_eq in Hm by (by eapply lookup_lt_Some).
    injection Hm as <-. eauto.
  - rewrite list_lookup_insert_ne in Hm by done. eauto.
Qed.

Lemma matchable_four k :
  matchable k -> k <> SUMMARIZATION /\ k <> COMPLETION.
Proof. intros [->|[->|[->| ->]]]; done. Qed.

Lemma matcher_wf_init : matcher_wf init_state.
Proof.
  split; simpl.
  - intros key ls l H. by apply elem_of_nil in H.
  - intros l m H. by rewrite lookup_nil in H.
Qed.

Section MatchFacts.
Variable pm : pattern_matcher.
Variable md5_hexdigest : list Z -> string.
Variable str_sorted_items : context_dict -> text.

Abbreviation match_call := (match_strategies pm md5_hexdigest str_sorted_items).
Abbreviation cache_key_of := (_generate_cache_key md5_hexdigest str_sorted_items).

(** A miss: the objects created, the list returned and the state left. *)
Lemma miss_shape t context preferences st key :
  cache_key_of t context = inr key ->
  dict_get (_match_cache st) key = None ->
  exists news ls,
    match_call t context preferences st
    = (inr ls,
       {| store := store st ++ news;
          _match_cache :=
            (if decide (_cache_size < length (_match_cache st))
             then tail (_match_cache st) else _match_cache st)
            ++ [(key, ls)] |})
    /\ ls = sort_desc (key_at (store st ++ news)) key_lt
              (seq (length (store st)) (length news))
    /\ (forall m, m ∈ news -> matchable (strategy_type m))
    /\ (if pm_detect_code pm t then news = [code_match]
        else preferences = None ->
             forall m, m ∈ news ->
               m = typo_match \/ m = email_match \/ m = chat_match).
Proof.
  intros Hk Hmiss. unfold match_strategies. rewrite Hk, Hmiss.
  destruct (pm_detect_code pm t) eqn:Hcode.
  - exists [code_match]. eexists. split; [|split; [reflexivity|]].
    + unfold alloc. simpl.
      pose proof (finalize_cache [length (store st)] key preferences
                    (set_store (store st ++ [code_match]) st) Hmiss) as Hf.
      unfold _finalize_matches in *. simpl in *. by rewrite Hf.
    + split; [|done]. intros m ->%list_elem_of_singleton. by right; right; right.
  - rewrite classify_allocs. simpl.
    set (news := _ ++ _ ++ _ ++ _ ++ _).
    exists news. eexists. split; [|split; [reflexivity|]].
    + pose proof (finalize_cache (seq (length (store st)) (length news)) key
                    preferences (set_store (store st ++ news) st) Hmiss) as Hf.
      unfold _finalize_matches in *. simpl in *. by rewrite Hf.
    + split.
      * intros m Hm. apply list_elem_of_lookup in Hm as [i Hi].
        apply (classify_news_matchable pm t preferences
                 {| store := []; _match_cache := [] |} i m).
        -- rewrite classify_allocs. simpl. exact Hi.
        -- intros l' m' H'. simpl in H'. by rewrite lookup_nil in H'.
      * intros -> m Hm. subst news. simpl in Hm.
        rewrite !andb_false_r in Hm. simpl in Hm.
        repeat match goal with
         | H : _ ∈ _ ++ _ |- _ => apply elem_of_app in H as [H|H]
         | H : _ ∈ (if ?b then _ else _) |- _ => destruct b
         | H : _ ∈ [_] |- _ => apply list_elem_of_singleton in H as ->
         | H : _ ∈ [] |- _ => by apply elem_of_nil in H
         end; auto.
Qed.


Lemma dict_get_elem {V} (d : list (string * V)) k v :
  dict_get d k = Some v -> (k, v) ∈ d.
Proof.
  induction d as [|[k' v'] d IH]; simpl; [done|].
  case_decide as Hk.
  - intros [= ->]. subst. by left.
  - intros H'. right. auto.
Qed.

Lemma key_at_sort_key s l m : s !! l = Some m -> key_at s l = sort_key m.
Proof. unfold key_at. by intros ->. Qed.

(** X1. A call of [match_strategies] that misses the cache returns its
    matches ranked: no location twice, and each match before every match
    of a lower priority value, and before every match of the same priority
    value and a lower confidence. *)
Theorem miss_result_ranked t context preferences st key :
  cache_key_of t context = inr key ->
  dict_get (_match_cache st) key = None ->
  exists ls st',
    match_call t context preferences st = (inr ls, st')
    /\ NoDup ls
    /\ ranked (fun l1 l2 => forall m1 m2,
                 store st' !! l1 = Some m1 -> store st' !! l2 = Some m2 ->
                 ranks_no_lower m1 m2) ls.
Proof.
  intros Hk Hmiss.
  destruct (miss_shape t context preferences st key Hk Hmiss)
    as (news & ls & Hcall & Hls & _).
  eexists _, _. split; [exact Hcall|]. simpl. split.
  - rewrite Hls, sort_desc_perm. apply NoDup_seq.
  - rewrite Hls.
    eapply ranked_impl; [|apply sort_desc_ranked].
    + intros l1 l2 Hlt m1 m2 H1 H2. simpl in Hlt.
      rewrite (key_at_sort_key _ _ _ H1), (key_at_sort_key _ _ _ H2) in Hlt.
      apply key_lt_false in Hlt. exact Hlt.
    + intros a b c. apply key_lt_false_trans.
    + intros a b. apply key_lt_true.
Qed.

(** Calls keep the matcher well formed, and a returned list names objects
    of the kinds the matcher creates. *)
Lemma match_keeps_wf t context preferences st :
  matcher_wf st ->
  matcher_wf (match_call t context preferences st).2
  /\ forall res, (match_call t context preferences st).1 = inr res ->
       forall l, l ∈ res ->
         exists m, store (match_call t context preferences st).2 !! l = Some m
                   /\ strategy_type m <> SUMMARIZATION
                   /\ strategy_type m <> COMPLETION.
Proof.
  intros [Hcache Hkinds].
  assert (Hgoal : matcher_wf (match_call t context preferences st).2
     /\ forall res, (match_call t context preferences st).1 = inr res ->
        forall l, l ∈ res ->
          (l < length (store (match_call t context preferences st).2))%nat).
  { destruct (cache_key_of t context) as [e|key] eqn:Hk.
    { unfold match_strategies. rewrite Hk. simpl. split; [by split|done]. }
    destruct (dict_get (_match_cache st) key) as [cached|] eqn:Hc.
    - apply dict_get_elem in Hc as Hin.
      destruct preferences as [p|].
      + rewrite (hit_with_preferences _ _ _ _ _ _ _ _ _ Hk Hc). simpl.
        destruct (apply_loop_store p cached [] (store st)) as [Hlen Hty].
        simpl in Hlen, Hty. split; [split; simpl|].
        * intros key' ls l Hkl Hl. rewrite Hlen. eauto.
        * intros l m' Hl. destruct (Hty l m' Hl) as (m & Hm & ->). eauto.
        * intros res Hres l Hl. rewrite Hlen.
          destruct (apply_loop p cached [] (store st)) as [r s1] eqn:Hloop.
          simpl in Hres. subst r.
          apply apply_loop_ok in Hloop as (-> & _).
          simpl in Hl. apply list_elem_of_filter in Hl as [_ Hl]. eauto.
      + rewrite (hit_without_preferences _ _ _ _ _ _ _ _ Hk Hc). simpl.
        split; [by split|]. intros res [= <-] l Hl. eauto.
    - destruct (miss_shape t context preferences st key Hk Hc)
        as (news & ls & -> & Hls & Hnews & _). simpl.
      assert (Hin : forall l, l ∈ ls -> (l < length (store st ++ news))%nat).
      { intros l Hl. rewrite Hls, sort_desc_perm in Hl.
        apply elem_of_seq in Hl. rewrite length_app. lia. }
      split; [split; simpl|].
      + intros key' ls' l [Hkl|Hkl]%elem_of_app Hl.
        * rewrite length_app.
          assert ((key', ls') ∈ _match_cache st).
          { case_decide; [|done].
            destruct (_match_cache st); [done|]. by right. }
          assert (l < length (store st))%nat by eauto. lia.
        * apply list_elem_of_singleton in Hkl as [= -> ->]. auto.
      + intros l m [Hl|[_ Hl]]%lookup_app_Some; [eauto|].
        apply Hnews. by eapply list_elem_of_lookup_2.
      + intros res [= <-]. exact Hin. }
  destruct Hgoal as [Hwf Hres]. split; [done|].
  intros res Hr l Hl.
  destruct (lookup_lt_is_Some_2 _ _ (Hres res Hr l Hl)) as [m Hm].
  exists m. split; [done|].
  apply matchable_four. by eapply (wf_kinds _ Hwf).
Qed.

(** X2. Every call of [match_strategies], whether it returns or raises,
    leaves the matcher well formed: the cache lists only objects that
    exist, and every object is of a kind the matcher creates. The matches
    a call returns exist, and none of them is a SUMMARIZATION or a
    COMPLETION match. *)
Theorem matcher_wf_preserved t context preferences st :
  matcher_wf st ->
  matcher_wf (match_call t context preferences st).2
  /\ forall res, (match_call t context preferences st).1 = inr res ->
       forall l, l ∈ res ->
         exists m, store (match_call t context preferences st).2 !! l = Some m
                   /\ strategy_type m <> SUMMARIZATION
                   /\ strategy_type m <> COMPLETION.
Proof. apply match_keeps_wf. Qed.


Lemma valid_value_member v :
  (v = 0 \/ v = 1 \/ v = 5 \/ v = 10 \/ v = 100)%Z -> v <> 0%Z ->
  exists p, StrategyPriority_of_value v = inr p.
Proof.
  intros [->|[->|[->|[->| ->]]]] Hv; [done|..]; by eexists.
Qed.

Lemma apply_loop_returns prefs matches : forall result s,
  overrides_valid prefs ->
  (forall l, l ∈ matches -> (l < length s)%nat) ->
  exists res s', apply_loop prefs matches result s = (inr res, s').
Proof.
  induction matches as [|l0 rest IH]; intros result s Hv Hal; simpl; [eauto|].
  destruct (lookup_lt_is_Some_2 s l0) as [m0 ->]; [apply Hal; by left|].
  assert (Hrest : forall s1 : list StrategyMatch, length s1 = length s ->
            forall l, l ∈ rest -> (l < length s1)%nat).
  { intros s1 -> l Hl. apply Hal. by right. }
  destruct (disabled_by prefs m0); [by apply IH; auto|].
  destruct (strategy_priorities prefs !! strategy_type m0) as [v|] eqn:Hov;
    [|by apply IH; auto].
  case_decide as Hz; [by apply IH; auto|].
  destruct (valid_value_member v (Hv _ _ Hov) Hz) as [p ->].
  apply IH; [done|]. apply Hrest. by rewrite length_insert.
Qed.

(** With priority overrides that are member values, a call on text that
    can be encoded returns. *)
Lemma match_returns t context preferences st key :
  matcher_wf st ->
  cache_key_of t context = inr key ->
  (forall p, preferences = Some p -> overrides_valid p) ->
  exists res st', match_call t context preferences st = (inr res, st').
Proof.
  intros Hwf Hk Hv.
  destruct (dict_get (_match_cache st) key) as [cached|] eqn:Hc.
  - destruct preferences as [p|].
    + rewrite (hit_with_preferences _ _ _ _ _ _ _ _ _ Hk Hc).
      destruct (apply_loop_returns p cached [] (store st)) as (res & s' & ->);
        [by apply Hv| |by eauto].
      intros l Hl. apply (wf_cache _ Hwf key cached); [|done].
      by apply dict_get_elem.
    + rewrite (hit_without_preferences _ _ _ _ _ _ _ _ Hk Hc). eauto.
  - destruct (miss_shape t context preferences st key Hk Hc)
      as (news & ls & -> & _). eauto.
Qed.

(** X3. On a well-formed matcher, [match_strategies] returns, and does not
    raise, whenever the cache key can be computed (the text holds no lone
    surrogate) and every priority override of the preferences is 0 or the
    value of a member of [StrategyPriority]. *)
Theorem returns_with_valid_overrides t context preferences st key :
  matcher_wf st ->
  cache_key_of t context = inr key ->
  (forall p, preferences = Some p -> overrides_valid p) ->
  exists res st', match_call t context preferences st = (inr res, st').
Proof. apply match_returns. Qed.

Lemma apply_loop_raises prefs matches : forall result s l m v e,
  (forall l', l' ∈ matches -> (l' < length s)%nat) ->
  l ∈ matches ->
  s !! l = Some m ->
  disabled_by prefs m = false ->
  override_of prefs m = Some v ->
  StrategyPriority_of_value v = inl e ->
  (apply_loop prefs matches result s).1
  = inl (ValueError "not a valid StrategyPriority").
Proof.
  induction matches as [|l0 rest IH]; intros result s l m v e Hal Hl Hm Hd Ho He;
    [by apply elem_of_nil in Hl|].
  assert (Hbad : forall v' e', StrategyPriority_of_value v' = inl e' ->
            StrategyPriority_of_value v'
            = inl (ValueError "not a valid StrategyPriority")).
  { intros v' e'. unfold StrategyPriority_of_value.
    repeat case_decide; done. }
  cbn [apply_loop].
  destruct (lookup_lt_is_Some_2 s l0) as [m0 H0]; [apply Hal; by left|].
  rewrite H0.
  assert (Hal' : forall s1 : list StrategyMatch, length s1 = length s ->
            forall l', l' ∈ rest -> (l' < length s1)%nat).
  { intros s1 -> l' Hl'. apply Hal. by right. }
  destruct (decide (l = l0)) as [->|Hne].
  - replace m0 with m by congruence. rewrite Hd.
    unfold override_of in Ho.
    destruct (strategy_priorities prefs !! strategy_type m) as [v'|]; [|done].
    case_decide; [done|]. injection Ho as ->.
    pose proof (Hbad _ _ He) as Hb. rewrite Hb. done.
  - apply elem_of_cons in Hl as [?|Hl]; [done|].
    destruct (disabled_by prefs m0); [by eapply IH; eauto|].
    destruct (strategy_priorities prefs !! strategy_type m0) as [v0|];
      [|by eapply IH; eauto].
    case_decide; [by eapply IH; eauto|].
    destruct (StrategyPriority_of_value v0) as [e0|p] eqn:Hp0.
    + simpl. pose proof (Hbad _ _ Hp0) as Hb. rewrite Hp0 in Hb. by injection Hb as ->.
    + eapply (IH _ _ l m v e); eauto.
      * apply Hal'. by rewrite length_insert.
      * by rewrite list_lookup_insert_ne.
Qed.

(** X4. A priority override that is neither 0 nor a member value (1, 5,
    10, 100) makes a call that hits the cache raise [ValueError], as soon
    as the cached entry lists a match of that kind that is not switched
    off; the cache keeps its entries. *)
Theorem invalid_override_raises_on_hit t context prefs st key cached l m v :
  matcher_wf st ->
  cache_key_of t context = inr key ->
  dict_get (_match_cache st) key = Some cached ->
  l ∈ cached ->
  store st !! l = Some m ->
  disabled_by prefs m = false ->
  strategy_priorities prefs !! strategy_type m = Some v ->
  v <> 0%Z -> v <> 1%Z -> v <> 5%Z -> v <> 10%Z -> v <> 100%Z ->
  (match_call t context (Some prefs) st).1
  = inl (ValueError "not a valid StrategyPriority")
  /\ _match_cache (match_call t context (Some prefs) st).2 = _match_cache st.
Proof.
  intros Hwf Hk Hc Hl Hm Hd Hv H0 H1 H5 H10 H100.
  rewrite (hit_with_preferences _ _ _ _ _ _ _ _ _ Hk Hc). simpl.
  split; [|done].
  eapply (apply_loop_raises prefs cached [] (store st) l m v); eauto.
  - intros l' Hl'. apply (wf_cache _ Hwf key cached); [|done].
    by apply dict_get_elem.
  - unfold override_of. rewrite Hv. by rewrite decide_False.
  - unfold StrategyPriority_of_value. by rewrite !decide_False.
Qed.

(** What a hit with preferences returns and leaves. *)
Lemma hit_filters_entry t context prefs st key cached res st' :
  cache_key_of t context = inr key ->
  dict_get (_match_cache st) key = Some cached ->
  match_call t context (Some prefs) st = (inr res, st') ->
  res = filter (fun l => kept prefs (store st) l = true) cached
  /\ _match_cache st' = _match_cache st
  /\ length (store st') = length (store st)
  /\ forall l m', store st' !! l = Some m' ->
       exists m, store st !! l = Some m
                 /\ strategy_type m' = strategy_type m
                 /\ confidence m' = confidence m
                 /\ (l ∉ res -> m' = m).
Proof.
  intros Hk Hc. rewrite (hit_with_preferences _ _ _ _ _ _ _ _ _ Hk Hc).
  destruct (apply_loop prefs cached [] (store st)) as [r s1] eqn:Hloop.
  simpl. intros [= -> <-].
  apply apply_loop_ok in Hloop as (Hres & _ & Hin & Hout).
  simpl in Hres. split; [done|]. split; [done|]. simpl.
  assert (Hlk : forall l m', s1 !! l = Some m' ->
            exists m, store st !! l = Some m
                      /\ (m' = m \/ (m' = applied prefs m /\ l ∈ cached))).
  { intros l m' Hl. destruct (decide (l ∈ cached)) as [Hlc|Hlc].
    - destruct (Hin l Hlc) as [[m Hm] Hs]. rewrite Hs, Hm in Hl.
      injection Hl as <-. eauto.
    - rewrite (Hout l Hlc) in Hl. eauto. }
  split.
  { apply Nat.le_antisymm.
    - destruct (decide (length s1 <= length (store st))) as [|Hn]; [done|].
      destruct (lookup_lt_is_Some_2 s1 (length (store st))) as [m' Hm']; [lia|].
      destruct (Hlk _ _ Hm') as (m & Hm & _).
      apply lookup_lt_Some in Hm. lia.
    - destruct (decide (length (store st) <= length s1)) as [|Hn]; [done|].
      destruct (lookup_lt_is_Some_2 (store st) (length s1)) as [m Hm]; [lia|].
      destruct (decide (length s1 ∈ cached)) as [Hlc|Hlc].
      + destruct (Hin _ Hlc) as [_ Hs]. rewrite Hm in Hs. simpl in Hs.
        apply lookup_lt_Some in Hs. lia.
      + rewrite <- (Hout _ Hlc) in Hm. apply lookup_lt_Some in Hm. lia. }
  intros l m' Hl. destruct (Hlk l m' Hl) as (m & Hm & [->|[-> Hlc]]).
  - exists m. eauto.
  - exists m. split; [done|]. split; [apply applied_type|].
    split.
    + unfold applied. destruct (disabled_by prefs m); [done|].
      destruct (override_of prefs m); [|done].
      by destruct (StrategyPriority_of_value z).
    + intros Hnot. unfold applied.
      destruct (disabled_by prefs m) eqn:Hd; [done|].
      exfalso. apply Hnot. rewrite Hres. apply list_elem_of_filter.
      split; [|done]. unfold kept. by rewrite Hm, Hd.
Qed.

(** X5. A call with preferences that hits the cache and returns gives the
    cached matches whose kind is not switched off, in the cached order.
    The cache entries stay as they were, no object is created, every
    object keeps its kind and confidence, and an object that is not
    returned is not changed at all. *)
Theorem hit_returns_enabled_matches t context prefs st key cached res st' :
  cache_key_of t context = inr key ->
  dict_get (_match_cache st) key = Some cached ->
  match_call t context (Some prefs) st = (inr res, st') ->
  res = filter (fun l => kept prefs (store st) l = true) cached
  /\ _match_cache st' = _match_cache st
  /\ length (store st') = length (store st)
  /\ forall l m', store st' !! l = Some m' ->
       exists m, store st !! l = Some m
                 /\ strategy_type m' = strategy_type m
                 /\ confidence m' = confidence m
                 /\ (l ∉ res -> m' = m).
Proof. apply hit_filters_entry. Qed.

(** Without preferences a match_call that returns leaves its result in the
    cache, under the key of its text and context. *)
Lemma call_caches t context st r st1 :
  match_call t context None st = (inr r, st1) ->
  exists key, cache_key_of t context = inr key
              /\ dict_get (_match_cache st1) key = Some r.
Proof.
  intros Hcall.
  destruct (cache_key_of t context) as [e|key] eqn:Hk.
  { unfold match_strategies in Hcall. by rewrite Hk in Hcall. }
  exists key. split; [done|].
  destruct (dict_get (_match_cache st) key) as [cached|] eqn:Hc.
  - rewrite (hit_without_preferences _ _ _ _ _ _ _ _ Hk Hc) in Hcall.
    by injection Hcall as <- <-.
  - destruct (miss_shape t context None st key Hk Hc)
      as (news & ls & Hcall' & _).
    rewrite Hcall' in Hcall. injection Hcall as <- <-. simpl.
    rewrite <- (dict_set_absent _ key ls).
    + apply dict_get_set.
    + case_decide; [|done].
      destruct (_match_cache st) as [|[k0 v0] c]; [done|].
      simpl in Hc. by case_decide.
Qed.

(** X6. Only the first 100 characters of the text enter the cache key:
    after a call without preferences has returned, a call on any text with
    the same first 100 characters (and the same context) has the same key,
    hits the entry and returns the first call's matches, whatever follows
    the 100th character. *)
Theorem first_100_characters_decide t1 t2 context st r st1 :
  take 100 t1 = take 100 t2 ->
  match_strategies pm md5_hexdigest str_sorted_items t1 context None st
  = (inr r, st1) ->
  _generate_cache_key md5_hexdigest str_sorted_items t1 context
  = _generate_cache_key md5_hexdigest str_sorted_items t2 context
  /\ match_strategies pm md5_hexdigest str_sorted_items t2 context None st1
     = (inr r, st1).
Proof.
  intros Htake Hcall.
  assert (Hkey : cache_key_of t1 context = cache_key_of t2 context).
  { unfold _generate_cache_key. by rewrite Htake. }
  split; [done|].
  destruct (call_caches _ _ _ _ _ Hcall) as (key & Hk & Hc).
  rewrite Hkey in Hk.
  by apply (hit_without_preferences _ _ _ _ _ _ key).
Qed.

End MatchFacts.

Lemma key_at_shift (s news : list StrategyMatch) i :
  key_at (s ++ news) (length s + i) = key_at news i.
Proof.
  unfold key_at. rewrite lookup_app_r by lia.
  by replace (length s + i - length s) with i by lia.
Qed.

Lemma sort_shift (s news : list StrategyMatch) idx :
  sort_desc (key_at (s ++ news)) key_lt (map (fun i => length s + i) idx)
  = map (fun i => length s + i) (sort_desc (key_at news) key_lt idx).
Proof.
  induction idx as [|x idx IH]; simpl; [done|].
  rewrite IH. generalize (sort_desc (key_at news) key_lt idx). intros l.
  induction l as [|y l IHl]; simpl; [done|].
  rewrite !key_at_shift. destruct (key_lt _ _); simpl; [by rewrite IHl|done].
Qed.

Lemma seq_from n k : seq n k = map (fun i => n + i) (seq 0 k).
Proof.
  pose proof (fmap_add_seq n 0 k) as H. rewrite Nat.add_0_r in H.
  by rewrite <- H.
Qed.

Section BestFacts.
Variable pm : pattern_matcher.
Variable md5_hexdigest : list Z -> string.
Variable str_sorted_items : context_dict -> text.

(** X7. On a cache miss [get_best_strategy] returns the code match when
    the text is code, and otherwise the first of the typo, e-mail tone and
    chat tone matches whose detector fires, or [None] when none does: as
    it passes no preferences, translation and expansion are never its
    answer. *)
Theorem get_best_strategy_on_miss t context st key :
  _generate_cache_key md5_hexdigest str_sorted_items t context = inr key ->
  dict_get (_match_cache st) key = None ->
  exists best st',
    get_best_strategy pm md5_hexdigest str_sorted_items t context st
    = (inr best, st')
    /\ (fun l => store st' !! l) <$> best
       = Some <$> best_without_preferences pm t.
Proof.
  intros Hk Hmiss.
  unfold get_best_strategy, bind, best_without_preferences, match_strategies.
  rewrite Hk, Hmiss.
  destruct (pm_detect_code pm t).
  { eexists _, _. split; [reflexivity|]. simpl.
    rewrite lookup_app_r by lia. by rewrite Nat.sub_diag. }
  rewrite classify_allocs. cbn [pref_flag]. rewrite !andb_false_r.
  unfold _finalize_matches, set_store. cbn [store _match_cache fst snd].
  rewrite seq_from, sort_shift.
  destruct (pm_detect_typos pm t), (pm_detect_email_context pm t),
    (pm_detect_chat_context pm t);
    (eexists _, _; split; [reflexivity|]); simpl;
    rewrite ?lookup_app_r by lia;
    rewrite ?Nat.add_0_r, ?Nat.sub_diag; try done.
Qed.

End BestFacts.

Section SharedCache.
Variable pm : pattern_matcher.
Variable md5_hexdigest : list Z -> string.
Variable str_sorted_items : context_dict -> text.

Abbreviation match_call := (match_strategies pm md5_hexdigest str_sorted_items).
Abbreviation cache_key_of := (_generate_cache_key md5_hexdigest str_sorted_items).

(** An entry made by a call without preferences holds no translation and
    no expansion match, and later calls with preferences read that
    entry. *)
Lemma entry_made_without_preferences t context st r st1 key :
  cache_key_of t context = inr key ->
  dict_get (_match_cache st) key = None ->
  match_call t context None st = (inr r, st1) ->
  forall prefs res st2,
    match_call t context (Some prefs) st1 = (inr res, st2) ->
    forall l m, l ∈ res -> store st2 !! l = Some m ->
      strategy_type m = CORRECTION \/ strategy_type m = CUSTOM.
Proof.
  intros Hk Hmiss Hcall prefs res st2 Hcall2 l m Hl Hm.
  destruct (call_caches _ _ _ _ _ _ _ _ Hcall) as (key' & Hk' & Hc).
  rewrite Hk in Hk'. injection Hk' as <-.
  destruct (hit_filters_entry _ _ _ _ _ _ _ _ _ _ _ Hk Hc Hcall2)
    as (Hres & _ & _ & Hobj).
  destruct (Hobj l m Hm) as (m1 & Hm1 & Hty & _). rewrite Hty.
  destruct (miss_shape pm md5_hexdigest str_sorted_items t context None st
              key Hk Hmiss) as (news & ls & Hcall' & Hls & _ & Hnews).
  rewrite Hcall' in Hcall. injection Hcall as <- <-. simpl in *.
  assert (Hlr : l ∈ ls).
  { rewrite Hres in Hl. by apply list_elem_of_filter in Hl as [_ ?]. }
  rewrite Hls, sort_desc_perm in Hlr. apply elem_of_seq in Hlr.
  rewrite lookup_app_r in Hm1 by lia.
  apply list_elem_of_lookup_2 in Hm1.
  destruct (pm_detect_code pm t).
  - subst news. apply list_elem_of_singleton in Hm1 as ->. by right.
  - destruct (Hnews eq_refl _ Hm1) as [->|[->| ->]]; auto.
Qed.

End SharedCache.

(** ** build_chain *)

(** ** The order of [build_chain] *)

Section Rank.

Abbreviation rank := (fun m : StrategyMatch => priority_value (priority m)).

Lemma insert_desc_pass x front back :
  Forall (fun y => (rank x < rank y)%Z) front ->
  insert_desc rank Z.ltb x (front ++ back)
  = front ++ insert_desc rank Z.ltb x back.
Proof.
  induction 1 as [|y front Hy _ IH]; [done|].
  cbn [app insert_desc]. rewrite IH.
  by replace (rank x <? rank y)%Z with true by (symmetry; by apply Z.ltb_lt).
Qed.

Lemma insert_desc_stop x back :
  Forall (fun y => (rank y <= rank x)%Z) back ->
  insert_desc rank Z.ltb x back = x :: back.
Proof.
  destruct 1 as [|y back Hy _]; [done|]. cbn [insert_desc].
  by replace (rank x <? rank y)%Z with false by (symmetry; by apply Z.ltb_ge).
Qed.

Lemma filter_priority_Forall p l :
  Forall (fun m => priority m = p) (filter (fun m => priority m = p) l).
Proof.
  apply Forall_forall. intros m Hm. by apply list_elem_of_filter in Hm as [? _].
Qed.

Lemma level_above x p l :
  (rank x < priority_value p)%Z ->
  Forall (fun y => (rank x < rank y)%Z) (filter (fun m => priority m = p) l).
Proof.
  intros Hp. eapply Forall_impl; [apply filter_priority_Forall|].
  intros m Hm. simpl in Hm. by rewrite Hm.
Qed.

Lemma level_below x p l :
  (priority_value p <= rank x)%Z ->
  Forall (fun y => (rank y <= rank x)%Z) (filter (fun m => priority m = p) l).
Proof.
  intros Hp. eapply Forall_impl; [apply filter_priority_Forall|].
  intros m Hm. simpl in Hm. by rewrite Hm.
Qed.

(** The stable sort of [build_chain] puts the matches of the highest
    priority first, and leaves the matches of one priority in the order
    they came in. *)
Lemma by_priority_by_rank l : by_priority l = by_rank l.
Proof.
  unfold by_priority, by_rank. induction l as [|x l IH]; [done|].
  cbn [sort_desc]. rewrite IH, !filter_cons.
  destruct (priority x) eqn:Hx;
    repeat (case_decide; try discriminate); cbn [app];
    repeat (rewrite insert_desc_pass
              by (apply level_above; rewrite Hx; simpl; lia));
    rewrite insert_desc_stop; try done;
    rewrite ?Forall_app; repeat split;
    apply level_below; rewrite Hx; simpl; lia.
Qed.

Lemma filter_priority_filter p q l :
  filter (fun m => priority m = p) (filter (fun m => priority m = q) l)
  = if decide (p = q) then filter (fun m => priority m = p) l else [].
Proof.
  induction l as [|x l IH]; [by case_decide|].
  rewrite !filter_cons.
  destruct (decide (priority x = q)) as [Hq|Hq].
  - rewrite filter_cons, IH. repeat case_decide; congruence.
  - rewrite IH. repeat case_decide; congruence.
Qed.

Lemma by_rank_keeps_levels p l :
  filter (fun m => priority m = p) (by_rank l)
  = filter (fun m => priority m = p) l.
Proof.
  unfold by_rank. rewrite !filter_app, !filter_priority_filter.
  destruct p; repeat (case_decide; try discriminate);
    by rewrite ?app_nil_r.
Qed.

Lemma ranked_app {A} (R : A -> A -> Prop) l1 l2 :
  ranked R l1 -> ranked R l2 ->
  Forall (fun x => Forall (R x) l2) l1 ->
  ranked R (l1 ++ l2).
Proof.
  induction l1 as [|x l1 IH]; [done|].
  intros [Hx Hl1] Hl2 Hall. apply Forall_cons in Hall as [Hx2 Hall].
  cbn [app ranked]. split; [by apply Forall_app|by apply IH].
Qed.

Lemma ranked_level p l :
  ranked (fun a b => (rank b <= rank a)%Z)
    (filter (fun m => priority m = p) l).
Proof.
  pose proof (filter_priority_Forall p l) as Hall.
  induction Hall as [|x l' Hx Hall IH]; [done|].
  cbn [ranked]. split; [|done].
  eapply Forall_impl; [exact Hall|]. intros y Hy. simpl in *.
  rewrite Hx, Hy. lia.
Qed.

Lemma by_rank_descending l :
  ranked (fun a b => (rank b <= rank a)%Z) (by_rank l).
Proof.
  unfold by_rank.
  repeat (apply ranked_app; [apply ranked_level| |]);
    try apply ranked_level;
    (eapply Forall_impl; [apply filter_priority_Forall|]);
    intros x Hx; simpl in Hx; rewrite ?Forall_app; repeat split;
    (eapply Forall_impl; [apply filter_priority_Forall|]);
    intros y Hy; simpl in *; rewrite Hx, Hy; simpl; lia.
Qed.

End Rank.

Section ChainCover.
Variable self : StrategyChain.

Lemma emit_deps_elems ds : forall acc,
  (forall k, k ∈ acc.2 <-> k ∈ acc.1) ->
  let acc' := foldl emit_dep acc ds in
  (forall k, k ∈ acc'.2 <-> k ∈ acc'.1)
  /\ (forall k, k ∈ acc'.1 <-> k ∈ acc.1 \/ k ∈ ds).
Proof.
  induction ds as [|d ds IH]; intros acc Hp; simpl.
  - split; [done|]. intros k. set_solver.
  - destruct (IH (emit_dep acc d)) as [Hp' Hel].
    { unfold emit_dep. case_decide; [done|]. simpl.
      intros k. rewrite elem_of_union, elem_of_app, Hp. set_solver. }
    split; [done|]. intros k. rewrite Hel.
    unfold emit_dep. case_decide as Hd; simpl.
    + apply Hp in Hd. set_solver.
    + rewrite elem_of_app. set_solver.
Qed.

Lemma chain_step_elems acc m :
  (forall k, k ∈ acc.2 <-> k ∈ acc.1) ->
  let acc' := chain_step self acc m in
  (forall k, k ∈ acc'.2 <-> k ∈ acc'.1)
  /\ strategy_type m ∈ acc'.1
  /\ (forall k, k ∈ acc.1 -> k ∈ acc'.1)
  /\ (forall k, k ∈ acc'.1 ->
        k ∈ acc.1 \/ k = strategy_type m
        \/ k ∈ deps_of self (strategy_type m)).
Proof.
  intros Hp. unfold chain_step. case_decide as Hk; simpl.
  - split; [done|]. split; [by apply Hp|]. split; [done|]. auto.
  - destruct (emit_deps_elems (deps_of self (strategy_type m)) acc Hp)
      as [Hp' Hel].
    simpl in *. split.
    { intros k. rewrite elem_of_union, elem_of_app, Hp'. set_solver. }
    split; [set_solver|]. split.
    + intros k Hk'. apply elem_of_app. left. apply Hel. by left.
    + intros k [Hk'|Hk']%elem_of_app; [apply Hel in Hk'|]; set_solver.
Qed.

Lemma chain_fold_elems ms : forall acc,
  (forall k, k ∈ acc.2 <-> k ∈ acc.1) ->
  let acc' := foldl (chain_step self) acc ms in
  (forall k, k ∈ acc.1 -> k ∈ acc'.1)
  /\ (forall m, m ∈ ms -> strategy_type m ∈ acc'.1)
  /\ (forall k, k ∈ acc'.1 ->
        k ∈ acc.1
        \/ exists m, m ∈ ms /\ (k = strategy_type m
                                \/ k ∈ deps_of self (strategy_type m))).
Proof.
  induction ms as [|m ms IH]; intros acc Hp; simpl.
  - split; [done|]. split; [intros m H; by apply elem_of_nil in H|auto].
  - destruct (chain_step_elems acc m Hp) as (Hp1 & Hm & Hmono & Hsrc).
    destruct (IH _ Hp1) as (Hmono' & Hcov & Hsrc').
    split; [auto|]. split.
    + intros m' [->|Hm']%elem_of_cons; auto.
    + intros k Hk. destruct (Hsrc' k Hk) as [Hk1|(m' & Hm' & Hkm)].
      * destruct (Hsrc k Hk1) as [?|[->|?]]; [by left|right..];
          exists m; split; auto; by left.
      * right. exists m'. split; [by right|done].
Qed.

(** X9. The chain [build_chain] returns holds the kind of every match it
    was given, and nothing but the kinds of those matches and their
    declared dependencies. *)
Theorem build_chain_covers matches :
  (forall m, m ∈ matches -> strategy_type m ∈ build_chain self matches)
  /\ (forall k, k ∈ build_chain self matches ->
        exists m, m ∈ matches
                  /\ (k = strategy_type m
                      \/ k ∈ deps_of self (strategy_type m))).
Proof.
  unfold build_chain. destruct matches as [|m0 ms].
  - split; [intros m H; by apply elem_of_nil in H|].
    intros k H. by apply elem_of_nil in H.
  - destruct (chain_fold_elems (by_priority (m0 :: ms)) ([], ∅))
      as (_ & Hcov & Hsrc); [set_solver|].
    unfold by_priority in *. split.
    + intros m Hm. apply Hcov. by rewrite sort_desc_perm.
    + intros k Hk. destruct (Hsrc k Hk) as [H|(m & Hm & Hkm)];
        [by apply elem_of_nil in H|].
      exists m. split; [|done]. by rewrite sort_desc_perm in Hm.
Qed.

Hypothesis no_dependencies : forall k, deps_of self k = [].

Lemma chain_fold_no_deps ms : forall chain processed,
  (forall k, k ∈ processed <-> k ∈ chain) ->
  (foldl (chain_step self) (chain, processed) ms).1
  = chain ++ filter (fun k => k ∉ chain)
               (first_occurrences (map strategy_type ms)).
Proof.
  induction ms as [|m ms IH]; intros chain processed Hp; simpl.
  - by rewrite app_nil_r.
  - unfold chain_step at 2. simpl. rewrite no_dependencies. simpl.
    rewrite filter_cons. case_decide as Hk.
    + apply Hp in Hk. rewrite decide_False by auto.
      rewrite (IH _ _ Hp). f_equal.
      rewrite list_filter_filter. apply list_filter_iff.
      intros k. destruct (decide (k = strategy_type m)) as [->|?]; tauto.
    + assert (Hk' : strategy_type m ∉ chain) by (by rewrite <- Hp).
      rewrite decide_True by done.
      rewrite (IH (chain ++ [strategy_type m])).
      * rewrite <- app_assoc. simpl. f_equal. f_equal.
        rewrite list_filter_filter. apply list_filter_iff.
        intros k. rewrite elem_of_app, list_elem_of_singleton.
        destruct (decide (k = strategy_type m)) as [->|?]; tauto.
      * intros k. rewrite elem_of_union, elem_of_app, Hp. set_solver.
Qed.

Lemma chain_without_dependencies matches :
  build_chain self matches
  = first_occurrences (map strategy_type (by_priority matches)).
Proof.
  unfold build_chain. destruct matches as [|m0 ms]; [done|].
  rewrite chain_fold_no_deps by set_solver. cbn [app].
  generalize (first_occurrences (map strategy_type (by_priority (m0 :: ms)))).
  intros l. induction l as [|k l IH]; [done|].
  rewrite filter_cons_True by set_solver. by rewrite IH.
Qed.

(** X10. When no dependency is declared, the chain is the kinds of the
    matches taken by descending priority, CRITICAL before HIGH before
    MEDIUM before LOW, the matches of one priority in the order given,
    each kind at its first occurrence only. The order [by_rank] is that
    order: no match in it has a priority value below that of a later one,
    and for each priority it holds the matches given, in the order
    given. *)
Theorem build_chain_without_dependencies matches :
  build_chain self matches
  = first_occurrences (map strategy_type (by_rank matches))
  /\ ranked (fun a b =>
               (priority_value (priority b) <= priority_value (priority a))%Z)
            (by_rank matches)
  /\ forall p, filter (fun m => priority m = p) (by_rank matches)
               = filter (fun m => priority m = p) matches.
Proof.
  split; [|split].
  - rewrite chain_without_dependencies. by rewrite by_priority_by_rank.
  - apply by_rank_descending.
  - intros p. apply by_rank_keeps_levels.
Qed.

End ChainCover.

Section OnEngine.
Variable pm : pattern_matcher.
Variable md5_hexdigest : list Z -> string.
Variable str_sorted_items : context_dict -> text.

Lemma apply_loop_reads p1 p2 matches : forall result s,
  correction_enabled p1 = correction_enabled p2 ->
  expansion_enabled p1 = expansion_enabled p2 ->
  translation_enabled p1 = translation_enabled p2 ->
  summarization_enabled p1 = summarization_enabled p2 ->
  strategy_priorities p1 = strategy_priorities p2 ->
  apply_loop p1 matches result s = apply_loop p2 matches result s.
Proof.
  intros result s Hc He Ht Hs Hp. revert result s.
  induction matches as [|l rest IH]; intros result s; [done|].
  cbn [apply_loop]. destruct (s !! l) as [m|]; [|done].
  assert (Hd : disabled_by p1 m = disabled_by p2 m).
  { unfold disabled_by. by rewrite Hc, He, Ht, Hs. }
  rewrite Hd, Hp. destruct (disabled_by p2 m); [apply IH|].
  destruct (strategy_priorities p2 !! strategy_type m) as [v|]; [|apply IH].
  case_decide; [apply IH|].
  destruct (StrategyPriority_of_value v); [done|apply IH].
Qed.

(** X8. Of the preferences, [match_strategies] reads the four enable
    flags and the priority overrides only: two preference objects that
    agree on those give the same result and the same state, whatever
    their preferred language, their shortcut flag and their learned
    preferences are: learned preferences change no match. *)
Theorem unread_preferences_do_not_matter t context p1 p2 st :
  correction_enabled p1 = correction_enabled p2 ->
  expansion_enabled p1 = expansion_enabled p2 ->
  translation_enabled p1 = translation_enabled p2 ->
  summarization_enabled p1 = summarization_enabled p2 ->
  strategy_priorities p1 = strategy_priorities p2 ->
  match_strategies pm md5_hexdigest str_sorted_items t context (Some p1) st
  = match_strategies pm md5_hexdigest str_sorted_items t context (Some p2) st.
Proof.
  intros Hc He Ht Hs Hp. unfold match_strategies.
  destruct (_generate_cache_key _ _ t context) as [e|key]; [done|].
  destruct (dict_get (_match_cache st) key) as [cached|].
  - unfold _apply_preferences. by rewrite (apply_loop_reads p1 p2).
  - destruct (pm_detect_code pm t); [done|].
    unfold classify, pref_flag. by rewrite He, Ht.
Qed.

Abbreviation cache_key_of :=
  (_generate_cache_key md5_hexdigest str_sorted_items).

Lemma on_matcher_run {A} (m : M matcher_state A) self :
  on_matcher m self
  = ((m (matcher self)).1,
     {| matcher := (m (matcher self)).2;
        chain_builder := chain_builder self;
        _default_preferences := _default_preferences self;
        _preferences := _preferences self |}).
Proof. unfold on_matcher. by destruct (m (matcher self)). Qed.

(** X11. [select_strategy] and [match] share the cache of the matcher.
    When [select_strategy] is the first to see a text, the entry it makes
    holds no translation and no expansion match, and a later [match] on
    that text returns matches of kind CORRECTION and CUSTOM only, even
    with preferences that enable translation and expansion. *)
Theorem select_before_match_hides_candidates
    t context self key best self1 res self2 :
  cache_key_of t context = inr key ->
  dict_get (_match_cache (matcher self)) key = None ->
  select_strategy pm md5_hexdigest str_sorted_items t context self
  = (inr best, self1) ->
  engine_match pm md5_hexdigest str_sorted_items t context self1
  = (inr res, self2) ->
  forall l m, l ∈ res -> store (matcher self2) !! l = Some m ->
    strategy_type m = CORRECTION \/ strategy_type m = CUSTOM.
Proof.
  intros Hk Hmiss Hsel Hmatch.
  unfold select_strategy in Hsel. rewrite on_matcher_run in Hsel.
  unfold engine_match in Hmatch. rewrite on_matcher_run in Hmatch.
  injection Hsel as Hbest <-. injection Hmatch as Hres <-.
  cbn [matcher] in *.
  unfold get_best_strategy, bind in *.
  destruct (match_strategies pm md5_hexdigest str_sorted_items t context
              None (matcher self)) as [[e|r] st1] eqn:Hcall; [done|].
  unfold ret in *. cbn [fst snd] in *.
  set (prefs := get_preferences _) in *.
  destruct (match_strategies pm md5_hexdigest str_sorted_items t context
              (Some prefs) st1) as [r2 st2] eqn:Hcall2.
  cbn [fst snd] in *. subst r2.
  eapply entry_made_without_preferences; eauto.
Qed.

(** X12. On an engine with a well-formed matcher, valid priority
    overrides and no declared dependencies, and for a transform that
    raises nothing but instances of [Exception] that can be formatted,
    [process] returns for every text that can be encoded: the result is
    the text folded through the chain, a failing transform leaving the
    running text as it is. The chain is the kinds of the returned matches
    by descending priority, the matches of one priority in the order
    returned, each kind once; it holds none but CORRECTION, TRANSLATION,
    EXPANSION and CUSTOM, so the transform is never asked for a
    summarization or a completion. The matcher stays well formed, and the
    chain builder and the preferences are untouched. *)
Theorem process_runs_matched_kinds {S}
    (processor : text -> StrategyType -> S -> (raised + text) * S)
    t context self s key :
  matcher_wf (matcher self) ->
  overrides_valid (get_preferences self) ->
  (forall k, deps_of (chain_builder self) k = []) ->
  cache_key_of t context = inr key ->
  ordinary processor ->
  exists result matches self' s',
    process pm md5_hexdigest str_sorted_items processor t context (self, s)
    = (inr (result, matches), (self', s'))
    /\ (result, s')
       = foldl (feed processor) (t, s) (chain_of self' matches)
    /\ chain_of self' matches
       = first_occurrences
           (map strategy_type
              (by_rank (deref (store (matcher self')) matches)))
    /\ Forall matchable (chain_of self' matches)
    /\ matcher_wf (matcher self')
    /\ chain_builder self' = chain_builder self
    /\ _preferences self' = _preferences self.
Proof.
  intros Hwf Hv Hdeps Hk Hord.
  destruct (match_returns pm md5_hexdigest str_sorted_items
              t context (Some (get_preferences self)) (matcher self) key
              Hwf Hk) as (res & st' & Hcall); [by intros p [= <-]|].
  destruct (match_keeps_wf pm md5_hexdigest str_sorted_items
              t context (Some (get_preferences self)) (matcher self) Hwf)
    as (Hwf' & Hkinds).
  rewrite Hcall in Hwf', Hkinds. cbn [fst snd] in *.
  unfold process, engine_match. cbn [fst snd]. rewrite on_matcher_run.
  rewrite Hcall. cbn [fst snd].
  unfold execute_chain. rewrite execute_chain_from_fold by done.
  eexists _, res, _, _. split; [reflexivity|].
  split; [by destruct (foldl _ _ _)|].
  unfold chain_of. cbn [matcher chain_builder].
  rewrite chain_without_dependencies by done.
  rewrite by_priority_by_rank.
  split; [done|]. split; [|done].
  apply Forall_forall. intros k Hin.
  assert (Hsub : forall l, first_occurrences l ⊆ l).
  { induction l as [|x l IH]; [done|]. cbn [first_occurrences].
    intros y Hy. apply elem_of_cons in Hy as [->|Hy]; [by left|].
    apply list_elem_of_filter in Hy as [_ Hy]. right. by apply IH. }
  apply Hsub in Hin. apply list_elem_of_fmap in Hin as (m & -> & Hm).
  rewrite <- by_priority_by_rank in Hm.
  unfold by_priority in Hm. rewrite sort_desc_perm in Hm.
  unfold deref in Hm. apply list_elem_of_omap in Hm as (l & Hl & Hm).
  by apply (wf_kinds _ Hwf' l).
Qed.

End OnEngine.

(** ** The statements above on concrete runs *)

Lemma miss_result_ranked_witness :
  exists ls st',
    matcher_call teh None (Some default_preferences) init_state
    = (inr ls, st')
    /\ NoDup ls
    /\ ranked (fun l1 l2 => forall m1 m2,
                 store st' !! l1 = Some m1 -> store st' !! l2 = Some m2 ->
                 ranks_no_lower m1 m2) ls.
Proof.
  apply (miss_result_ranked (PatternMatcher_obj cjk_isalnum) plain_digest
           no_items teh None (Some default_preferences) init_state "teh").
  - vm_compute. reflexivity.
  - reflexivity.
Defined.

Lemma matcher_wf_preserved_witness : matcher_wf warmed.
Proof.
  exact (proj1 (matcher_wf_preserved (PatternMatcher_obj cjk_isalnum)
                  plain_digest no_items teh None (Some default_preferences)
                  init_state matcher_wf_init)).
Defined.

Lemma overrides_valid_critical : overrides_valid correction_critical.
Proof.
  intros k v Hk. cbv [correction_critical strategy_priorities] in Hk.
  apply lookup_singleton_Some in Hk as [_ <-]. auto.
Qed.

Lemma returns_with_valid_overrides_witness :
  exists res st',
    matcher_call teh None (Some correction_critical) init_state
    = (inr res, st').
Proof.
  apply (returns_with_valid_overrides (PatternMatcher_obj cjk_isalnum)
           plain_digest no_items teh None (Some correction_critical)
           init_state "teh").
  - apply matcher_wf_init.
  - vm_compute. reflexivity.
  - intros p [= <-]. apply overrides_valid_critical.
Defined.

Lemma warmed_wf : matcher_wf warmed.
Proof.
  exact (proj1 (match_keeps_wf (PatternMatcher_obj cjk_isalnum)
                  plain_digest no_items teh None (Some default_preferences)
                  init_state matcher_wf_init)).
Qed.

Lemma invalid_override_raises_on_hit_witness :
  (matcher_call teh None (Some correction_seven) warmed).1
  = inl (ValueError "not a valid StrategyPriority")
  /\ _match_cache (matcher_call teh None (Some correction_seven) warmed).2
     = _match_cache warmed.
Proof.
  apply (invalid_override_raises_on_hit (PatternMatcher_obj cjk_isalnum)
           plain_digest no_items teh None correction_seven warmed "teh"
           [0; 1; 2] 0 typo_match 7%Z).
  - apply warmed_wf.
  - vm_compute. reflexivity.
  - vm_compute. reflexivity.
  - apply (bool_decide_unpack _). vm_compute. exact I.
  - vm_compute. reflexivity.
  - reflexivity.
  - vm_compute. reflexivity.
  - lia.
  - lia.
  - lia.
  - lia.
  - lia.
Defined.

Lemma hit_returns_enabled_matches_witness :
  [1; 2] = filter (fun l => kept no_correction (store warmed) l = true)
             [0; 1; 2].
Proof.
  exact (proj1 (hit_returns_enabled_matches (PatternMatcher_obj cjk_isalnum)
                  plain_digest no_items teh None no_correction warmed "teh"
                  [0; 1; 2] [1; 2]
                  (matcher_call teh None (Some no_correction) warmed).2
                  ltac:(vm_compute; reflexivity)
                  ltac:(vm_compute; reflexivity)
                  ltac:(vm_compute; reflexivity))).
Defined.

Lemma first_100_characters_decide_witness :
  let st1 := (matcher_call (long_text 120%Z) None None init_state).2 in
  matcher_call (long_text 121%Z) None None st1 = (inr [], st1).
Proof.
  intros st1.
  apply (first_100_characters_decide (PatternMatcher_obj cjk_isalnum)
           plain_digest no_items (long_text 120%Z) (long_text 121%Z) None
           init_state [] st1).
  - reflexivity.
  - vm_compute. reflexivity.
Defined.

Lemma get_best_strategy_on_miss_witness :
  exists best st',
    get_best_strategy (PatternMatcher_obj cjk_isalnum) plain_digest no_items
      teh None init_state = (inr best, st')
    /\ (fun l => store st' !! l) <$> best
       = Some <$> best_without_preferences (PatternMatcher_obj cjk_isalnum)
                    teh.
Proof.
  apply (get_best_strategy_on_miss (PatternMatcher_obj cjk_isalnum)
           plain_digest no_items teh None init_state "teh").
  - vm_compute. reflexivity.
  - reflexivity.
Defined.

Lemma unread_preferences_do_not_matter_witness :
  matcher_call teh None (Some default_preferences) init_state
  = matcher_call teh None (Some learned) init_state.
Proof.
  apply (unread_preferences_do_not_matter (PatternMatcher_obj cjk_isalnum)
           plain_digest no_items teh None default_preferences learned
           init_state); reflexivity.
Defined.

Lemma new_chain_no_dependencies k : deps_of new_chain k = [].
Proof. unfold deps_of, new_chain. simpl. by rewrite lookup_empty. Qed.

Lemma build_chain_without_dependencies_witness :
  build_chain new_chain
    [expansion_match; email_match; translation_match "en-zh"; typo_match]
  = [CORRECTION; EXPANSION; TRANSLATION; CUSTOM].
Proof.
  rewrite (proj1 (build_chain_without_dependencies new_chain
                    new_chain_no_dependencies _)).
  vm_compute. reflexivity.
Defined.

Lemma select_before_match_hides_candidates_witness :
  let self1 := (engine_select teh None new_engine).2 in
  (engine_call teh None self1).1 = inr [0]
  /\ (strategy_type typo_match = CORRECTION
      \/ strategy_type typo_match = CUSTOM).
Proof.
  intros self1. split; [vm_compute; reflexivity|].
  apply (select_before_match_hides_candidates
           (PatternMatcher_obj cjk_isalnum) plain_digest no_items teh None
           new_engine "teh" (Some 0) self1 [0]
           (engine_call teh None self1).2 ltac:(vm_compute; reflexivity)
           ltac:(reflexivity) ltac:(vm_compute; reflexivity)
           ltac:(vm_compute; reflexivity) 0 typo_match).
  - by left.
  - vm_compute. reflexivity.
Defined.

Lemma process_runs_matched_kinds_witness :
  exists result matches self' s',
    process (PatternMatcher_obj cjk_isalnum) plain_digest no_items flaky
      teh None (new_engine, tt)
    = (inr (result, matches), (self', s'))
    /\ chain_of self' matches = [CORRECTION; TRANSLATION; EXPANSION]
    /\ result = text_of_string "teh!!".
Proof.
  destruct (process_runs_matched_kinds (PatternMatcher_obj cjk_isalnum)
              plain_digest no_items flaky teh None new_engine tt "teh")
    as (result & matches & self' & s' & Hrun & Hfold & _).
  - apply matcher_wf_init.
  - intros k v Hk. simpl in Hk. by rewrite lookup_empty in Hk.
  - apply new_chain_no_dependencies.
  - vm_compute. reflexivity.
  - apply flaky_ordinary.
  - exists result, matches, self', s'. split; [exact Hrun|].
    vm_compute in Hrun. injection Hrun as <- <- <- <-.
    split; vm_compute; reflexivity.
Defined.

End EngineFacts.
(** * Facts about the detectors *)

Module DetectorFacts.

Import Re PatternMatcher Chars Scenarios.

Local Open Scope Z_scope.

Section ReFacts.
Variable uni_isalnum : codepoint -> bool.
Variable ignorecase : bool.

Abbreviation amatch := (atom_matches uni_isalnum ignorecase).
Abbreviation rmatches := (matches uni_isalnum ignorecase).
Abbreviation rsearch := (search_from uni_isalnum ignorecase).

(** Searching for one character of a class is asking whether the text
    holds one. *)
Lemma search_atom a prev s :
  rsearch (Atom a) prev s = existsb (amatch a) s.
Proof.
  revert prev. induction s as [|c s IH]; intros prev; simpl; [done|].
  rewrite IH. by rewrite andb_true_r.
Qed.

(** A match that starts after a prefix is found by the search. *)
Lemma last_or_cons (c : codepoint) pre prev :
  (if last (c :: pre) is Some c0 then Some c0 else prev)
  = (if last pre is Some c0 then Some c0 else Some c).
Proof.
  destruct pre as [|c' pre]; [done|]. rewrite last_cons_cons.
  destruct (last (c' :: pre)) eqn:Hl; [done|].
  by apply last_None in Hl.
Qed.

Lemma search_from_app r pre : forall prev s,
  rmatches r accept (if last pre is Some c then Some c else prev) s = true ->
  rsearch r prev (pre ++ s) = true.
Proof.
  induction pre as [|c pre IH]; intros prev s Hm.
  - simpl in *. destruct s; simpl; by rewrite Hm.
  - rewrite last_or_cons in Hm. cbn [app search_from].
    rewrite (IH (Some c) s Hm). by rewrite orb_true_r.
Qed.

(** What a repetition that matched has consumed. *)
Lemma repeat_from_inv a lo hi k s : forall n prev,
  repeat_from uni_isalnum ignorecase a lo hi k n prev s = true ->
  exists pre post prev',
    s = pre ++ post
    /\ Forall (fun c => amatch a c = true) pre
    /\ (lo <= n + length pre)%nat
    /\ k prev' post = true.
Proof.
  induction s as [|c s IH]; intros n prev; simpl.
  - rewrite orb_false_r. intros [Hlo Hk]%andb_true_iff.
    apply bool_decide_eq_true in Hlo.
    exists [], [], prev. simpl. repeat split; [constructor|lia|done].
  - intros [[Hlo Hk]%andb_true_iff|[[Hc _]%andb_true_iff Hr]%andb_true_iff]%orb_true_iff.
    + apply bool_decide_eq_true in Hlo.
      exists [], (c :: s), prev. simpl. repeat split; [constructor|lia|done].
    + destruct (IH _ _ Hr) as (pre & post & prev' & -> & Hall & Hlen & Hk).
      exists (c :: pre), post, prev'. simpl.
      repeat split; [by constructor|lia|done].
Qed.

(** A repetition takes any run of the class that its bounds allow. *)
Lemma repeat_from_run a lo hi k pre : forall n prev post,
  Forall (fun c => amatch a c = true) pre ->
  (lo <= n + length pre)%nat ->
  (forall h, hi = Some h -> (n + length pre <= h)%nat) ->
  k (if last pre is Some c then Some c else prev) post = true ->
  repeat_from uni_isalnum ignorecase a lo hi k n prev (pre ++ post) = true.
Proof.
  induction pre as [|c pre IH]; intros n prev post Hall Hlen Hhi Hk.
  - simpl in *.
    assert (Hb : bool_decide (lo ≤ n)%nat = true)
      by (apply bool_decide_eq_true; lia).
    destruct post; simpl; by rewrite Hb, Hk.
  - apply Forall_cons in Hall as [Hc Hall].
    rewrite last_or_cons in Hk. cbn [app repeat_from]. rewrite Hc.
    simpl in Hlen, Hhi.
    assert (Hb : match hi with
                 | Some h => bool_decide (n < h)%nat
                 | None => true
                 end = true).
    { destruct hi as [h|]; [|done]. apply bool_decide_eq_true.
      specialize (Hhi h eq_refl). lia. }
    rewrite Hb.
    rewrite (IH (S n) (Some c) post Hall); [by rewrite orb_true_r|lia| |done].
    intros h Hh. specialize (Hhi h Hh). lia.
Qed.

End ReFacts.

Section Detectors.
Variable uni_isalnum : codepoint -> bool.

Lemma has_chinese_spec t :
  search uni_isalnum false (Atom chinese) t = existsb is_chinese t.
Proof. apply search_atom. Qed.

Lemma has_english_spec t :
  search uni_isalnum false (Atom english) t = existsb is_english t.
Proof. apply search_atom. Qed.

(** X13. [detect_language] answers by the characters the text holds:
    "mixed" when it holds a Chinese character (U+4E00..U+9FA5) and an
    ASCII letter, "zh" when it holds a Chinese character and no ASCII
    letter, "en" the other way round, and "unknown" when it holds
    neither, as for digits, punctuation and the empty text. *)
Theorem detect_language_by_characters t :
  detect_language uni_isalnum t
  = language_of (existsb is_chinese t) (existsb is_english t).
Proof.
  unfold detect_language, language_of.
  by rewrite has_chinese_spec, has_english_spec.
Qed.

(** One side of the mixed pattern: a run of [a], a space, a run of [b]. *)
Lemma run_space_run_inv (a b : atom) t :
  re_match uni_isalnum false
    (cat_list [Bol; plus a; Atom (Lit 32); plus b; Eol]) t = true ->
  existsb (atom_matches uni_isalnum false a) t = true
  /\ existsb (atom_matches uni_isalnum false b) t = true.
Proof.
  unfold re_match. cbn [cat_list matches plus]. intros Hm.
  apply repeat_from_inv in Hm
    as (pre & post & prev' & -> & Hpre & Hlen & Hk).
  destruct post as [|c post]; [done|].
  cbn [matches] in Hk. apply andb_true_iff in Hk as [_ Hk].
  apply repeat_from_inv in Hk
    as (pre2 & post2 & prev2 & -> & Hpre2 & Hlen2 & _).
  destruct pre as [|c1 pre]; [simpl in Hlen; lia|].
  destruct pre2 as [|c2 pre2]; [simpl in Hlen2; lia|].
  apply Forall_cons in Hpre as [H1 _]. apply Forall_cons in Hpre2 as [H2 _].
  split.
  - simpl. by rewrite H1.
  - rewrite existsb_app. apply orb_true_iff. right.
    simpl. rewrite existsb_app. simpl. rewrite H2.
    by rewrite !orb_true_r.
Qed.

Lemma run_space_run (a b : atom) pre post :
  pre <> [] -> post <> [] ->
  Forall (fun c => atom_matches uni_isalnum false a c = true) pre ->
  Forall (fun c => atom_matches uni_isalnum false b c = true) post ->
  re_match uni_isalnum false
    (cat_list [Bol; plus a; Atom (Lit 32); plus b; Eol])
    (pre ++ 32 :: post) = true.
Proof.
  intros Hpre Hpost Ha Hb.
  unfold re_match. cbn [cat_list matches plus].
  apply repeat_from_run; [done|destruct pre; [done|simpl; lia]|done|].
  cbn [matches]. simpl.
  rewrite <- (app_nil_r post).
  apply repeat_from_run; [done|destruct post; [done|simpl; lia]|done|].
  done.
Qed.

Lemma mixed_pattern_inv t :
  re_match uni_isalnum false mixed_pattern t = true ->
  existsb is_chinese t = true /\ existsb is_english t = true.
Proof.
  unfold mixed_pattern, re_match. cbn [matches].
  intros [H|H]%orb_true_iff.
  - by apply (run_space_run_inv chinese english) in H.
  - apply (run_space_run_inv english chinese) in H. tauto.
Qed.

(** X14. [detect_translation_candidate] by the characters of the text.
    Chinese characters and no ASCII letter: a candidate, "zh-en". ASCII
    letters and no Chinese character: a candidate, "en-zh". Neither: no
    candidate. Both: a candidate, "mixed", or no candidate at all, and
    never a direction; it is a candidate when the text is a run of one
    kind, one space, and a run of the other kind. *)
Theorem translation_candidate_by_language t :
  let zh := existsb is_chinese t in
  let en := existsb is_english t in
  (zh = true -> en = false ->
   detect_translation_candidate uni_isalnum t = (true, "zh-en"))
  /\ (zh = false -> en = true ->
      detect_translation_candidate uni_isalnum t = (true, "en-zh"))
  /\ (zh = false -> en = false ->
      detect_translation_candidate uni_isalnum t = (false, ""))
  /\ (zh = true -> en = true ->
      detect_translation_candidate uni_isalnum t = (true, "mixed")
      \/ detect_translation_candidate uni_isalnum t = (false, ""))
  /\ (forall a b, a <> [] -> b <> [] ->
        (Forall (fun c => is_chinese c = true) a
         /\ Forall (fun c => is_english c = true) b)
        \/ (Forall (fun c => is_english c = true) a
            /\ Forall (fun c => is_chinese c = true) b) ->
        t = a ++ 32 :: b ->
        detect_translation_candidate uni_isalnum t = (true, "mixed")).
Proof.
  simpl. unfold detect_translation_candidate.
  rewrite has_chinese_spec, has_english_spec.
  destruct (re_match uni_isalnum false mixed_pattern t) eqn:Hm.
  - apply mixed_pattern_inv in Hm as [-> ->].
    repeat split; try done. auto.
  - repeat split; try (by intros -> ->). { intros -> ->. by right. }
    intros a b Ha Hb Hruns ->. exfalso.
    unfold mixed_pattern, re_match in Hm. cbn [matches] in Hm.
    apply orb_false_iff in Hm as [H1 H2].
    destruct Hruns as [[Hza Heb]|[Hea Hzb]].
    + pose proof (run_space_run chinese english a b Ha Hb Hza Heb) as H.
      unfold re_match in H. congruence.
    + pose proof (run_space_run english chinese a b Ha Hb Hea Hzb) as H.
      unfold re_match in H. congruence.
Qed.

(** X15. Every text of 1 to 10 characters without a line feed is an
    expansion candidate, whatever its characters are. *)
Theorem short_text_is_expansion_candidate t :
  (1 <= length t <= 10)%nat ->
  Forall (fun c => c <> 10) t ->
  detect_expansion_candidate uni_isalnum t = true.
Proof.
  intros Hlen Hnl. unfold detect_expansion_candidate, short_patterns.
  cbn [existsb]. apply orb_true_iff. left.
  unfold re_match. cbn [cat_list matches].
  rewrite <- (app_nil_r t).
  unfold text, codepoint in *.
  apply repeat_from_run; unfold codepoint in *;
    [|lia|intros h [= <-]; lia|done].
  eapply Forall_impl; [exact Hnl|]. intros c Hc. simpl.
  apply negb_true_iff. by apply Z.eqb_neq.
Qed.

(** X16. A text that holds "#include", "console.log" or "print("
    anywhere, inside a word or a sentence too, is taken for code. *)
Theorem code_keyword_anywhere kw pre post :
  kw ∈ ["#include"; "console.log"; "print("] ->
  detect_code uni_isalnum (pre ++ text_of_string kw ++ post) = true.
Proof.
  intros Hkw. unfold detect_code, code_patterns, search, re_search.
  cbn [existsb].
  repeat (apply elem_of_cons in Hkw as [->|Hkw]);
    [| | |by apply elem_of_nil in Hkw].
  - do 7 (apply orb_true_iff; right). apply orb_true_iff. left.
    apply search_from_app. by destruct (last pre).
  - do 8 (apply orb_true_iff; right). apply orb_true_iff. left.
    apply search_from_app. by destruct (last pre).
  - do 9 (apply orb_true_iff; right). apply orb_true_iff. left.
    apply search_from_app. by destruct (last pre).
Qed.

End Detectors.

Lemma short_text_is_expansion_candidate_witness :
  detect_expansion_candidate cjk_isalnum (text_of_string "ok then") = true.
Proof.
  apply (short_text_is_expansion_candidate cjk_isalnum
           (text_of_string "ok then")).
  - simpl. lia.
  - repeat constructor; discriminate.
Defined.

Lemma code_keyword_anywhere_witness :
  detect_code cjk_isalnum
    (text_of_string "blueprint(" ++ text_of_string "s) of the house") = true.
Proof.
  apply (code_keyword_anywhere cjk_isalnum "print(" (text_of_string "blue")
           (text_of_string "s) of the house")).
  apply (bool_decide_unpack _). vm_compute. exact I.
Defined.

End DetectorFacts.
(** * More facts about the providers *)

Module StreamingFacts.

Import Providers Scenarios Streaming Runs ProviderFacts.
Local Open Scope Z_scope.

Section CompleteFacts2.
Variable network : nat -> Request -> http_result.

Lemma known_variant_status v status body attempt w :
  known_variant v ->
  exists r sleeps,
    on_error_status v status body attempt w
    = (r, {| http_calls := http_calls w;
             trace := trace w ++ map EvSleep sleeps |}).
Proof.
  assert (Hw : forall r, (r, w) = (r : outcome unit,
            {| http_calls := http_calls w;
               trace := trace w ++ map EvSleep [] |})).
  { intros r. destruct w. simpl. by rewrite app_nil_r. }
  assert (Hb : forall name, exists r sleeps,
            backoff_on_429 name status body attempt w
            = (r, {| http_calls := http_calls w;
                     trace := trace w ++ map EvSleep sleeps |})).
  { intros name. unfold backoff_on_429, bind, lift, raise.
    destruct (response_json body) as [e|d]; [by eexists _, []|].
    destruct (get_method d "error" (JObj [])) as [e|d']; [by eexists _, []|].
    destruct (get_method d' "message" _) as [e|msg]; [by eexists _, []|].
    case_decide; [|by eexists _, []].
    by eexists _, [_]. }
  intros [->|[->| ->]]; simpl; [apply Hb|apply Hb|].
  unfold raise_on_status, raise. by eexists _, [].
Qed.

Lemma posts_sleeps sleeps : posts (map EvSleep sleeps) = [].
Proof. induction sleeps; [done|]. by simpl. Qed.

(** Whatever the network answers, the loop makes at most [remaining]
    requests, all of them the request it was given. *)
Lemma attempts_bound v config req remaining : forall attempt w,
  known_variant v ->
  exists evs,
    trace (attempts network v config req remaining attempt w).2
    = trace w ++ evs
    /\ http_calls (attempts network v config req remaining attempt w).2
       = (http_calls w + length (posts evs))%nat
    /\ (length (posts evs) <= remaining)%nat
    /\ Forall (fun r => r = req) (posts evs).
Proof.
  induction remaining as [|remaining IH]; intros attempt w Hv.
  - exists []. simpl. rewrite app_nil_r, Nat.add_0_r. by repeat split.
  - set (P := fun x : outcome ChatCompletion * world =>
              exists evs, trace x.2 = trace w ++ evs
                /\ http_calls x.2 = (http_calls w + length (posts evs))%nat
                /\ (length (posts evs) <= S remaining)%nat
                /\ Forall (fun r => r = req) (posts evs)).
    change (P (attempts network v config req (S remaining) attempt w)).
    cbn [attempts]. unfold bind at 1, post at 1.
    set (w1 := {| http_calls := S (http_calls w);
                  trace := trace w ++ [EvPost req] |}).
    assert (Hstops : forall x sleeps,
              x.2 = {| http_calls := http_calls w1;
                       trace := trace w1 ++ map EvSleep sleeps |} -> P x).
    { intros x sleeps Hx. exists (EvPost req :: map EvSleep sleeps).
      rewrite Hx. simpl. rewrite posts_sleeps. simpl.
      repeat split; [by rewrite <- app_assoc|lia|lia|by repeat constructor]. }
    assert (Hstop : forall x, x.2 = w1 -> P x).
    { intros x Hx. apply (Hstops x []). rewrite Hx. simpl.
      by rewrite app_nil_r. }
    assert (Hgo : forall sleeps attempt',
              P (attempts network v config req remaining attempt'
                   {| http_calls := http_calls w1;
                      trace := trace w1 ++ map EvSleep sleeps |})).
    { intros sleeps attempt'.
      destruct (IH attempt' {| http_calls := http_calls w1;
                               trace := trace w1 ++ map EvSleep sleeps |} Hv)
        as (evs & Htr & Hc & Hlen & Hall).
      exists (EvPost req :: map EvSleep sleeps ++ evs).
      rewrite Htr, Hc. simpl.
      unfold posts. rewrite omap_app. fold (posts (map EvSleep sleeps)).
      fold (posts evs). rewrite posts_sleeps. simpl.
      repeat split; [by rewrite <- !app_assoc|lia|lia|by constructor]. }
    destruct (network (http_calls w) req) as [status body|e].
    + case_decide.
      * apply Hstop. unfold bind, lift.
        by destruct (response_json body).
      * unfold bind at 1.
        destruct (known_variant_status v status body attempt w1 Hv)
          as (r & sleeps & ->).
        destruct r as [e|[]]; [by apply (Hstops _ sleeps)|apply Hgo].
    + destruct e; try (by apply Hstop).
      case_decide; [|by apply Hstop].
      unfold bind, sleep. apply (Hgo [1]).
Qed.

(** X17. Whatever the server answers, [complete] of the three provider
    classes sends at most [retry_count] requests, every one of them the
    request built from the messages, and does nothing else than sending
    them and sleeping. *)
Theorem complete_request_bound v config messages stream w :
  known_variant v ->
  let req := request v config messages stream in
  let run := complete network v config messages stream w in
  exists evs,
    trace run.2 = trace w ++ evs
    /\ http_calls run.2 = (http_calls w + length (posts evs))%nat
    /\ (length (posts evs) <= Z.to_nat (retry_count config))%nat
    /\ Forall (fun r => r = req) (posts evs).
Proof. intros Hv. apply attempts_bound. exact Hv. Qed.


(** [k] attempts that time out, none of them the last one, use up [k]
    turns of the loop. *)
Lemma attempts_timeouts v config req n k : forall attempt w,
  (forall i, (i < k)%nat ->
             network (http_calls w + i) req = Raises TimeoutException) ->
  attempt + Z.of_nat k <= retry_count config - 1 ->
  attempts network v config req (k + n) attempt w
  = attempts network v config req n (attempt + Z.of_nat k)
      (after w k (timeout_trace req k)).
Proof.
  induction k as [|k IH]; intros attempt w Hnet Hlast.
  - simpl. by rewrite Z.add_0_r, after_0.
  - pose proof (Hnet 0%nat ltac:(lia)) as Hr. rewrite Nat.add_0_r in Hr.
    cbn [Nat.add attempts]. unfold bind at 1, post at 1. rewrite Hr.
    rewrite decide_True by lia.
    unfold bind at 1, sleep at 1. rewrite IH.
    + simpl. unfold after. simpl. f_equal; [lia|].
      f_equal; [lia|]. by rewrite <- !app_assoc.
    + intros i Hi. cbn [http_calls]. specialize (Hnet (S i)).
      rewrite Nat.add_succ_r in Hnet. apply Hnet. lia.
    + lia.
Qed.

(** X18. A request that times out is sent again after one second, as long
    as it was not the last attempt. When the first [k] requests time out
    and the next one is answered 200 with a body that holds a completion,
    [complete] returns that completion after [k + 1] requests, for every
    [k] below [retry_count]; when all [retry_count] requests time out, the
    time-out is raised after [retry_count] requests and
    [retry_count - 1] sleeps. *)
Theorem timeout_is_retried v config messages stream w n :
  retry_count config = Z.of_nat n ->
  (1 <= n)%nat ->
  let req := request v config messages stream in
  let run := complete network v config messages stream w in
  (forall k data completion,
     (k < n)%nat ->
     (forall i, (i < k)%nat ->
                network (http_calls w + i) req = Raises TimeoutException) ->
     network (http_calls w + k) req = Response 200 (Some data) ->
     parse_success v (model_name v config) data = inr completion ->
     run = (inr completion,
            after w (S k) (timeout_trace req k ++ [EvPost req])))
  /\ ((forall i, (i < n)%nat ->
                 network (http_calls w + i) req = Raises TimeoutException) ->
      run = (inl TimeoutException,
             after w n (timeout_trace req (n - 1) ++ [EvPost req]))).
Proof.
  intros Hn Hn1 req run. subst run. unfold complete. fold req.
  rewrite Hn, Nat2Z.id. split.
  - intros k data completion Hk Hnet Hlast Hparse.
    replace n with (k + S (n - k - 1))%nat at 1 by lia.
    rewrite attempts_timeouts by (done || lia).
    cbn [attempts]. unfold bind at 1, post at 1, after at 1 2. simpl.
    rewrite Hlast. rewrite decide_True by done.
    unfold bind, lift, after. simpl. rewrite Hparse.
    f_equal. f_equal; [lia|by rewrite <- app_assoc].
  - intros Hnet.
    replace n with ((n - 1) + 1)%nat at 1 by lia.
    rewrite attempts_timeouts by (lia || (intros; apply Hnet; lia)).
    cbn [attempts]. unfold bind at 1, post at 1, after at 1 2. simpl.
    rewrite Hnet by lia. rewrite decide_False by lia.
    unfold raise, after. simpl.
    f_equal. f_equal; [lia|by rewrite <- app_assoc].
Qed.

(** A completion that the loop returns was parsed from the body of a 200
    answer to the last request made. *)
Lemma attempts_sound v config req remaining : forall attempt w c,
  known_variant v ->
  (attempts network v config req remaining attempt w).1 = inr c ->
  exists n data,
    (http_calls w <= n)%nat
    /\ http_calls (attempts network v config req remaining attempt w).2 = S n
    /\ network n req = Response 200 (Some data)
    /\ parse_success v (model_name v config) data = inr c.
Proof.
  induction remaining as [|remaining IH]; intros attempt w c Hv; [done|].
  set (P := fun x : outcome ChatCompletion * world =>
              x.1 = inr c ->
              exists n data,
                (http_calls w <= n)%nat
                /\ http_calls x.2 = S n
                /\ network n req = Response 200 (Some data)
                /\ parse_success v (model_name v config) data = inr c).
  change (P (attempts network v config req (S remaining) attempt w)).
  cbn [attempts]. unfold bind at 1, post at 1.
  set (w1 := {| http_calls := S (http_calls w);
                trace := trace w ++ [EvPost req] |}).
  assert (Hgo : forall w',
    http_calls w' = http_calls w1 ->
    P (attempts network v config req remaining (attempt + 1) w')).
  { intros w' Hw' Hc. destruct (IH _ _ _ Hv Hc) as (n & data & Hle & H').
    exists n, data. split; [|done]. rewrite Hw' in Hle. simpl in Hle. lia. }
  destruct (network (http_calls w) req) as [status body|e] eqn:Hnet.
  - case_decide as Hs.
    + subst status. unfold bind, lift.
      destruct body as [data|]; [|done]. simpl.
      destruct (parse_success v (model_name v config) data) eqn:Hp; [done|].
      intros [= ->]. exists (http_calls w), data.
      repeat split; [simpl; lia|done..].
    + unfold bind at 1.
      destruct (known_variant_status v status body attempt w1 Hv)
        as (r & sleeps & ->).
      destruct r as [e|[]]; [done|]. by apply Hgo.
  - destruct e; try done.
    case_decide; [|done]. unfold bind, sleep. by apply Hgo.
Qed.

(** X19. A completion that [complete] returns was parsed from the body of
    a response with status 200, and that response answered the last
    request [complete] sent. *)
Theorem completion_comes_from_a_200 v config messages stream w c :
  known_variant v ->
  let req := request v config messages stream in
  let run := complete network v config messages stream w in
  run.1 = inr c ->
  exists n data,
    (http_calls w <= n)%nat
    /\ http_calls run.2 = S n
    /\ network n req = Response 200 (Some data)
    /\ parse_success v (model_name v config) data = inr c.
Proof. intros Hv req run. by apply attempts_sound. Qed.

(** X20. A response with a status other than 200 is not retried, 429
    apart for the OpenAI and the Anthropic provider: [complete] raises
    after that one request, without sleeping, whatever [retry_count] is.
    The local provider raises "Local API error: <status>"; the other two
    raise "<name> API error: <message>" when the body holds a readable
    error message. *)
Theorem error_status_is_not_retried v config messages stream w status body :
  known_variant v ->
  0 < retry_count config ->
  let req := request v config messages stream in
  let run := complete network v config messages stream w in
  network (http_calls w) req = Response status body ->
  status <> 200 ->
  v = LocalProvider \/ status <> 429 ->
  (exists e, run = (inl e, after w 1 [EvPost req]))
  /\ (v = LocalProvider ->
      run.1 = inl (Exception "Local API error: " [JInt status]))
  /\ (forall msg, read_error_message body = inr msg ->
      (v = OpenAIProvider ->
       run.1 = inl (Exception "OpenAI API error: " [msg]))
      /\ (v = AnthropicProvider ->
          run.1 = inl (Exception "Anthropic API error: " [msg]))).
Proof.
  intros Hv Hrc req run Hnet H200 H429. subst run. unfold complete. fold req.
  destruct (Z.to_nat (retry_count config)) as [|n] eqn:Hn; [lia|].
  set (w1 := {| http_calls := S (http_calls w);
                trace := trace w ++ [EvPost req] |}).
  assert (Hw1 : after w 1 [EvPost req] = w1).
  { unfold after, w1. f_equal. lia. }
  assert (Hrun : attempts network v config req (S n) 0 w
            = let '(o, s') := on_error_status v status body 0 w1 in
              match o with
              | inl e => (inl e, s')
              | inr _ => attempts network v config req n (0 + 1) s'
              end).
  { cbn [attempts]. unfold bind at 1, post at 1. rewrite Hnet.
    by rewrite decide_False by done. }
  rewrite Hrun, Hw1. clear Hrun.
  assert (Hb : forall name, status <> 429 ->
    exists e,
      backoff_on_429 name status body 0 w1 = (inl e, w1)
      /\ forall msg, read_error_message body = inr msg ->
           e = Exception (name +:+ " API error: ") [msg]).
  { intros name Hs. unfold backoff_on_429, read_error_message, obind,
      bind, lift, raise.
    destruct (response_json body) as [e|d]; [by eexists|].
    destruct (get_method d "error" (JObj [])) as [e|d']; [by eexists|].
    destruct (get_method d' "message" _) as [e|msg]; [by eexists|].
    rewrite decide_False by done. eexists. split; [done|].
    by intros ? [= ->]. }
  destruct Hv as [->|[->| ->]]; cbn [on_error_status OpenAIProvider
    AnthropicProvider LocalProvider].
  - destruct H429 as [?|Hs]; [done|].
    destruct (Hb "OpenAI" Hs) as (e & -> & Hmsg).
    split; [by eexists|]. split; [done|].
    intros msg Hm. split; [|done]. intros _. by rewrite (Hmsg msg Hm).
  - destruct H429 as [?|Hs]; [done|].
    destruct (Hb "Anthropic" Hs) as (e & -> & Hmsg).
    split; [by eexists|]. split; [done|].
    intros msg Hm. split; [done|]. intros _. by rewrite (Hmsg msg Hm).
  - unfold raise_on_status, raise.
    split; [by eexists|]. split; [done|]. by intros msg Hm.
Qed.

End CompleteFacts2.

Section StreamFacts.

Variable json_loads : text -> option json.

Lemma startswith_data_line data :
  startswith (text_of_string "data: ") (data_line data) = true.
Proof. reflexivity. Qed.

Lemma drop_data_line data : drop 6 (data_line data) = data.
Proof. reflexivity. Qed.

(** X21. The line "data: [DONE]" ends the stream: the lines after it are
    not read, and an error that reading the response would end with is
    never met. What the stream yields is what the lines before the mark
    yield. *)
Theorem done_ends_the_stream pre rest ending :
  sse_loop json_loads
    (pre ++ data_line (text_of_string "[DONE]") :: rest) ending
  = sse_loop json_loads pre None.
Proof.
  induction pre as [|line pre IH].
  - cbn [app sse_loop]. rewrite startswith_data_line, drop_data_line.
    by rewrite decide_True.
  - cbn [app sse_loop]. rewrite IH. reflexivity.
Qed.

(** X22. The loop passes over a line that does not start with "data: ",
    over a data line whose payload is no JSON, and over a chunk whose
    content is empty or absent: with or without such a line, wherever it
    stands, the stream yields the same chunks and ends the same way. *)
Theorem ignored_line_is_skipped pre line rest ending :
  ignored json_loads line ->
  sse_loop json_loads (pre ++ line :: rest) ending
  = sse_loop json_loads (pre ++ rest) ending.
Proof.
  intros Hline. induction pre as [|line' pre IH].
  - cbn [app sse_loop].
    destruct Hline as [->|(Hdone & Hline)]; [done|].
    destruct (startswith _ line); [|done].
    rewrite decide_False by done.
    destruct Hline as [->|(chunk & content & -> & -> & ->)]; done.
  - cbn [app sse_loop]. by rewrite IH.
Qed.

(** Lines that carry contents yield the contents that are not empty, and
    the loop goes on with the lines after them. *)
Lemma sse_loop_carried datas contents rest ending :
  Forall2 (carries json_loads) datas contents ->
  sse_loop json_loads (map data_line datas ++ rest) ending
  = (filter (fun c => truthy c = true) contents
     ++ (sse_loop json_loads rest ending).1,
     (sse_loop json_loads rest ending).2).
Proof.
  induction 1 as [|data content datas contents Hc _ IH].
  - cbn [map app filter]. by destruct (sse_loop json_loads rest ending).
  - destruct Hc as (Hdone & chunk & Hload & Hdelta).
    cbn [map app sse_loop]. rewrite startswith_data_line, drop_data_line.
    rewrite decide_False by done. rewrite Hload, Hdelta, IH.
    rewrite filter_cons. destruct (truthy content) eqn:Ht.
    + by rewrite decide_True.
    + by rewrite decide_False.
Qed.

Variable network : nat -> Request -> http_result.
Variable stream_network : nat -> Request -> list text * option exn.

(** X23. [stream_complete] sends one request, whatever comes back, and
    never sends it again. When the response starts with lines that each
    carry a chunk, the stream yields the contents of those chunks that are
    not empty, in order. It then ends as the response ends when no line is
    left (an error of the connection reaches the caller); it is exhausted
    at "data: [DONE]"; and at a line whose JSON has not the shape of a
    chunk it raises the lookup error, which the handler for malformed JSON
    does not catch. *)
Theorem stream_complete_yields v config messages w datas contents lines
    ending :
  let req := request v config messages true in
  let run := stream_complete json_loads stream_network v config messages w in
  let chunks := filter (fun c => truthy c = true) contents in
  stream_network (http_calls w) req = (map data_line datas ++ lines, ending) ->
  Forall2 (carries json_loads) datas contents ->
  run.2 = after w 1 [EvPost req]
  /\ (lines = [] -> run.1 = (chunks, ending))
  /\ (forall rest, lines = data_line (text_of_string "[DONE]") :: rest ->
        run.1 = (chunks, None))
  /\ (forall data chunk e rest,
        lines = data_line data :: rest ->
        data <> text_of_string "[DONE]" ->
        json_loads data = Some chunk ->
        delta_content chunk = inl e ->
        run.1 = (chunks, Some e)).
Proof.
  intros req run chunks Hnet Hcarried. subst run. unfold stream_complete.
  fold req. rewrite Hnet. cbn [fst snd].
  rewrite (sse_loop_carried _ _ _ _ Hcarried). fold chunks.
  split; [unfold after; f_equal; lia|]. split; [|split].
  - intros ->. cbn [sse_loop fst snd]. by rewrite app_nil_r.
  - intros rest ->. cbn [sse_loop].
    rewrite startswith_data_line, drop_data_line.
    rewrite decide_True by done. cbn [fst snd]. by rewrite app_nil_r.
  - intros data chunk e rest -> Hdone Hload Hdelta. cbn [sse_loop].
    rewrite startswith_data_line, drop_data_line.
    rewrite decide_False by done. rewrite Hload, Hdelta. cbn [fst snd].
    by rewrite app_nil_r.
Qed.

(** X24. [test_connection] never raises and sends exactly one request; it
    returns [True] when that request is answered with status 200, whatever
    the body, and [False] on any other status and on any exception of the
    request. *)
Theorem test_connection_never_raises v config w :
  exists b,
    test_connection network v config w
    = (inr b, after w 1 [EvPost (test_request v config)])
    /\ (b = true <->
        exists body,
          network (http_calls w) (test_request v config) = Response 200 body).
Proof.
  unfold test_connection, try_except, bind, post, ret, raise.
  assert (Hw : {| http_calls := S (http_calls w);
                  trace := trace w ++ [EvPost (test_request v config)] |}
               = after w 1 [EvPost (test_request v config)]).
  { unfold after. f_equal. lia. }
  destruct (network (http_calls w) (test_request v config))
    as [status body|e]; simpl; rewrite Hw.
  - eexists. split; [done|]. rewrite bool_decide_eq_true. split.
    + intros ->. by eexists.
    + by intros [? [= ->]].
  - exists false. split; [done|]. split; [done|]. by intros [? ?].
Qed.

End StreamFacts.

Section ManagerFacts2.

Context {W : Type}.
Implicit Types (self : ProviderManager W) (p : AIProvider W).

(** X25. When the active provider returns, [complete_with_fallback]
    returns its completion and the fallback provider is not called; when
    the active provider raises and no fallback is configured and
    registered, its error reaches the caller unchanged. In both cases the
    active provider is the only one called, once. *)
Theorem active_outcome_without_fallback self messages stream mw active r w1 :
  get_active_provider self = Some active ->
  provider_complete active messages stream (ext mw) = (r, w1) ->
  (forall e, r = inl e -> get_fallback_provider self = None) ->
  complete_with_fallback self messages stream mw
  = (r, {| ext := w1;
           calls := calls mw ++ [CallComplete (provider_type active)] |}).
Proof.
  intros Ha Hc Hf. unfold complete_with_fallback, try_except, invoke_complete.
  rewrite Ha, Hc. destruct r as [e|c]; [|done].
  by rewrite (Hf e eq_refl).
Qed.

(** X26. When the stream of the active provider raises after some chunks
    and a fallback is configured and registered, [stream_with_fallback]
    yields those chunks and then the whole stream of the fallback from its
    start, and ends as the fallback ends: what the active provider had
    already produced is not taken back, and an error of the fallback
    reaches the caller. *)
Theorem fallback_stream_follows_partial_output self messages mw
    active fallback chunks e w1 chunks' ending w2 :
  get_active_provider self = Some active ->
  get_fallback_provider self = Some fallback ->
  provider_stream_complete active messages (ext mw)
  = ((chunks, Some e), w1) ->
  provider_stream_complete fallback messages w1 = ((chunks', ending), w2) ->
  stream_with_fallback self messages mw
  = ((chunks ++ chunks', ending),
     {| ext := w2;
        calls := calls mw ++ [CallStream (provider_type active);
                              CallStream (provider_type fallback)] |}).
Proof.
  intros Ha Hf Hs Hs'. unfold stream_with_fallback, invoke_stream.
  rewrite Ha, Hs, Hf. simpl. rewrite Hs'. by rewrite <- app_assoc.
Qed.

(** Registering a provider of the kind that is active, or the fallback,
    replaces that provider. *)
Lemma register_replaces_same_kind self p :
  get_active_provider (register_provider p self)
  = (if decide (_active_provider self = Some (provider_type p)) then Some p
     else get_active_provider self)
  /\ get_fallback_provider (register_provider p self)
     = (if decide (_fallback_provider self = Some (provider_type p))
        then Some p
        else get_fallback_provider self).
Proof.
  unfold get_active_provider, get_fallback_provider, register_provider.
  simpl. split.
  - destruct (_active_provider self) as [k|]; [|done].
    case_decide as Hk.
    + injection Hk as Hk. subst k. by rewrite lookup_insert_eq.
    + rewrite lookup_insert_ne; [done|]. intros Heq. by rewrite Heq in Hk.
  - destruct (_fallback_provider self) as [k|]; [|done].
    case_decide as Hk.
    + injection Hk as Hk. subst k. by rewrite lookup_insert_eq.
    + rewrite lookup_insert_ne; [done|]. intros Heq. by rewrite Heq in Hk.
Qed.

Lemma configured_inv self :
  configured self ->
  (forall k p, _providers self !! k = Some p -> provider_type p = k)
  /\ (forall k, _active_provider self = Some k ->
        is_Some (_providers self !! k))
  /\ (forall k, _fallback_provider self = Some k ->
        is_Some (_providers self !! k)).
Proof.
  induction 1 as [|p self _ (IHr & IHa & IHf)
                  |k self self' _ (IHr & IHa & IHf) Hset
                  |k self self' _ (IHr & IHa & IHf) Hset].
  - repeat split; intros; simplify_eq; by rewrite ?lookup_empty in *.
  - unfold register_provider. simpl. split; [|split].
    + intros k p' Hk. destruct (decide (provider_type p = k)) as [<-|Hne].
      * rewrite lookup_insert_eq in Hk. by injection Hk as <-.
      * rewrite lookup_insert_ne in Hk by done. by apply IHr.
    + intros k Hk. destruct (decide (provider_type p = k)) as [<-|Hne].
      * by rewrite lookup_insert_eq.
      * rewrite lookup_insert_ne by done. by apply IHa.
    + intros k Hk. destruct (decide (provider_type p = k)) as [<-|Hne].
      * by rewrite lookup_insert_eq.
      * rewrite lookup_insert_ne by done. by apply IHf.
  - unfold set_active_provider in Hset.
    destruct (_providers self !! k) as [p|] eqn:Hp; [|done].
    injection Hset as <-. simpl. split; [done|]. split; [|done].
    intros k' [= <-]. by rewrite Hp.
  - unfold set_fallback_provider in Hset.
    destruct (_providers self !! k) as [p|] eqn:Hp; [|done].
    injection Hset as <-. simpl. split; [done|]. split; [done|].
    intros k' [= <-]. by rewrite Hp.
Qed.

(** X27. A manager built by its methods alone ([ProviderManager()],
    [register_provider], [set_active_provider] and [set_fallback_provider]
    calls that returned) never names a provider it does not hold: when an
    active kind is set [get_active_provider] returns a provider, and it is
    of that kind; the same for the fallback. The case "configured but not
    registered" cannot be reached, as nothing removes a provider. *)
Theorem configured_providers_are_registered self :
  configured self ->
  (forall k, _active_provider self = Some k ->
     exists p, get_active_provider self = Some p /\ provider_type p = k)
  /\ (forall k, _fallback_provider self = Some k ->
        exists p, get_fallback_provider self = Some p /\ provider_type p = k).
Proof.
  intros Hc. destruct (configured_inv self Hc) as (Hr & Ha & Hf).
  unfold get_active_provider, get_fallback_provider. split.
  - intros k Hk. rewrite Hk. destruct (Ha k Hk) as [p Hp].
    exists p. split; [done|]. by apply Hr.
  - intros k Hk. rewrite Hk. destruct (Hf k Hk) as [p Hp].
    exists p. split; [done|]. by apply Hr.
Qed.

End ManagerFacts2.

(** ** The statements above on concrete runs *)

Lemma complete_request_bound_witness :
  let req := request OpenAIProvider (test_config OPENAI 3) user_hello false in
  let run := complete (busy_then_ok 2) OpenAIProvider (test_config OPENAI 3)
               user_hello false new_world in
  exists evs,
    trace run.2 = trace new_world ++ evs
    /\ http_calls run.2 = (http_calls new_world + length (posts evs))%nat
    /\ (length (posts evs) <= Z.to_nat (retry_count (test_config OPENAI 3)))%nat
    /\ Forall (fun r => r = req) (posts evs).
Proof.
  apply (complete_request_bound (busy_then_ok 2) OpenAIProvider
           (test_config OPENAI 3) user_hello false new_world).
  by left.
Defined.

Lemma timeout_is_retried_witness :
  let config := test_config LOCAL 3 in
  let run := complete (slow_then_ok 2) LocalProvider config user_hello false
               new_world in
  run.1 = inr {| completion_content := hello; completion_model := "llama3";
                 usage := Some (JObj []); raw_response := Some ok_body |}
  /\ http_calls run.2 = 3%nat
  /\ delays (trace run.2) = [1; 1].
Proof.
  intros config run. subst run.
  destruct (timeout_is_retried (slow_then_ok 2) LocalProvider config
              user_hello false new_world 3) as [Hok _];
    [reflexivity|lia|].
  rewrite (Hok 2%nat ok_body
             {| completion_content := hello; completion_model := "llama3";
                usage := Some (JObj []); raw_response := Some ok_body |}).
  - repeat split.
  - lia.
  - intros i Hi. unfold slow_then_ok. simpl. by rewrite decide_True by lia.
  - reflexivity.
  - reflexivity.
Defined.

Lemma completion_comes_from_a_200_witness :
  let config := test_config OPENAI 3 in
  let req := request OpenAIProvider config user_hello false in
  let run := complete (busy_then_ok 2) OpenAIProvider config user_hello false
               new_world in
  exists n data,
    (http_calls new_world <= n)%nat
    /\ http_calls run.2 = S n
    /\ busy_then_ok 2 n req = Response 200 (Some data)
    /\ parse_success OpenAIProvider (model_name OpenAIProvider config) data
       = inr {| completion_content := hello;
                completion_model := "gpt-3.5-turbo";
                usage := Some (JObj []); raw_response := Some ok_body |}.
Proof.
  apply (completion_comes_from_a_200 (busy_then_ok 2) OpenAIProvider
           (test_config OPENAI 3) user_hello false new_world).
  - by left.
  - vm_compute. reflexivity.
Defined.

Lemma error_status_is_not_retried_witness :
  let run := complete unavailable OpenAIProvider (test_config OPENAI 3)
               user_hello false new_world in
  run.1 = inl (Exception "OpenAI API error: "
                 [JStr (text_of_string "overloaded")])
  /\ http_calls run.2 = 1%nat.
Proof.
  destruct (error_status_is_not_retried unavailable OpenAIProvider
              (test_config OPENAI 3) user_hello false new_world 503
              (Some (JObj [("error",
                            JObj [("message",
                                   JStr (text_of_string "overloaded"))])])))
    as ([e He] & _ & Hmsg).
  - by left.
  - reflexivity.
  - reflexivity.
  - lia.
  - right. lia.
  - destruct (Hmsg (JStr (text_of_string "overloaded")) eq_refl) as [Ho _].
    cbv zeta. split; [by apply Ho|]. by rewrite He.
Defined.

Lemma ignored_line_is_skipped_witness :
  sse_loop word_loads
    ([data_line (text_of_string "hel")] ++ text_of_string ": keep-alive"
     :: [data_line (text_of_string "lo")]) None
  = sse_loop word_loads
      ([data_line (text_of_string "hel")] ++ [data_line (text_of_string "lo")])
      None.
Proof.
  apply (ignored_line_is_skipped word_loads
           [data_line (text_of_string "hel")] (text_of_string ": keep-alive")
           [data_line (text_of_string "lo")] None).
  left. reflexivity.
Defined.

Lemma stream_complete_yields_witness :
  (stream_complete word_loads two_chunks OpenAIProvider (test_config OPENAI 3)
     user_hello new_world).1
  = ([JStr (text_of_string "hel"); JStr (text_of_string "lo")], None).
Proof.
  destruct (stream_complete_yields word_loads two_chunks OpenAIProvider
              (test_config OPENAI 3) user_hello new_world
              [text_of_string "hel"; text_of_string "lo"]
              [JStr (text_of_string "hel"); JStr (text_of_string "lo")]
              [data_line (text_of_string "[DONE]");
               data_line (text_of_string "x")]
              (Some TimeoutException)) as (_ & _ & Hdone & _).
  - reflexivity.
  - repeat constructor; try discriminate; by eexists.
  - by apply (Hdone [data_line (text_of_string "x")]).
Defined.

Lemma active_outcome_without_fallback_witness :
  complete_with_fallback
    (manager_of (answering OPENAI) (Some (failing LOCAL "down")))
    user_hello false start
  = (inr {| completion_content := hello; completion_model := "m";
            usage := None; raw_response := None |},
     {| ext := tt; calls := [CallComplete OPENAI] |}).
Proof.
  apply (active_outcome_without_fallback
           (manager_of (answering OPENAI) (Some (failing LOCAL "down")))
           user_hello false start (answering OPENAI)).
  - reflexivity.
  - reflexivity.
  - discriminate.
Defined.

Lemma fallback_stream_follows_partial_output_witness :
  stream_with_fallback both_answering user_hello start
  = (([text_of_string "hel"; text_of_string "hel"; text_of_string "lo"],
      None),
     {| ext := tt; calls := [CallStream OPENAI; CallStream LOCAL] |}).
Proof.
  apply (fallback_stream_follows_partial_output both_answering user_hello
           start (breaking OPENAI) (answering LOCAL) [text_of_string "hel"]
           (Exception "connection lost" []) tt
           [text_of_string "hel"; text_of_string "lo"] None tt);
    reflexivity.
Defined.

Lemma both_answering_configured : configured both_answering.
Proof.
  apply (configured_fallback LOCAL
           (register_provider (answering LOCAL)
              (manager_of (breaking OPENAI) None))); [|reflexivity].
  apply configured_register.
  apply (configured_active OPENAI
           (register_provider (breaking OPENAI) new_manager)); [|reflexivity].
  apply configured_register, configured_new.
Qed.

Lemma configured_providers_are_registered_witness :
  exists p, get_active_provider both_answering = Some p
            /\ provider_type p = OPENAI.
Proof.
  apply (proj1 (configured_providers_are_registered both_answering
                  both_answering_configured) OPENAI).
  reflexivity.
Defined.

End StreamingFacts.
(** * Facts about the text processor *)

Module TextFacts.
Import Providers TextProcessor Scenarios Runs.
Local Open Scope Z_scope.

Section Methods.
Context {W : Type}.
Variable uni_isalnum : codepoint -> bool.
Variable str_strip : text -> text.
Variable exn_str : exn -> text.
Variable float_format : Q -> text.

Implicit Types (self : TextProcessor W) (pipeline : TextProcessingPipeline W).

Lemma ask_answers self t prompt kind failed conf meta :
  answers str_strip exn_str self t kind conf failed
    (ask str_strip exn_str self t prompt kind failed conf meta).
Proof.
  intros w. unfold ask.
  destruct (get_active_provider (provider_manager self)) as [provider|].
  - unfold try_except, bind, lift, ret.
    destruct (provider_complete provider _ false w) as [[e|c] w'] eqn:Hrun.
    + eexists _, _. split; [reflexivity|]. split; [done|]. split; [done|].
      exists prompt. rewrite Hrun. done.
    + destruct (completion_content c) as [| | | |s| |] eqn:Hcontent; simpl;
        (eexists _, _; split; [reflexivity|]; split; [done|];
         split; [done|];
         exists prompt; rewrite Hrun; simpl; rewrite Hcontent);
        done.
  - eexists _, _. split; [reflexivity|]. done.
Qed.

(** X28. [correct], [expand], [translate] and [summarize] never raise.
    Each returns a result for the text it was given, of its own kind.
    Without an active provider the result is the placeholder and no
    provider is called. Otherwise the active provider, and never the
    fallback, is asked once, without streaming. When it returns a
    completion whose content is a string, the confidence of the result is
    0.9 for [correct] and [translate] and 0.85 for [expand] and
    [summarize], and the processed text is that string, stripped. When it
    raises, or when the content is no string, the confidence is 0, there
    is no metadata, and the processed text is the failure text of the
    method around the exception as [str] renders it. *)
Theorem methods_answer self t :
  (forall language,
     answers str_strip exn_str self t "correction" (9 # 10)
       correction_failed
       (correct uni_isalnum str_strip exn_str self t language))
  /\ (forall ratio preserve_style,
        answers str_strip exn_str self t "expansion" (85 # 100)
          expansion_failed
          (expand str_strip exn_str float_format self t ratio preserve_style))
  /\ (forall direction,
        answers str_strip exn_str self t "translation" (9 # 10)
          translation_failed
          (translate str_strip exn_str self t direction))
  /\ (forall target_length method,
        answers str_strip exn_str self t "summarization" (85 # 100)
          summarization_failed
          (summarize str_strip exn_str self t target_length method)).
Proof.
  repeat split; intros; apply ask_answers.
Qed.

Abbreviation step_call' :=
  (step_call uni_isalnum str_strip exn_str float_format).
Abbreviation execute_from' :=
  (execute_from uni_isalnum str_strip exn_str float_format).

Lemma step_call_cases pipeline step current :
  match step_kind step with
  | None => step_call' pipeline step current = None
  | Some kind =>
      exists call conf failed,
        step_call' pipeline step current = Some call
        /\ answers str_strip exn_str (processor pipeline) current kind conf
             failed call
  end.
Proof.
  unfold step_kind, step_call.
  repeat case_decide; try done;
    (eexists _, _, _; split; [reflexivity|]; apply ask_answers).
Qed.

Lemma current_after_cons t r results :
  current_after t (r :: results)
  = current_after (if confident r then processed_text r else t) results.
Proof. reflexivity. Qed.

Lemma execute_from_spec pipeline steps : forall results current w,
  exists news w',
    execute_from' pipeline steps results current w
    = (inr (results ++ news), w')
    /\ map processing_type news = omap step_kind steps
    /\ forall i r, news !! i = Some r ->
         original_text r = current_after current (take i news).
Proof.
  induction steps as [|step steps IH]; intros results current w.
  - exists [], w. simpl. rewrite app_nil_r. by repeat split.
  - cbn [execute_from omap list_omap].
    pose proof (step_call_cases pipeline step current) as Hstep.
    destruct (step_kind step) as [kind|].
    + destruct Hstep as (call & conf & failed & -> & Hcall).
      destruct (Hcall w) as (r & w1 & Hrun & Horig & Hkind & _).
      unfold bind at 1. rewrite Hrun.
      destruct (IH (results ++ [r])
                  (if confident r then processed_text r else current) w1)
        as (news & w' & -> & Hkinds & Horigs).
      exists (r :: news), w'. rewrite <- app_assoc. split; [done|].
      split; [cbn [map]; by rewrite Hkind, Hkinds|].
      intros [|i] r' Hr'.
      * injection Hr' as <-. done.
      * cbn [take]. rewrite current_after_cons. by apply Horigs.
    + rewrite Hstep. apply IH.
Qed.

(** X29. [TextProcessingPipeline.execute] never raises. It returns one
    result for each step it knows ("correct", "expand", "translate",
    "summarize"), in order, and passes over any other step name. The text
    each step is given is the processed text of the last result before it
    with a confidence above 0.5, and the text of the call when there is
    none: the text of a failed step is never handed on. *)
Theorem pipeline_feeds_confident_results pipeline t context w :
  exists results w',
    execute uni_isalnum str_strip exn_str float_format pipeline t context w
    = (inr results, w')
    /\ map processing_type results = omap step_kind (_steps pipeline)
    /\ forall i r, results !! i = Some r ->
         original_text r = current_after t (take i results).
Proof.
  destruct (execute_from_spec pipeline (_steps pipeline) [] t w)
    as (news & w' & Hrun & H).
  by exists news, w'.
Qed.

Lemma execute_from_unconfigured pipeline steps : forall results current w,
  get_active_provider (provider_manager (processor pipeline)) = None ->
  execute_from' pipeline steps results current w
  = (inr (results ++ map (placeholder current) (omap step_kind steps)), w).
Proof.
  induction steps as [|step steps IH]; intros results current w Hnone.
  - simpl. by rewrite app_nil_r.
  - cbn [execute_from omap list_omap].
    pose proof (step_call_cases pipeline step current) as Hstep.
    destruct (step_kind step) as [kind|].
    + destruct Hstep as (call & conf & failed & -> & Hcall).
      destruct (Hcall w) as (r & w1 & Hrun & _ & _ & Hr).
      rewrite Hnone in Hr. destruct Hr as [-> ->].
      unfold bind at 1. rewrite Hrun. cbn [confident placeholder].
      rewrite IH by done. by rewrite <- app_assoc.
    + rewrite Hstep. by apply IH.
Qed.

(** X30. Without an active provider, [execute] returns the placeholder
    result for every known step, each for the unchanged text of the call,
    and calls nothing: the placeholder text is never fed to a later
    step. *)
Theorem pipeline_without_provider pipeline t context w :
  get_active_provider (provider_manager (processor pipeline)) = None ->
  execute uni_isalnum str_strip exn_str float_format pipeline t context w
  = (inr (map (placeholder t) (omap step_kind (_steps pipeline))), w).
Proof. intros Hnone. unfold execute. by rewrite execute_from_unconfigured. Qed.

End Methods.

Lemma pipeline_without_provider_witness :
  execute cjk_isalnum plain_strip no_message two_point_zero idle_pipeline
    (text_of_string "teh") None tt
  = (inr [placeholder (text_of_string "teh") "correction";
          placeholder (text_of_string "teh") "translation"], tt).
Proof.
  apply (pipeline_without_provider cjk_isalnum plain_strip no_message
           two_point_zero idle_pipeline (text_of_string "teh") None tt).
  reflexivity.
Defined.

End TextFacts.
